(** * spice_ev: event bucketing, the strategy stepper and the Schedule strategy

    A shallow embedding of the parts of the simulation engine that the
    specification describes in detail:

    - [Events]     : [spice_ev/events.py]   ([Events.get_event_steps],
                     [EnergyValuesList.get_events]);
    - [NetzElog]   : [netz_elog/strategy.py] ([Strategy.step]);
    - [Legacy]     : [strategy.py]           (the older [Strategy.step]);
    - [Schedule]   : [spice_ev/strategies/schedule.py]
                     ([sim_balanced_charging], the hypothetical charge of
                     [evaluate_core_standing_time_ahead], the discharge floor
                     of the V2G pass, [utilize_stationary_batteries]).

    Further parts of the same files, and the code they call:

    - [ScheduleCsv]      : [spice_ev/events.py] ([get_schedule_from_csv],
                           on the parsed rows of the file);
    - [Calls]            : calls of [Strategy.step] one after the other;
    - [Greedy]           : [strategy.py] ([Greedy.step]);
    - [ScheduleCharging] : [schedule.py] ([charge_vehicles],
                           [charge_vehicles_after_core_standing_time]);
    - [Forecast]         : [schedule.py] ([collect_future_gc_info]);
    - [Schedule.get_external_load] : [netz_elog/constants.py].

    Conventions.  A [datetime] is the integer number of microseconds since
    an arbitrary epoch and a [timedelta] an integer number of microseconds
    (Python stores both at that resolution), so [//] on two timedeltas is
    [Z.div] (both round towards minus infinity).  Python floats are modelled
    by exact rationals [Q]; comparisons of computed numbers are stated with
    [==], [<=] and [<] of [Q].  A Python [dict] with string keys is a
    [gmap string _]; where the iteration order of a dict or list is
    observable it is a list.  An exception aborts the run, so a function
    that can raise returns an [option] or a [result] and no state. *)

From Stdlib Require Import ZArith QArith Qround Qminmax Qabs Lia Lqa.
From Stdlib Require Import Sorted Permutation.
From stdpp Require Import gmap strings list fin_maps.

(** Python's [x is None], as a boolean. *)
Definition is_None_b {A : Type} (o : option A) : bool :=
  match o with None => true | Some _ => false end.

(** Strict comparison on [Q] as a boolean. *)
Definition Qlt_bool (x y : Q) : bool := negb (Qle_bool y x).

(* ===================================================================== *)
(** * spice_ev/events.py *)
(* ===================================================================== *)

Module Events.

Open Scope Z_scope.

(** [LocalEnergyGeneration] and [FixedLoad] objects: the dictionary that
    [get_events] passes to the constructor. *)
Record EnergyValue := {
  ev_signal_time : Z;
  ev_start_time : Z;
  ev_name : string;
  ev_grid_connector_id : string;
  ev_value : Q;
}.

(** [GridOperatorSignal]: three required keys and five optional ones that
    default to [None]. *)
Record GridOperatorSignalData := {
  gos_signal_time : Z;
  gos_start_time : Z;
  gos_grid_connector_id : string;
  gos_max_power : option Q;
  gos_cost : option (list (string * Q));
  gos_target : option Q;
  gos_window : option bool;
  gos_capacity : option Q;
}.

(** [VehicleEvent]; the [update] dictionary restricted to the keys that
    the constructor converts. *)
Record VehicleEventData := {
  ve_signal_time : Z;
  ve_start_time : Z;
  ve_vehicle_id : string;
  ve_event_type : string;
  ve_update : list (string * Q);
}.

Inductive Event :=
| FixedLoad (e : EnergyValue)
| LocalEnergyGeneration (e : EnergyValue)
| GridOperatorSignal (g : GridOperatorSignalData)
| VehicleEvent (v : VehicleEventData).

Definition signal_time (e : Event) : Z :=
  match e with
  | FixedLoad x | LocalEnergyGeneration x => ev_signal_time x
  | GridOperatorSignal g => gos_signal_time g
  | VehicleEvent v => ve_signal_time v
  end.

Definition start_time (e : Event) : Z :=
  match e with
  | FixedLoad x | LocalEnergyGeneration x => ev_start_time x
  | GridOperatorSignal g => gos_start_time g
  | VehicleEvent v => ve_start_time v
  end.

(** The [value_class] argument of [get_events]; the assertion
    [value_class in [LocalEnergyGeneration, FixedLoad]] holds by typing. *)
Inductive ValueClass := FixedLoadClass | LocalEnergyGenerationClass.

Definition value_class (c : ValueClass) (x : EnergyValue) : Event :=
  match c with
  | FixedLoadClass => FixedLoad x
  | LocalEnergyGenerationClass => LocalEnergyGeneration x
  end.

Definition energy_value (e : Event) : option EnergyValue :=
  match e with
  | FixedLoad x | LocalEnergyGeneration x => Some x
  | _ => None
  end.

(** [EnergyValuesList]; [evl_time_delta] is
    [datetime.timedelta(seconds=self.step_duration_s)]. *)
Record EnergyValuesList := {
  evl_start_time : Z;
  evl_time_delta : Z;
  evl_grid_connector_id : string;
  evl_values : list Q;
  evl_factor : Q;
}.

(** [EnergyValuesList.get_events]: the loop runs over
    [enumerate(self.values + [0])]. *)
Definition get_events (self : EnergyValuesList) (name : string)
    (cls : ValueClass) (has_perfect_foresight : bool) : list Event :=
  imap (fun (idx : nat) (value : Q) =>
          let idx_time := evl_start_time self + evl_time_delta self * Z.of_nat idx in
          value_class cls
            {| ev_signal_time :=
                 if has_perfect_foresight then evl_start_time self else idx_time;
               ev_start_time := idx_time;
               ev_name := name;
               ev_grid_connector_id := evl_grid_connector_id self;
               ev_value := (value * evl_factor self)%Q |})
       (evl_values self ++ [0%Q]).

(** The [Events] object. The two dictionaries of value lists are kept in
    insertion order. *)
Record EventsObj := {
  fixed_load_lists : list (string * EnergyValuesList);
  local_generation_lists : list (string * EnergyValuesList);
  grid_operator_signals : list Event;
  vehicle_events : list Event;
}.

(** [all_events] as built at the top of [get_event_steps]. *)
Definition all_events (self : EventsObj) : list Event :=
  (vehicle_events self ++ grid_operator_signals self)
  ++ concat (map (fun '(name, load_list) =>
                    get_events load_list name FixedLoadClass false)
                 (fixed_load_lists self))
  ++ concat (map (fun '(name, local_generation_list) =>
                    get_events local_generation_list name
                      LocalEnergyGenerationClass true)
                 (local_generation_lists self)).

(** [warn(...)] calls, in the order they are issued. *)
Inductive Warning :=
| EventsBeforeStart (moved : nat)
| EventsAfterEnd (ignored : nat).

(** [steps[i].append(event)]; [None] is Python's [IndexError]. Only called
    with [0 <= i]. *)
Definition append_at (steps : list (list Event)) (i : Z) (event : Event)
    : option (list (list Event)) :=
  match steps !! Z.to_nat i with
  | Some bucket => Some (<[Z.to_nat i := bucket ++ [event]]> steps)
  | None => None
  end.

(** [index = -((start_time - event.signal_time) // interval)];
    [None] is Python's [ZeroDivisionError]. *)
Definition event_index (start_time interval : Z) (event : Event) : option Z :=
  if decide (interval = 0) then None
  else Some (- ((start_time - signal_time event) / interval)).

(** One iteration of [for event in all_events]. *)
Definition bucket_event (start_time n_intervals interval : Z)
    (st : list (list Event) * nat * nat) (event : Event)
    : option (list (list Event) * nat * nat) :=
  let '(steps, moved, ignored) := st in
  match event_index start_time interval event with
  | None => None
  | Some index =>
      if decide (index < 0) then
        steps' ← append_at steps 0 event; Some (steps', S moved, ignored)
      else if decide (index >= n_intervals) then
        Some (steps, moved, S ignored)
      else
        steps' ← append_at steps index event; Some (steps', moved, ignored)
  end.

Fixpoint bucket_events (start_time n_intervals interval : Z)
    (st : list (list Event) * nat * nat) (events : list Event)
    : option (list (list Event) * nat * nat) :=
  match events with
  | [] => Some st
  | event :: rest =>
      match bucket_event start_time n_intervals interval st event with
      | None => None
      | Some st' => bucket_events start_time n_intervals interval st' rest
      end
  end.

Definition warnings (moved ignored : nat) : list Warning :=
  (if decide (moved = 0%nat) then [] else [EventsBeforeStart moved])
  ++ (if decide (ignored = 0%nat) then [] else [EventsAfterEnd ignored]).

(** [Events.get_event_steps]: the buckets and the warnings issued. *)
Definition get_event_steps_from (events : list Event)
    (start_time n_intervals interval : Z)
    : option (list (list Event) * list Warning) :=
  let steps := replicate (Z.to_nat n_intervals) ([] : list Event) in
  match bucket_events start_time n_intervals interval (steps, 0%nat, 0%nat) events with
  | None => None
  | Some (steps', moved, ignored) => Some (steps', warnings moved ignored)
  end.

Definition get_event_steps (self : EventsObj)
    (start_time n_intervals interval : Z)
    : option (list (list Event) * list Warning) :=
  get_event_steps_from (all_events self) start_time n_intervals interval.

(** ** The bucket the specification names *)

(** [ceil(a / b)] computed on the rationals, independently of the code's
    integer formula. *)
Definition ceil_div (a b : Z) : Z := Qceiling (inject_Z a / inject_Z b).

Inductive Placement := Clamped | Dropped | Placed (bucket : nat).

(** Where the specification puts an event. *)
Definition placement (start_time n_intervals interval : Z) (event : Event)
    : Placement :=
  let index := ceil_div (signal_time event - start_time) interval in
  if decide (index < 0) then Clamped
  else if decide (index >= n_intervals) then Dropped
  else Placed (Z.to_nat index).

Definition in_bucket (start_time n_intervals interval : Z) (k : nat)
    (event : Event) : bool :=
  match placement start_time n_intervals interval event with
  | Clamped => bool_decide (k = 0%nat)
  | Dropped => false
  | Placed i => bool_decide (k = i)
  end.

Definition is_clamped (start_time n_intervals interval : Z) (event : Event) : bool :=
  match placement start_time n_intervals interval event with
  | Clamped => true | _ => false end.

Definition is_dropped (start_time n_intervals interval : Z) (event : Event) : bool :=
  match placement start_time n_intervals interval event with
  | Dropped => true | _ => false end.

End Events.

(** Concrete inputs used to run the definitions. *)
Module EventsExamples.
Import Events.
Open Scope Z_scope.

(** A quarter of an hour, in microseconds. *)
Definition quarter : Z := 900000000.

Definition signal (signal start : Z) : Event :=
  GridOperatorSignal
    {| gos_signal_time := signal; gos_start_time := start;
       gos_grid_connector_id := "GC1"; gos_max_power := None;
       gos_cost := None; gos_target := None; gos_window := None;
       gos_capacity := None |}.

(** Two samples, one per quarter of an hour, scaled by 3/2. *)
Definition series : EnergyValuesList :=
  {| evl_start_time := 0; evl_time_delta := quarter;
     evl_grid_connector_id := "GC1";
     evl_values := [(4 # 1)%Q; (6 # 1)%Q]; evl_factor := (3 # 2)%Q |}.

(** Signals known three intervals before the start, just after the start,
    exactly on an interval boundary and beyond a horizon of four intervals. *)
Definition scenario : EventsObj :=
  {| fixed_load_lists := [("building", series)];
     local_generation_lists := [];
     grid_operator_signals :=
       [signal (- 3 * quarter) 0; signal 1 quarter;
        signal (2 * quarter) (2 * quarter); signal (7 * quarter) (8 * quarter)];
     vehicle_events := [] |}.

End EventsExamples.

(* ===================================================================== *)
(** * spice_ev/events.py: [get_schedule_from_csv] *)
(* ===================================================================== *)

Module ScheduleCsv.

Open Scope Z_scope.

(** A [datetime]: the microseconds on its own clock since an epoch that
    falls on a midnight, and the UTC offset of an aware datetime. *)
Record Datetime := {
  wall : Z;
  utcoffset : option Z;
}.

Definition second : Z := 1000000.
Definition hour : Z := 3600 * second.
Definition day : Z := 24 * hour.

(** [d.hour]. *)
Definition hour_of (d : Datetime) : Z := (wall d mod day) / hour.

(** [d + delta], for a [timedelta] of [delta] microseconds. *)
Definition plus (d : Datetime) (delta : Z) : Datetime :=
  {| wall := wall d + delta; utcoffset := utcoffset d |}.

(** [d.replace(hour=9, minute=0, second=0)]: the microsecond stays. *)
Definition at_nine (d : Datetime) : Datetime :=
  {| wall := wall d - wall d mod day + 9 * hour + wall d mod second;
     utcoffset := utcoffset d |}.

(** [d.replace(tzinfo=datetime.timezone(datetime.timedelta(hours=2)))]. *)
Definition at_plus_two (d : Datetime) : Datetime :=
  {| wall := wall d; utcoffset := Some (2 * hour) |}.

(** [a > b]: two naive datetimes compare by their clocks, two aware ones
    by their instants; [None] is the [TypeError] of comparing a naive
    with an aware datetime. *)
Definition later (a b : Datetime) : option bool :=
  match utcoffset a, utcoffset b with
  | None, None => Some (wall b <? wall a)
  | Some oa, Some ob => Some (wall b - ob <? wall a - oa)
  | _, _ => None
  end.

(** What is read of [obj] and of the header of the file: [start_time]
    when given, [step_duration_s] as a [timedelta], the connector, and the
    names of the vehicle columns ([header[7:]] when [individual] is set,
    none otherwise). *)
Record Params := {
  start : option Datetime;
  interval : Z;
  grid_connector_id : string;
  vehicle_names : list string;
}.

(** A row as the loop reads it: the time in the first column ([None]
    when it cannot be parsed), the target, the window ([None] without a
    window column) and the schedules of the vehicle columns, last column
    first. *)
Record Row := {
  row_time : option Datetime;
  row_target : Q;
  row_window : option bool;
  row_vehicles : list Q;
}.

(** The dictionaries from which the events are built. *)
Inductive Emitted :=
| Signal (start_time signal_time : Datetime) (grid_connector_id : string)
    (target : Q) (window : option bool)
| VehicleSchedule (start_time signal_time : Datetime) (vehicle_id : string)
    (schedule : Q).

Inductive Failure :=
| TypeError          (* a position in the file without [start]; naive against aware *)
| WrongSignal        (* "Wrong signal in ... starts before being sent" *)
| IndexError         (* a row without one of the vehicle columns *)
| UnboundLocalError. (* [start_time] read before a signal has bound it *)

Inductive outcome (A : Type) :=
| Returned (a : A)
| Failed (e : Failure).
Arguments Returned {A} a.
Arguments Failed {A} e.

(** The variables of the loop over the rows; [times] holds [start_time]
    and [signal_time] once they are bound. *)
Record State := {
  st_start : option Datetime;
  last : option (Q * option bool);
  times : option (Datetime * Datetime);
  vehicle_schedules : list (option Q);
  schedule : list Emitted;
}.

(** [target != last_target or window != last_window]. *)
Definition changed (target : Q) (window : option bool)
    (last : option (Q * option bool)) : bool :=
  match last with
  | None => true
  | Some (last_target, last_window) =>
      negb (Qeq_bool target last_target)
      || negb (bool_decide (window = last_window))
  end.

(** The block that finds [start_time]: the new [start] and [start_time]. *)
Definition find_start_time (interval : Z) (idx : nat) (row : Row)
    (start : option Datetime) : outcome (Datetime * Datetime) :=
  match row_time row with
  | Some start_time =>
      let start_time :=
        if (is_None_b start || negb (is_None_b (start ≫= utcoffset)))
           && is_None_b (utcoffset start_time)
        then at_plus_two start_time else start_time in
      Returned (default start_time start, start_time)
  | None =>
      match start with
      | None => Failed TypeError
      | Some start => Returned (start, plus start (Z.of_nat idx * interval))
      end
  end.

(** The convention: sent two days before at 9 for a start in the
    morning, one day before at 9 otherwise, and not before [start]. *)
Definition find_signal_time (start start_time : Datetime) : outcome Datetime :=
  let signal_time :=
    if decide (hour_of start_time < 12) then plus start_time (- (2 * day))
    else plus start_time (- day) in
  let signal_time := at_nine signal_time in
  match later signal_time start with
  | None => Failed TypeError
  | Some is_later =>
      let signal_time := if is_later then signal_time else start in
      match later signal_time start_time with
      | None => Failed TypeError
      | Some true => Failed WrongSignal
      | Some false => Returned signal_time
      end
  end.

(** The loop [for i, vid in enumerate(reversed(vehicle_names))]. *)
Fixpoint vehicle_events (times : option (Datetime * Datetime)) (row : Row)
    (i : nat) (names : list string) (schedules : list (option Q))
    (emitted : list Emitted) : outcome (list (option Q) * list Emitted) :=
  match names with
  | [] => Returned (schedules, emitted)
  | vid :: rest =>
      match row_vehicles row !! i, schedules !! i with
      | Some v_schedule, Some known =>
          if match known with
             | Some old => negb (Qeq_bool v_schedule old)
             | None => true
             end
          then
            match times with
            | None => Failed UnboundLocalError
            | Some (start_time, signal_time) =>
                vehicle_events times row (S i) rest
                  (<[i := Some v_schedule]> schedules)
                  (emitted ++ [VehicleSchedule start_time signal_time vid v_schedule])
            end
          else vehicle_events times row (S i) rest schedules emitted
      | _, _ => Failed IndexError
      end
  end.

(** The block [if target != last_target or window != last_window]. *)
Definition read_signal (p : Params) (idx : nat) (row : Row) (st : State)
    : outcome State :=
  if changed (row_target row) (row_window row) (last st) then
    match find_start_time (interval p) idx row (st_start st) with
    | Failed e => Failed e
    | Returned (start, start_time) =>
        match find_signal_time start start_time with
        | Failed e => Failed e
        | Returned signal_time =>
            Returned
              {| st_start := Some start;
                 last := Some (row_target row, row_window row);
                 times := Some (start_time, signal_time);
                 vehicle_schedules := vehicle_schedules st;
                 schedule :=
                   schedule st
                   ++ [Signal start_time signal_time (grid_connector_id p)
                         (row_target row) (row_window row)] |}
        end
    end
  else Returned st.

(** The body of [for idx, row in enumerate(reader)]. *)
Definition read_row (p : Params) (idx : nat) (row : Row) (st : State)
    : outcome State :=
  match read_signal p idx row st with
  | Failed e => Failed e
  | Returned st =>
      match vehicle_events (times st) row 0 (rev (vehicle_names p))
              (vehicle_schedules st) (schedule st) with
      | Failed e => Failed e
      | Returned (schedules, emitted) =>
          Returned
            {| st_start := st_start st; last := last st; times := times st;
               vehicle_schedules := schedules; schedule := emitted |}
      end
  end.

Fixpoint read_rows (p : Params) (idx : nat) (rows : list Row) (st : State)
    : outcome State :=
  match rows with
  | [] => Returned st
  | row :: rest =>
      match read_row p idx row st with
      | Failed e => Failed e
      | Returned st' => read_rows p (S idx) rest st'
      end
  end.

(** [get_schedule_from_csv], on the parsed file. *)
Definition get_schedule_from_csv (obj : option Params) (rows : list Row)
    : outcome (list Emitted) :=
  match obj with
  | None => Returned []
  | Some p =>
      match read_rows p 0 rows
              {| st_start := start p; last := None; times := None;
                 vehicle_schedules := replicate (length (vehicle_names p)) None;
                 schedule := [] |} with
      | Failed e => Failed e
      | Returned st => Returned (schedule st)
      end
  end.

(** The target and the window of the last signal of a list. *)
Definition last_signal (events : list Emitted) : option (Q * option bool) :=
  foldl (fun found event =>
           match event with
           | Signal _ _ _ target window => Some (target, window)
           | VehicleSchedule _ _ _ _ => found
           end)
        None events.

(** The [start_time] and [signal_time] that the loop holds after it
    has appended [events], when it held [current] before. *)
Definition times_after (current : option (Datetime * Datetime))
    (events : list Emitted) : option (Datetime * Datetime) :=
  foldl (fun found event =>
           match event with
           | Signal start_time signal_time _ _ _ => Some (start_time, signal_time)
           | VehicleSchedule _ _ _ _ => found
           end)
        current events.

(** A list in which every signal is sent no later than it starts and
    every vehicle event carries the two times of the signal before it;
    [current] holds those of the last signal seen. *)
Fixpoint stamped (current : option (Datetime * Datetime))
    (events : list Emitted) : Prop :=
  match events with
  | [] => True
  | Signal start_time signal_time _ _ _ :: rest =>
      later signal_time start_time = Some false
      /\ stamped (Some (start_time, signal_time)) rest
  | VehicleSchedule start_time signal_time _ _ :: rest =>
      current = Some (start_time, signal_time) /\ stamped current rest
  end.

(** ** The signals the docstring names: "only changed target values
    generate a new event" *)

(** The target and the window of the grid operator signals of a list, in
    their order. *)
Definition signals (events : list Emitted) : list (Q * option bool) :=
  omap (fun event =>
          match event with
          | Signal _ _ _ target window => Some (target, window)
          | VehicleSchedule _ _ _ _ => None
          end)
       events.

(** A row whose target or whose window is not that of the row before
    it. *)
Definition differs (previous row : Row) : bool :=
  negb (Qeq_bool (row_target row) (row_target previous))
  || negb (bool_decide (row_window row = row_window previous)).

(** The rows that change the schedule: the first row of the file and
    every row that differs from the row before it. *)
Fixpoint changes (previous : option Row) (rows : list Row) : list Row :=
  match rows with
  | [] => []
  | row :: rest =>
      (if match previous with
          | Some previous => differs previous row
          | None => true
          end
       then [row] else [])
      ++ changes (Some row) rest
  end.

End ScheduleCsv.

(** A schedule file of four rows at a quarter of an hour, for one
    vehicle column: the target changes in the third row, the schedule of
    the vehicle in the second and the fourth. *)
Module ScheduleCsvExamples.
Import ScheduleCsv.

Definition noon : Datetime := {| wall := 12 * hour; utcoffset := None |}.

Definition params : Params :=
  {| start := Some noon; interval := 900 * second;
     grid_connector_id := "GC1"; vehicle_names := ["V1"] |}.

Definition row (target vehicle : Q) : Row :=
  {| row_time := None; row_target := target; row_window := Some true;
     row_vehicles := [vehicle] |}.

Definition rows : list Row :=
  [row (10 # 1) (3 # 1); row (10 # 1) (4 # 1);
   row (12 # 1) (4 # 1); row (12 # 1) (5 # 1)]%Q.

End ScheduleCsvExamples.

(* ===================================================================== *)
(** * The strategy stepper: netz_elog/strategy.py and strategy.py *)
(* ===================================================================== *)

(** Exceptions. An exception ends the run; what it leaves behind in the
    world state is never read again. *)
Inductive Fatal :=
| KeyError                    (* unknown connector or vehicle id *)
| LoadFromChargingStation     (* "... must not be from charging station" *)
| BelowDesiredSoc             (* "Vehicle ... is below desired SOC" *)
| NotConnectedOnArrival       (* assert connected_charging_station is not None *)
| NoSocDelta                  (* assert hasattr(vehicle, 'soc_delta') *)
| NegativeSoc                 (* "SOC of vehicle ... should not be negative" *)
| UnknownEventType            (* "Unknown event type: ..." *)
| NoAssociatedCosts           (* "Connector ... has no associated costs ..." *)
| NotAvailable                (* "Vehicle ... not available during core standing time" *)
| TypeError                   (* arithmetic or comparison on [None] *)
| UnboundLocalError.          (* a local variable read before it is assigned *)

Inductive result (A : Type) :=
| Ok (a : A)
| Raise (e : Fatal).
Arguments Ok {A} a.
Arguments Raise {A} e.

#[export] Instance result_ret : MRet result := fun A a => Ok a.
#[export] Instance result_bind : MBind result := fun A B f m =>
  match m with Ok a => f a | Raise e => Raise e end.

(** [d[key]]: a missing key raises [KeyError]. *)
Definition getitem {A : Type} (d : gmap string A) (key : string) : result A :=
  match d !! key with Some a => Ok a | None => Raise KeyError end.

(** [assert b], raising [e]. *)
Definition assert (b : bool) (e : Fatal) : result unit :=
  if b then Ok tt else Raise e.

(** The entities of [constants.py] that the stepper reads and writes. *)
Module World.

Inductive CostValue :=
| CostText (s : string)
| CostNumber (q : Q)
| CostNumbers (l : list Q).

(** A cost dictionary, e.g. [{"type": "fixed", "value": 0.3}]. *)
Definition Cost := list (string * CostValue).

(** Truth value of [cost]: [None] and the empty dictionary are false. *)
Definition cost_truthy (c : option Cost) : bool :=
  match c with Some (_ :: _) => true | _ => false end.

(** Truth value of a power: [None] and [0.0] are false. *)
Definition power_truthy (p : option Q) : bool :=
  match p with Some q => negb (Qeq_bool q 0) | None => false end.

Record GridConnector := {
  max_power : option Q;
  cur_max_power : option Q;
  current_loads : gmap string Q;
  cost : option Cost;
}.

Record ChargingStation := {
  cs_max_power : Q;
  cs_parent : string;
  cs_current_power : Q;
}.

(** A vehicle. [soc] is [vehicle.battery.soc] in netz_elog and
    [vehicle.soc] in the older stepper; [soc_delta] is an attribute that
    exists only between an arrival's update and its [delattr]. *)
Record Vehicle := {
  connected_charging_station : option string;
  estimated_time_of_arrival : option Z;
  estimated_time_of_departure : option Z;
  desired_soc : Q;
  soc : Q;
  soc_delta : option Q;
}.

(** One item of a vehicle event's [update] dictionary. *)
Inductive FieldUpdate :=
| SetConnectedChargingStation (cs : option string)
| SetEstimatedTimeOfArrival (t : option Z)
| SetEstimatedTimeOfDeparture (t : option Z)
| SetDesiredSoc (q : Q)
| SetSocDelta (q : Q).

(** [setattr(vehicle, k, v)]. *)
Definition setattr (v : Vehicle) (u : FieldUpdate) : Vehicle :=
  match u with
  | SetConnectedChargingStation cs =>
      {| connected_charging_station := cs;
         estimated_time_of_arrival := estimated_time_of_arrival v;
         estimated_time_of_departure := estimated_time_of_departure v;
         desired_soc := desired_soc v; soc := soc v; soc_delta := soc_delta v |}
  | SetEstimatedTimeOfArrival t =>
      {| connected_charging_station := connected_charging_station v;
         estimated_time_of_arrival := t;
         estimated_time_of_departure := estimated_time_of_departure v;
         desired_soc := desired_soc v; soc := soc v; soc_delta := soc_delta v |}
  | SetEstimatedTimeOfDeparture t =>
      {| connected_charging_station := connected_charging_station v;
         estimated_time_of_arrival := estimated_time_of_arrival v;
         estimated_time_of_departure := t;
         desired_soc := desired_soc v; soc := soc v; soc_delta := soc_delta v |}
  | SetDesiredSoc q =>
      {| connected_charging_station := connected_charging_station v;
         estimated_time_of_arrival := estimated_time_of_arrival v;
         estimated_time_of_departure := estimated_time_of_departure v;
         desired_soc := q; soc := soc v; soc_delta := soc_delta v |}
  | SetSocDelta q =>
      {| connected_charging_station := connected_charging_station v;
         estimated_time_of_arrival := estimated_time_of_arrival v;
         estimated_time_of_departure := estimated_time_of_departure v;
         desired_soc := desired_soc v; soc := soc v; soc_delta := Some q |}
  end.

(** [for k, v in ev.update.items(): setattr(vehicle, k, v)]. *)
Definition apply_update (update : list FieldUpdate) (v : Vehicle) : Vehicle :=
  fold_left setattr update v.

Definition set_soc (q : Q) (d : option Q) (v : Vehicle) : Vehicle :=
  {| connected_charging_station := connected_charging_station v;
     estimated_time_of_arrival := estimated_time_of_arrival v;
     estimated_time_of_departure := estimated_time_of_departure v;
     desired_soc := desired_soc v; soc := q; soc_delta := d |}.

Definition set_cost (c : option Cost) (g : GridConnector) : GridConnector :=
  {| max_power := max_power g; cur_max_power := cur_max_power g;
     current_loads := current_loads g; cost := c |}.

Definition set_cur_max_power (p : option Q) (g : GridConnector) : GridConnector :=
  {| max_power := max_power g; cur_max_power := p;
     current_loads := current_loads g; cost := cost g |}.

Definition set_current_loads (l : gmap string Q) (g : GridConnector) : GridConnector :=
  {| max_power := max_power g; cur_max_power := cur_max_power g;
     current_loads := l; cost := cost g |}.

(** The events of the stepper. [OtherEvent] is an object of any other
    class, which the stepper rejects. *)
Inductive Event :=
| ExternalLoad (start_time : Z) (grid_connector_id name : string) (value : Q)
| EnergyFeedIn (start_time : Z) (grid_connector_id name : string) (value : Q)
| GridOperatorSignal (start_time : Z) (grid_connector_id : string)
    (ev_cost : option Cost) (ev_max_power : option Q)
| VehicleEvent (start_time : Z) (vehicle_id event_type : string)
    (update : list FieldUpdate)
| OtherEvent (start_time : Z).

Definition start_time (ev : Event) : Z :=
  match ev with
  | ExternalLoad t _ _ _ | EnergyFeedIn t _ _ _ | GridOperatorSignal t _ _ _
  | VehicleEvent t _ _ _ | OtherEvent t => t
  end.

Record WorldState := {
  grid_connectors : gmap string GridConnector;
  charging_stations : gmap string ChargingStation;
  vehicles : gmap string Vehicle;
  future_events : list Event;
}.

Definition set_grid_connectors (g : gmap string GridConnector) (w : WorldState) :=
  {| grid_connectors := g; charging_stations := charging_stations w;
     vehicles := vehicles w; future_events := future_events w |}.

Definition set_vehicles (v : gmap string Vehicle) (w : WorldState) :=
  {| grid_connectors := grid_connectors w; charging_stations := charging_stations w;
     vehicles := v; future_events := future_events w |}.

Definition set_future_events (q : list Event) (w : WorldState) :=
  {| grid_connectors := grid_connectors w; charging_stations := charging_stations w;
     vehicles := vehicles w; future_events := q |}.

Record Strategy := {
  world_state : WorldState;
  current_time : Z;
  interval : Z;
  margin : Q;
}.

(** ** The pending queue: the first lines of [step], the same in both files *)

(** [list.sort(key=lambda ev: ev.start_time)]. Python's sort is stable;
    so is this insertion sort, which puts an event before the first
    later-listed event that does not start earlier. *)
Fixpoint insert_by_start_time (ev : Event) (l : list Event) : list Event :=
  match l with
  | [] => [ev]
  | x :: rest =>
      if decide (start_time ev <= start_time x)%Z then ev :: x :: rest
      else x :: insert_by_start_time ev rest
  end.

Definition sort_by_start_time (l : list Event) : list Event :=
  foldr insert_by_start_time [] l.

(** The [while True] loop of [step], for a way [apply] to apply one
    event: stop on an empty queue or on a first event that starts after
    [now], otherwise pop the first event and apply it. No event
    application reads [future_events]; the queue is held beside the world
    state while the loop runs and stored when it stops. *)
Fixpoint run_due_events (apply : Event -> WorldState -> result WorldState)
    (now : Z) (queue : list Event) (w : WorldState) : result WorldState :=
  match queue with
  | [] => Ok (set_future_events [] w)
  | ev :: rest =>
      if decide (start_time ev > now)%Z then Ok (set_future_events (ev :: rest) w)
      else w' ← apply ev w; run_due_events apply now rest w'
  end.

(** The events that are due at [now] and the ones that are not, for a
    queue in any order: the longest prefix of events that start at or
    before [now], and what follows it. *)
Fixpoint due_events (now : Z) (queue : list Event) : list Event :=
  match queue with
  | [] => []
  | ev :: rest =>
      if decide (start_time ev <= now)%Z then ev :: due_events now rest else []
  end.

Fixpoint deferred_events (now : Z) (queue : list Event) : list Event :=
  match queue with
  | [] => []
  | ev :: rest =>
      if decide (start_time ev <= now)%Z then deferred_events now rest
      else ev :: rest
  end.

(** The order of the sorted queue, and the events of one start time. *)
Definition by_start_time (a b : Event) : Prop :=
  (start_time a <= start_time b)%Z.

Definition starts_at (t : Z) (ev : Event) : bool := (start_time ev =? t)%Z.

(** A vehicle whose SOC is a fraction and which holds no [soc_delta]
    that would raise it; an event that brings no such [soc_delta]. *)
Definition soc_within (v : Vehicle) : Prop :=
  (0 <= soc v <= 1)%Q /\ forall d, soc_delta v = Some d -> (d <= 0)%Q.

Definition no_positive_soc_delta (ev : Event) : Prop :=
  match ev with
  | VehicleEvent _ _ _ update =>
      forall d, SetSocDelta d ∈ update -> (d <= 0)%Q
  | _ => True
  end.

(** The [update] of an event that is an arrival of the vehicle [id]. *)
Definition arrival_of (id : string) (ev : Event) : option (list FieldUpdate) :=
  match ev with
  | VehicleEvent _ vehicle_id event_type update =>
      if decide (vehicle_id = id /\ event_type = "arrival") then Some update
      else None
  | _ => None
  end.

(** Applying a list of events one after the other, first to last. *)
Fixpoint apply_events (apply : Event -> WorldState -> result WorldState)
    (events : list Event) (w : WorldState) : result WorldState :=
  match events with
  | [] => Ok w
  | ev :: rest => w' ← apply ev w; apply_events apply rest w'
  end.

End World.

(** ** netz_elog/strategy.py *)
Module NetzElog.
Import World.

(** [Strategy.__init__]: [margin] is 0.05 unless a keyword argument
    replaces it. [w] is the deep copy of the constants. *)
Definition init (w : WorldState) (start_time interval : Z) : Strategy :=
  {| world_state := set_future_events [] w;
     current_time := start_time - interval;
     interval := interval;
     margin := 5 # 100 |}.

Definition set_connector (id : string) (g : GridConnector) (w : WorldState) :=
  set_grid_connectors (<[id := g]> (grid_connectors w)) w.

Definition set_vehicle (id : string) (v : Vehicle) (w : WorldState) :=
  set_vehicles (<[id := v]> (vehicles w)) w.

(** The [GridOperatorSignal] branch. *)
Definition apply_grid_operator_signal (ev_cost : option Cost)
    (ev_max_power : option Q) (connector : GridConnector) : GridConnector :=
  let connector :=
    if cost_truthy ev_cost then set_cost ev_cost connector else connector in
  if power_truthy (max_power connector) then
    match ev_max_power with
    | None => set_cur_max_power (max_power connector) connector
    | Some p =>
        set_cur_max_power
          (Some (Qmin (default 0%Q (max_power connector)) p)) connector
    end
  else set_cur_max_power ev_max_power connector.

(** The [VehicleEvent] branch, after the vehicle was looked up. *)
Definition apply_vehicle_event (margin : Q) (event_type : string)
    (update : list FieldUpdate) (vehicle : Vehicle) : result Vehicle :=
  let vehicle := apply_update update vehicle in
  if decide (event_type = "departure") then
    let vehicle := setattr vehicle (SetConnectedChargingStation None) in
    _ ← assert (Qle_bool ((1 - margin) * desired_soc vehicle) (soc vehicle))
          BelowDesiredSoc;
    Ok vehicle
  else if decide (event_type = "arrival") then
    _ ← assert (negb (is_None_b (connected_charging_station vehicle)))
          NotConnectedOnArrival;
    match soc_delta vehicle with
    | None => Raise NoSocDelta
    | Some delta =>
        let new_soc := (soc vehicle + delta)%Q in
        _ ← assert (Qle_bool 0 new_soc) NegativeSoc;
        Ok (set_soc new_soc None vehicle)
    end
  else Ok vehicle.

(** The body of the [while] loop after the [pop(0)]. *)
Definition apply_event (margin : Q) (ev : Event) (w : WorldState)
    : result WorldState :=
  match ev with
  | ExternalLoad _ grid_connector_id name value =>
      connector ← getitem (grid_connectors w) grid_connector_id;
      _ ← assert (is_None_b (charging_stations w !! name)) LoadFromChargingStation;
      Ok (set_connector grid_connector_id
            (set_current_loads (<[name := value]> (current_loads connector))
               connector) w)
  | EnergyFeedIn _ grid_connector_id name value =>
      _ ← assert (is_None_b (charging_stations w !! name)) LoadFromChargingStation;
      connector ← getitem (grid_connectors w) grid_connector_id;
      Ok (set_connector grid_connector_id
            (set_current_loads (<[name := (- value)%Q]> (current_loads connector))
               connector) w)
  | GridOperatorSignal _ grid_connector_id ev_cost ev_max_power =>
      connector ← getitem (grid_connectors w) grid_connector_id;
      Ok (set_connector grid_connector_id
            (apply_grid_operator_signal ev_cost ev_max_power connector) w)
  | VehicleEvent _ vehicle_id event_type update =>
      vehicle ← getitem (vehicles w) vehicle_id;
      vehicle' ← apply_vehicle_event margin event_type update vehicle;
      Ok (set_vehicle vehicle_id vehicle' w)
  | OtherEvent _ => Raise UnknownEventType
  end.

(** [for load_name in list(connector.current_loads.keys()): if load_name
    in charging_stations.keys(): del connector.current_loads[load_name]]. *)
Definition reset_charging_station_loads (stations : gmap string ChargingStation)
    (loads : gmap string Q) : gmap string Q :=
  foldr (fun load_name loads =>
           if is_None_b (stations !! load_name) then loads
           else delete load_name loads)
        loads (map fst (map_to_list loads)).

Definition reset_connector (stations : gmap string ChargingStation)
    (connector : GridConnector) : GridConnector :=
  set_current_loads
    (reset_charging_station_loads stations (current_loads connector)) connector.

(** The closing loop over [grid_connectors.items()]: one connector after
    the other is reset and then checked for its cost. *)
Fixpoint reset_and_check (stations : gmap string ChargingStation)
    (items : list (string * GridConnector))
    (connectors : gmap string GridConnector)
    : result (gmap string GridConnector) :=
  match items with
  | [] => Ok connectors
  | (name, connector) :: rest =>
      let connector' := reset_connector stations connector in
      _ ← assert (cost_truthy (cost connector')) NoAssociatedCosts;
      reset_and_check stations rest (<[name := connector']> connectors)
  end.

Definition finish_step (w : WorldState) : result WorldState :=
  connectors ← reset_and_check (charging_stations w)
                  (map_to_list (grid_connectors w)) (grid_connectors w);
  Ok (set_grid_connectors connectors w).

(** [Strategy.step]. *)
Definition step (self : Strategy) (event_list : list Event) : result Strategy :=
  let current_time := (current_time self + interval self)%Z in
  let queue :=
    sort_by_start_time (future_events (world_state self) ++ event_list) in
  w ← run_due_events (apply_event (margin self)) current_time queue
        (world_state self);
  w' ← finish_step w;
  Ok {| world_state := w'; current_time := current_time;
        interval := interval self; margin := margin self |}.

End NetzElog.

(** ** strategy.py, the older stepper *)
Module Legacy.
Import World.

(** [Strategy.__init__]; this stepper has no [margin]. *)
Definition init (w : WorldState) (start_time interval : Z) : Strategy :=
  {| world_state := set_future_events [] w;
     current_time := start_time - interval;
     interval := interval;
     margin := 0 |}.

(** The [GridOperatorSignal] branch. *)
Definition apply_grid_operator_signal (ev_cost : option Cost)
    (ev_max_power : option Q) (connector : GridConnector) : GridConnector :=
  let connector :=
    if cost_truthy ev_cost then set_cost ev_cost connector else connector in
  if power_truthy (max_power connector) then
    if power_truthy ev_max_power then
      set_cur_max_power
        (Some (Qmax (default 0%Q (max_power connector))
                    (default 0%Q ev_max_power))) connector
    else set_cur_max_power (max_power connector) connector
  else set_cur_max_power ev_max_power connector.

(** The [VehicleEvent] branch. The two asserts on arrival
    ([connected_charging_station is not None], [hasattr soc_delta]) are
    checked; [assert(vehicle.soc >= 0, '...')] asserts a non-empty tuple
    and never fails. *)
Definition apply_vehicle_event (event_type : string)
    (update : list FieldUpdate) (vehicle : Vehicle) : result Vehicle :=
  let vehicle := apply_update update vehicle in
  if decide (event_type = "departure") then
    Ok (setattr vehicle (SetConnectedChargingStation None))
  else if decide (event_type = "arrival") then
    _ ← assert (negb (is_None_b (connected_charging_station vehicle)))
          NotConnectedOnArrival;
    match soc_delta vehicle with
    | None => Raise NoSocDelta
    | Some delta => Ok (set_soc (soc vehicle + delta)%Q None vehicle)
    end
  else Ok vehicle.

(** The body of the [while] loop after the [pop(0)]. This stepper knows
    no [EnergyFeedIn]. *)
Definition apply_event (ev : Event) (w : WorldState) : result WorldState :=
  match ev with
  | ExternalLoad _ grid_connector_id name value =>
      connector ← getitem (grid_connectors w) grid_connector_id;
      Ok (NetzElog.set_connector grid_connector_id
            (set_current_loads (<[name := value]> (current_loads connector))
               connector) w)
  | GridOperatorSignal _ grid_connector_id ev_cost ev_max_power =>
      connector ← getitem (grid_connectors w) grid_connector_id;
      Ok (NetzElog.set_connector grid_connector_id
            (apply_grid_operator_signal ev_cost ev_max_power connector) w)
  | VehicleEvent _ vehicle_id event_type update =>
      vehicle ← getitem (vehicles w) vehicle_id;
      vehicle' ← apply_vehicle_event event_type update vehicle;
      Ok (NetzElog.set_vehicle vehicle_id vehicle' w)
  | EnergyFeedIn _ _ _ _ | OtherEvent _ => Raise UnknownEventType
  end.

(** The closing loop only checks the cost. (The message it would format
    names an unbound [time]; the step aborts either way.) *)
Fixpoint check_costs (items : list (string * GridConnector)) : result unit :=
  match items with
  | [] => Ok tt
  | (name, connector) :: rest =>
      _ ← assert (cost_truthy (cost connector)) NoAssociatedCosts;
      check_costs rest
  end.

Definition finish_step (w : WorldState) : result WorldState :=
  _ ← check_costs (map_to_list (grid_connectors w));
  Ok w.

(** [Strategy.step]. *)
Definition step (self : Strategy) (event_list : list Event) : result Strategy :=
  let current_time := (current_time self + interval self)%Z in
  let queue :=
    sort_by_start_time (future_events (world_state self) ++ event_list) in
  w ← run_due_events apply_event current_time queue (world_state self);
  w' ← finish_step w;
  Ok {| world_state := w'; current_time := current_time;
        interval := interval self; margin := margin self |}.

End Legacy.

(** ** Calls of [step] one after the other *)
Module Calls.
Import World.

(** [step] called once per list of new events, first list first; the
    first exception ends the run. *)
Fixpoint step_all (step : Strategy -> list Event -> result Strategy)
    (self : Strategy) (event_lists : list (list Event)) : result Strategy :=
  match event_lists with
  | [] => Ok self
  | event_list :: rest => self' ← step self event_list; step_all step self' rest
  end.

(** The events that assign [current_loads[name]] of the connector
    [grid_connector_id]. *)
Definition writes_load (grid_connector_id name : string) (ev : Event) : Prop :=
  match ev with
  | ExternalLoad _ g n _ | EnergyFeedIn _ g n _ =>
      g = grid_connector_id /\ n = name
  | _ => False
  end.

(** The value such an event assigns: a feed-in counts as a negative load. *)
Definition written_load (ev : Event) : option Q :=
  match ev with
  | ExternalLoad _ _ _ value => Some value
  | EnergyFeedIn _ _ _ value => Some (- value)%Q
  | _ => None
  end.

End Calls.

(** Concrete worlds used to run the steppers. *)
Module StepperExamples.
Import World.

Definition quarter : Z := 900000000.

Definition fixed_cost : Cost :=
  [("type", CostText "fixed"); ("value", CostNumber (3 # 10))].

(** A connector limited to 100 kW with a tariff. *)
Definition connector : GridConnector :=
  {| max_power := Some (100 # 1); cur_max_power := Some (100 # 1);
     current_loads := ∅; cost := Some fixed_cost |}.

Definition station : ChargingStation :=
  {| cs_max_power := 22 # 1; cs_parent := "GC1"; cs_current_power := 0%Q |}.

(** A connected vehicle at SOC 0.5 that wants 0.9. *)
Definition vehicle : Vehicle :=
  {| connected_charging_station := Some "CS1";
     estimated_time_of_arrival := None;
     estimated_time_of_departure := Some 0%Z;
     desired_soc := 9 # 10; soc := 1 # 2; soc_delta := None |}.

Definition world : WorldState :=
  {| grid_connectors := {[ "GC1" := connector ]};
     charging_stations := {[ "CS1" := station ]};
     vehicles := {[ "V1" := vehicle ]};
     future_events := [] |}.

(** The operator lowers the limit to 50 kW. *)
Definition limit_signal : Event :=
  GridOperatorSignal 0 "GC1" None (Some (50 # 1)).

(** The vehicle leaves. *)
Definition departure : Event := VehicleEvent 0 "V1" "departure" [].

(** A vehicle that is away at SOC 0.9 comes back with [soc_delta = +0.5]. *)
Definition away : Vehicle :=
  {| connected_charging_station := None;
     estimated_time_of_arrival := Some 0%Z;
     estimated_time_of_departure := None;
     desired_soc := 9 # 10; soc := 9 # 10; soc_delta := None |}.

Definition arrival : Event :=
  VehicleEvent 0 "V1" "arrival"
    [SetConnectedChargingStation (Some "CS1"); SetSocDelta (1 # 2)].

(** The same vehicle comes back having used up 0.4 of its battery. *)
Definition homecoming : Event :=
  VehicleEvent 0 "V1" "arrival"
    [SetConnectedChargingStation (Some "CS1"); SetSocDelta (- (2 # 5))].

(** An external load that carries the name of a charging station. *)
Definition station_load : Event := ExternalLoad 0 "GC1" "CS1" (5 # 1).

(** A connector whose configured limit is 0 kW. *)
Definition closed_connector : GridConnector :=
  {| max_power := Some 0%Q; cur_max_power := Some 0%Q;
     current_loads := ∅; cost := Some fixed_cost |}.

(** A connector that already carries the load of a charging station and
    a building load. *)
Definition loaded_connector : GridConnector :=
  {| max_power := Some (100 # 1); cur_max_power := Some (100 # 1);
     current_loads := {[ "CS1" := 11 # 1; "building" := 7 # 1 ]};
     cost := Some fixed_cost |}.

Definition with_connector (g : GridConnector) : WorldState :=
  set_grid_connectors {[ "GC1" := g ]} world.

Definition with_vehicle (v : Vehicle) : WorldState :=
  set_vehicles {[ "V1" := v ]} world.

End StepperExamples.

(* ===================================================================== *)
(** * spice_ev/strategies/schedule.py *)
(* ===================================================================== *)

Module Schedule.

(** ** The components the strategy works on

    [spice_ev/components.py], [spice_ev/battery.py], [spice_ev/util.py] and
    [spice_ev/strategy.py] are not among the sources. The records below
    hold the attributes that [schedule.py] reads and writes. *)

Record Battery := {
  capacity : Q;
  soc : Q;
  efficiency : Q;
  loading_curve_max_power : Q;
  unloading_curve_max_power : Q;
  min_charging_power : Q;       (* stationary batteries *)
  parent : string;              (* stationary batteries: the connector *)
}.

Definition set_soc (q : Q) (b : Battery) : Battery :=
  {| capacity := capacity b; soc := q; efficiency := efficiency b;
     loading_curve_max_power := loading_curve_max_power b;
     unloading_curve_max_power := unloading_curve_max_power b;
     min_charging_power := min_charging_power b; parent := parent b |}.

Record VehicleType := {
  vt_min_charging_power : Q;
  charging_curve_max_power : Q;
  v2g : bool;
  vt_discharge_limit : Q;
}.

Record Vehicle := {
  vehicle_type : VehicleType;
  connected_charging_station : option string;
  estimated_time_of_departure : option Z;
  desired_soc : Q;
  battery : Battery;
}.

Definition set_battery (b : Battery) (v : Vehicle) : Vehicle :=
  {| vehicle_type := vehicle_type v;
     connected_charging_station := connected_charging_station v;
     estimated_time_of_departure := estimated_time_of_departure v;
     desired_soc := desired_soc v; battery := b |}.

(** [vehicle.battery.soc = q]. *)
Definition set_battery_soc (q : Q) (v : Vehicle) : Vehicle :=
  set_battery (set_soc q (battery v)) v.

(** [Vehicle.get_delta_soc], as in [netz_elog/constants.py]. *)
Definition get_delta_soc (v : Vehicle) : Q := desired_soc v - soc (battery v).

Record ChargingStation := {
  cs_max_power : Q;
  cs_min_power : Q;
  cs_parent : string;
  cs_current_power : Q;
}.

Definition set_current_power (q : Q) (cs : ChargingStation) : ChargingStation :=
  {| cs_max_power := cs_max_power cs; cs_min_power := cs_min_power cs;
     cs_parent := cs_parent cs; cs_current_power := q |}.

Record GridConnector := {
  cur_max_power : option Q;
  current_loads : gmap string Q;
  target : option Q;
}.

(** [GridConnector.add_load], as in [netz_elog/constants.py]: the new
    connector and the returned value. *)
Definition add_load (key : string) (value : Q) (gc : GridConnector)
    : GridConnector * Q :=
  let new :=
    match current_loads gc !! key with
    | Some old => (old + value)%Q
    | None => value
    end in
  ({| cur_max_power := cur_max_power gc;
      current_loads := <[key := new]> (current_loads gc);
      target := target gc |}, new).

(** [GridConnector.get_current_load]: the sum of the current loads. *)
Definition sum_loads (loads : gmap string Q) : Q :=
  map_fold (fun _ value acc => (acc + value)%Q) 0%Q loads.

Definition get_current_load (gc : GridConnector) : Q :=
  sum_loads (current_loads gc).

(** [GridConnector.get_external_load], as in [netz_elog/constants.py]:
    the sum of the current loads whose key is not in [exclude]. *)
Definition get_external_load (exclude : list string) (gc : GridConnector) : Q :=
  map_fold (fun key value external_load =>
              if bool_decide (key ∈ exclude) then external_load
              else (external_load + value)%Q)
           0%Q (current_loads gc).

(** What [Battery.load] and [Battery.unload] return. *)
Record Outcome := {
  avg_power : Q;
  soc_delta : Q;
}.

(** The code outside [schedule.py] that the strategy calls.
    [battery_load b timedelta max_power target_soc target_power] is
    [b.load(timedelta, max_power=..., target_soc=..., target_power=...)]
    ([target_soc] defaults to 1) and gives the battery after the call with
    the returned dictionary; likewise [battery_unload] ([target_soc]
    defaults to 0). *)
Record Externals := {
  EPS : Q;
  clamp_power : Q -> Vehicle -> ChargingStation -> Q;
  battery_load : Battery -> Z -> option Q -> Q -> option Q -> Battery * Outcome;
  battery_unload : Battery -> Z -> option Q -> Q -> option Q -> Battery * Outcome;
}.

(** Modelled from the spec: [Battery.load] and [Battery.unload] of
    [spice_ev/battery.py], which is not among the sources. "load/unload
    operations advance SOC over a duration given a target power or target
    SOC, respecting the charging curve and never pushing SOC outside
    [0,1] (or below discharge_limit during V2G)": the two operations
    change nothing but the SOC, they keep an SOC that is within [0, 1]
    within [0, 1], unloading does not raise the SOC and does not take it
    below the smaller of the given floor and the SOC it starts from, and
    the average power is between zero and the power asked for. *)
Record BatteryContract (X : Externals) : Prop := {
  load_changes_soc_only : forall b dt mp ts tp,
    set_soc (soc b) (battery_load X b dt mp ts tp).1 = b;
  unload_changes_soc_only : forall b dt mp ts tp,
    set_soc (soc b) (battery_unload X b dt mp ts tp).1 = b;
  load_soc_range : forall b dt mp ts tp,
    (0 <= soc b <= 1 -> 0 <= soc (battery_load X b dt mp ts tp).1 <= 1)%Q;
  unload_soc_range : forall b dt mp ts tp,
    (0 <= soc b <= 1 -> 0 <= soc (battery_unload X b dt mp ts tp).1 <= 1)%Q;
  unload_soc_floor : forall b dt mp ts tp,
    (Qmin (soc b) ts <= soc (battery_unload X b dt mp ts tp).1 <= soc b)%Q;
  load_power_bounds : forall b dt p ts,
    (0 <= avg_power (battery_load X b dt (Some p) ts None).2 <= Qmax 0 p)%Q;
  unload_power_bounds : forall b dt p ts,
    (0 <= avg_power (battery_unload X b dt None ts (Some p)).2 <= Qmax 0 p)%Q;
}.

Record WorldState := {
  grid_connectors : gmap string GridConnector;
  charging_stations : gmap string ChargingStation;
  vehicles : gmap string Vehicle;
  batteries : gmap string Battery;
}.

(** The attributes of the [Schedule] object that the functions below
    use. *)
Record ScheduleState := {
  world_state : WorldState;
  current_time : Z;
  interval : Z;
  ITERATIONS : nat;
  warn_core_standing_time : bool;
  charge_window : list bool;
  extra_energy_per_vehicle : gmap string Q;
}.

(** [2 ^ n], and a width halved [n] times. *)
Fixpoint pow2 (n : nat) : Q :=
  match n with
  | O => 1
  | S n => 2 * pow2 n
  end.

Fixpoint halved (n : nat) (w : Q) : Q :=
  match n with
  | O => w
  | S n => halved n w / 2
  end.

Section Functions.

Variable X : Externals.

(** ** [sim_balanced_charging] *)

(** The local variables of the search loop, and the vehicle whose battery
    the loop loads and resets. *)
Record Search := {
  s_idx : nat;
  s_safe : bool;
  s_min_power : Q;
  s_max_power : Q;
  s_power : Q;
  s_charged_soc : Q;
  s_vehicle : Vehicle;
}.

(** [(idx < self.ITERATIONS or not safe) and max_power - min_power > self.EPS] *)
Definition search_continues (iterations : nat) (st : Search) : bool :=
  ((s_idx st <? iterations)%nat || negb (s_safe st))
  && Qlt_bool (EPS X) (s_max_power st - s_min_power st).

(** The body of the [while] loop. *)
Definition search_step (dt : Z) (delta_soc old_soc : Q) (st : Search) : Search :=
  let power := ((s_max_power st + s_min_power st) / 2)%Q in
  let loaded := battery_load X (battery (s_vehicle st)) dt None 1 (Some power) in
  let charged_soc := soc_delta loaded.2 in
  let vehicle := set_battery (set_soc old_soc loaded.1) (s_vehicle st) in
  if Qlt_bool (EPS X) (delta_soc - charged_soc) then
    {| s_idx := S (s_idx st); s_safe := false;
       s_min_power := power; s_max_power := s_max_power st;
       s_power := power; s_charged_soc := charged_soc; s_vehicle := vehicle |}
  else
    {| s_idx := S (s_idx st); s_safe := true;
       s_min_power := s_min_power st; s_max_power := power;
       s_power := power; s_charged_soc := charged_soc; s_vehicle := vehicle |}.

(** The [while] loop; [None] when [fuel] iterations were not enough. *)
Fixpoint search_loop (iterations : nat) (dt : Z) (delta_soc old_soc : Q)
    (fuel : nat) (st : Search) : option Search :=
  if search_continues iterations st then
    match fuel with
    | O => None
    | S fuel' =>
        search_loop iterations dt delta_soc old_soc fuel'
          (search_step dt delta_soc old_soc st)
    end
  else Some st.

(** The returned dictionary. *)
Record Balanced := {
  opt_power : Q;
  charged_soc : Q;
}.

(** The state in which the loop is entered. *)
Definition search_start (vehicle : Vehicle) (cs : ChargingStation)
    (max_power : Q) : Search :=
  let min_power := Qmax (vt_min_charging_power (vehicle_type vehicle)) (cs_min_power cs) in
  let max_power := Qmin max_power (charging_curve_max_power (vehicle_type vehicle)) in
  let max_power := clamp_power X max_power vehicle cs in
  {| s_idx := 0; s_safe := false;
     s_min_power := min_power; s_max_power := max_power;
     s_power := 0; s_charged_soc := 0; s_vehicle := vehicle |}.

(** [Schedule.sim_balanced_charging]. The outer [option] is [None] when
    the fuel ran out; the Python function returns [None] for a vehicle
    that is not connected and a dictionary otherwise. The vehicle is
    returned as the call leaves it. *)
Definition sim_balanced_charging (self : ScheduleState) (fuel : nat)
    (vehicle : Vehicle) (dt : Z) (max_power : Q) (delta_soc : option Q)
    : option (result (option Balanced * Vehicle)) :=
  match connected_charging_station vehicle with
  | None => Some (Ok (None, vehicle))
  | Some cs_id =>
      match charging_stations (world_state self) !! cs_id with
      | None => Some (Raise KeyError)
      | Some cs =>
          let delta_soc := default (get_delta_soc vehicle) delta_soc in
          if Qlt_bool (EPS X) delta_soc then
            let old_soc := soc (battery vehicle) in
            match search_loop (ITERATIONS self) dt delta_soc old_soc fuel
                    (search_start vehicle cs max_power) with
            | None => None
            | Some st =>
                Some (Ok (Some {| opt_power := s_power st;
                                  charged_soc := s_charged_soc st |},
                          s_vehicle st))
            end
          else
            Some (Ok (Some {| opt_power := 0; charged_soc := 0 |}, vehicle))
      end
  end.

(** The SOC that a constant [power] over [dt] adds to a battery: what
    one round of the search simulates. *)
Definition simulated_charge (b : Battery) (dt : Z) (power : Q) : Q :=
  soc_delta (battery_load X b dt None 1 (Some power)).2.

(** What holds of the local variables whenever the loop condition is
    evaluated, for a search that started on the interval [min0, max0]
    wider than the tolerance: the vehicle is as it was, the interval was
    halved [idx] times and lies within [min0, max0], its upper end is
    [max0] or a power found sufficient, its lower end is [min0] or a power
    found insufficient, the last round is recorded, and there were no
    more rounds than halvings needed to reach the tolerance. *)
Record search_invariant (dt : Z) (delta_soc : Q) (vehicle : Vehicle)
    (min0 max0 : Q) (st : Search) : Prop := {
  inv_vehicle : s_vehicle st = vehicle;
  inv_width :
    (s_max_power st - s_min_power st == halved (s_idx st) (max0 - min0))%Q;
  inv_bounds :
    (min0 <= s_min_power st /\ s_min_power st <= s_max_power st
     /\ s_max_power st <= max0)%Q;
  inv_max :
    s_max_power st = max0
    \/ (delta_soc - simulated_charge (battery vehicle) dt (s_max_power st)
        <= EPS X)%Q;
  inv_min :
    s_min_power st = min0
    \/ (EPS X
        < delta_soc - simulated_charge (battery vehicle) dt (s_min_power st))%Q;
  inv_last :
    s_idx st = 0%nat
    \/ (s_charged_soc st = simulated_charge (battery vehicle) dt (s_power st)
        /\ ((s_safe st = true /\ s_power st = s_max_power st
             /\ (delta_soc - s_charged_soc st <= EPS X)%Q)
            \/ (s_safe st = false /\ s_power st = s_min_power st
                /\ (EPS X < delta_soc - s_charged_soc st)%Q)));
  inv_count :
    forall k, (max0 - min0 <= EPS X * pow2 k)%Q -> (s_idx st <= k)%nat;
}.

(** ** The hypothetical charge of [evaluate_core_standing_time_ahead] *)

(** One round of the loop [for vehicle_id, vehicle in vehicles.items()]
    that fills [extra_energy_per_vehicle]: the vehicle after the round
    and the entry made for it ([None] after the [continue]). *)
Definition estimate_extra_energy_of (self : ScheduleState)
    (TS_to_charge_vehicles : Z) (vehicle : Vehicle)
    : result (Vehicle * option Q) :=
  match connected_charging_station vehicle with
  | None =>
      if warn_core_standing_time self then Ok (vehicle, None)
      else Raise NotAvailable
  | Some cs_id =>
      cs ← getitem (charging_stations (world_state self)) cs_id;
      let max_charging_power :=
        Qmin (charging_curve_max_power (vehicle_type vehicle)) (cs_max_power cs) in
      let old_soc := soc (battery vehicle) in
      let loaded :=
        battery_load X (battery vehicle) (TS_to_charge_vehicles * interval self)
          (Some max_charging_power) (desired_soc vehicle) None in
      let vehicle := set_battery loaded.1 vehicle in
      let delta_soc := get_delta_soc vehicle in
      let extra := if Qlt_bool (EPS X) delta_soc then delta_soc else 0%Q in
      Ok (set_battery_soc old_soc vehicle, Some extra)
  end.

(** The whole loop over [vehicles.items()]. *)
Fixpoint estimate_extra_energy_loop (self : ScheduleState)
    (TS_to_charge_vehicles : Z) (items : list (string * Vehicle))
    (vehicles : gmap string Vehicle) (extra : gmap string Q)
    : result (gmap string Vehicle * gmap string Q) :=
  match items with
  | [] => Ok (vehicles, extra)
  | (vehicle_id, vehicle) :: rest =>
      r ← estimate_extra_energy_of self TS_to_charge_vehicles vehicle;
      estimate_extra_energy_loop self TS_to_charge_vehicles rest
        (<[vehicle_id := r.1]> vehicles)
        (match r.2 with
         | Some e => <[vehicle_id := e]> extra
         | None => extra
         end)
  end.

Definition estimate_extra_energy (self : ScheduleState)
    (TS_to_charge_vehicles : Z)
    : result (gmap string Vehicle * gmap string Q) :=
  estimate_extra_energy_loop self TS_to_charge_vehicles
    (map_to_list (vehicles (world_state self)))
    (vehicles (world_state self)) ∅.

(** ** [utilize_stationary_batteries] *)

(** One round of the loop over [batteries.items()]: the battery and its
    connector after the round, and the power given to [add_load]
    ([None] after the [continue]). *)
Definition utilize_battery (self : ScheduleState) (bid : string)
    (battery : Battery) (gc : GridConnector)
    : result (Battery * GridConnector * option Q) :=
  match target gc with
  | None => Ok (battery, gc, None)
  | Some target =>
      let current_load := get_current_load gc in
      let needed_power := (target - current_load)%Q in
      match cur_max_power gc with
      | None => Raise TypeError
      | Some cur_max_power =>
          let avail_pos_power := (cur_max_power - current_load)%Q in
          let avail_neg_power := (cur_max_power + current_load)%Q in
          let '(battery', bat_power) :=
            if Qlt_bool needed_power (- EPS X) then
              let power := (- needed_power)%Q in
              let power := Qmin power avail_neg_power in
              let unloaded :=
                battery_unload X battery (interval self) None 0 (Some power) in
              (unloaded.1, (- avg_power unloaded.2)%Q)
            else if Qlt_bool (EPS X) needed_power then
              let power := needed_power in
              let power := Qmin power avail_pos_power in
              let power :=
                if Qlt_bool power (min_charging_power battery) then 0%Q
                else power in
              let loaded :=
                battery_load X battery (interval self) (Some power) 1 None in
              (loaded.1, avg_power loaded.2)
            else (battery, 0%Q) in
          Ok (battery', (add_load bid bat_power gc).1, Some bat_power)
      end
  end.

Definition set_connector (id : string) (gc : GridConnector) (w : WorldState) :=
  {| grid_connectors := <[id := gc]> (grid_connectors w);
     charging_stations := charging_stations w;
     vehicles := vehicles w; batteries := batteries w |}.

Definition set_stationary_battery (id : string) (b : Battery) (w : WorldState) :=
  {| grid_connectors := grid_connectors w;
     charging_stations := charging_stations w;
     vehicles := vehicles w; batteries := <[id := b]> (batteries w) |}.

(** The loop over [batteries.items()]. *)
Fixpoint utilize_loop (self : ScheduleState)
    (items : list (string * Battery)) (w : WorldState) : result WorldState :=
  match items with
  | [] => Ok w
  | (bid, battery) :: rest =>
      let gc_id := parent battery in
      gc ← getitem (grid_connectors w) gc_id;
      r ← utilize_battery self bid battery gc;
      utilize_loop self rest
        (set_connector gc_id r.1.2 (set_stationary_battery bid r.1.1 w))
  end.

(** A connector [gc'] that has the limit and the target of [gc] and a
    load that is beyond the limit, on either side, by no more than the
    load of [gc] is; a connector without target is the same. *)
Definition kept_within_limit (gc gc' : GridConnector) : Prop :=
  cur_max_power gc' = cur_max_power gc
  /\ target gc' = target gc
  /\ (forall M, cur_max_power gc = Some M ->
        (Qmin (get_current_load gc) (- M) <= get_current_load gc'
         <= Qmax (get_current_load gc) M)%Q)
  /\ (target gc = None -> gc' = gc).

(** [Schedule.utilize_stationary_batteries]. *)
Definition utilize_stationary_batteries (self : ScheduleState)
    : result WorldState :=
  utilize_loop self (map_to_list (batteries (world_state self)))
    (world_state self).

(** ** [charge_vehicles_during_core_standing_time_v2g] *)

(** A loop [while hi - lo > self.EPS: mid = ...; ...; lo = mid] or
    [hi = mid]: [body] runs the rest of a round on the state [s] and
    tells whether the lower end moves up; [last] is the variable that holds
    the midpoint, which outlives the loop. [None] when the fuel ran out. *)
Fixpoint bisect {S : Type} (mid : Q -> Q -> Q) (body : Q -> S -> result (bool * S))
    (fuel : nat) (lo hi : Q) (last : option Q) (s : S)
    : option (result (Q * Q * option Q * S)) :=
  if Qlt_bool (EPS X) (hi - lo) then
    match fuel with
    | O => None
    | S fuel' =>
        let m := mid lo hi in
        match body m s with
        | Raise e => Some (Raise e)
        | Ok (up, s') =>
            if up then bisect mid body fuel' m hi (Some m) s'
            else bisect mid body fuel' lo m (Some m) s'
        end
    end
  else Some (Ok (lo, hi, last, s)).

(** The loop [for w in self.charge_window] that collects the connected
    timesteps and counts the window changes. [None] for the departure
    is a comparison with [None]. *)
Fixpoint connected_steps (etd interval cur_time : Z) (window : bool)
    (window_change : nat) (charge_window : list bool) (connected : list bool)
    : list bool * nat :=
  match charge_window with
  | [] => (connected, window_change)
  | w :: rest =>
      let cur_time := (cur_time + interval)%Z in
      if decide (etd < cur_time)%Z then (connected, window_change)
      else
        let '(window_change, window) :=
          if Bool.eqb w window then (window_change, window)
          else (S window_change, negb window) in
        connected_steps etd interval cur_time window window_change rest
          (connected ++ [w])
  end.

(** [self.charge_window.index(not charge_now)], or the length on
    [ValueError]. *)
Fixpoint index_of (b : bool) (l : list bool) : option nat :=
  match l with
  | [] => None
  | x :: rest => if Bool.eqb x b then Some 0%nat else S <$> index_of b rest
  end.

Definition duration_of_current_window (charge_now : bool)
    (charge_window : list bool) : nat :=
  default (length charge_window) (index_of (negb charge_now) charge_window).

(** The loop [for charge_TS in connected_timesteps] of the search for
    the discharge limit. *)
Fixpoint simulate_connected (interval : Z) (gc : GridConnector)
    (cs : ChargingStation) (max_discharge_power discharge_limit : Q)
    (steps : list bool) (sim_vehicle : Vehicle) : result Vehicle :=
  match steps with
  | [] => Ok sim_vehicle
  | charge_TS :: rest =>
      sim_vehicle ←
        (if charge_TS then
           match cur_max_power gc with
           | None => Raise TypeError
           | Some cur_max_power =>
               let power := clamp_power X cur_max_power sim_vehicle cs in
               Ok (set_battery
                     (battery_load X (battery sim_vehicle) interval
                        (Some power) 1 None).1 sim_vehicle)
           end
         else
           let power := Qmin (cs_max_power cs) max_discharge_power in
           Ok (set_battery
                 (battery_unload X (battery sim_vehicle) interval
                    (Some power) discharge_limit None).1 sim_vehicle));
      simulate_connected interval gc cs max_discharge_power discharge_limit
        rest sim_vehicle
  end.

(** One round of the search for the discharge limit, after the midpoint
    was taken. *)
Definition discharge_limit_round (interval : Z) (gc : GridConnector)
    (cs : ChargingStation) (max_discharge_power old_soc : Q)
    (connected_timesteps : list bool) (discharge_limit : Q)
    (sim_vehicle : Vehicle) : result (bool * Vehicle) :=
  sim_vehicle ← simulate_connected interval gc cs max_discharge_power
                   discharge_limit connected_timesteps sim_vehicle;
  Ok (Qle_bool (soc (battery sim_vehicle)) (desired_soc sim_vehicle - EPS X),
      set_battery_soc old_soc sim_vehicle).

(** The loop [for _ in range(duration_current_window)] of the search
    for the power, with its two [break]s. For a discharge
    [discharge_limit] is the limit found before. *)
Fixpoint simulate_window (interval : Z) (cs : ChargingStation)
    (charge_now : bool) (max_discharge_power total_power discharge_limit
     desired_soc : Q) (rounds : nat) (sufficiently_charged : bool)
    (sim_vehicle : Vehicle) : bool * Vehicle :=
  match rounds with
  | O => (sufficiently_charged, sim_vehicle)
  | S rounds' =>
      let sim_vehicle :=
        if Qlt_bool 0 total_power then
          if charge_now then
            let power := clamp_power X total_power sim_vehicle cs in
            set_battery
              (battery_load X (battery sim_vehicle) interval (Some power) 1 None).1
              sim_vehicle
          else
            let power := clamp_power X total_power sim_vehicle cs in
            let power := Qmin power max_discharge_power in
            set_battery
              (battery_unload X (battery sim_vehicle) interval (Some power)
                 discharge_limit None).1 sim_vehicle
        else sim_vehicle in
      if charge_now then
        if Qle_bool desired_soc (soc (battery sim_vehicle))
        then (true, sim_vehicle)
        else simulate_window interval cs charge_now max_discharge_power
               total_power discharge_limit desired_soc rounds'
               sufficiently_charged sim_vehicle
      else
        if Qlt_bool (soc (battery sim_vehicle)) (discharge_limit + EPS X)
        then (false, sim_vehicle)
        else simulate_window interval cs charge_now max_discharge_power
               total_power discharge_limit desired_soc rounds'
               sufficiently_charged sim_vehicle
  end.

(** One round of the search for the power, after the midpoint was
    taken. *)
Definition power_round (interval : Z) (cs : ChargingStation)
    (charge_now : bool) (max_discharge_power old_soc discharge_limit
     desired_soc : Q) (duration_current_window : nat) (total_power : Q)
    (sim_vehicle : Vehicle) : result (bool * Vehicle) :=
  let sufficiently_charged :=
    Qle_bool desired_soc (soc (battery sim_vehicle)) in
  let sim_vehicle := set_battery_soc old_soc sim_vehicle in
  let '(sufficiently_charged, sim_vehicle) :=
    simulate_window interval cs charge_now max_discharge_power total_power
      discharge_limit desired_soc duration_current_window
      sufficiently_charged sim_vehicle in
  Ok (if charge_now then negb sufficiently_charged else sufficiently_charged,
      sim_vehicle).

(** What the pass does with one vehicle. *)
Inductive V2GAction :=
| Skipped                                   (* [continue] *)
| Charged (vehicle : Vehicle) (charge : Q)
| Discharged (vehicle : Vehicle) (discharge : Q).

(** The body of [for vehicle, vehicle_id in vehicles], for a vehicle
    without power issues, up to the calls of [add_load]. [discharge_limit]
    is the local variable as the previous vehicles left it ([None]: not
    assigned yet). *)
Definition v2g_vehicle (self : ScheduleState) (fuel : nat)
    (gc : GridConnector) (charge_now : bool) (discharge_limit : option Q)
    (vehicle : Vehicle)
    : option (result (option Q * V2GAction)) :=
  match connected_charging_station vehicle with
  | None => Some (Raise KeyError)
  | Some cs_id =>
  match charging_stations (world_state self) !! cs_id with
  | None => Some (Raise KeyError)
  | Some cs =>
  let sim_vehicle := vehicle in
  let cur_time := (current_time self - interval self)%Z in
  let max_discharge_power := unloading_curve_max_power (battery sim_vehicle) in
  let old_soc := soc (battery vehicle) in
  match estimated_time_of_departure sim_vehicle with
  | None => Some (Raise TypeError)
  | Some etd =>
  let '(connected_timesteps, window_change) :=
    connected_steps etd (interval self) cur_time charge_now 0
      (charge_window self) [] in
  let duration_current_window :=
    duration_of_current_window charge_now (charge_window self) in
  (* the discharge limit *)
  match
    (if negb charge_now && (1 <=? window_change)%nat then
       match bisect (fun min_soc max_soc => (max_soc + min_soc) / 2)%Q
               (discharge_limit_round (interval self) gc cs
                  max_discharge_power old_soc connected_timesteps)
               fuel (vt_discharge_limit (vehicle_type vehicle)) 1
               discharge_limit sim_vehicle with
       | None => None
       | Some (Raise e) => Some (Raise e)
       | Some (Ok (_, _, discharge_limit, sim_vehicle)) =>
           Some (Ok (discharge_limit, sim_vehicle))
       end
     else if negb charge_now && (window_change =? 0)%nat then
       Some (Ok (Some (desired_soc sim_vehicle), sim_vehicle))
     else Some (Ok (discharge_limit, sim_vehicle)))
  with
  | None => None
  | Some (Raise e) => Some (Raise e)
  | Some (Ok (discharge_limit, sim_vehicle)) =>
  match (if charge_now then Ok 0%Q
         else match discharge_limit with
              | None => Raise UnboundLocalError
              | Some limit => Ok limit
              end) with
  | Raise e => Some (Raise e)
  | Ok limit =>
  if negb charge_now && Qle_bool (soc (battery sim_vehicle)) limit
  then Some (Ok (discharge_limit, Skipped))
  else
  (* the power to charge or discharge *)
  match target gc with
  | None => Some (Raise TypeError)
  | Some target =>
  let min_power := 0%Q in
  let max_power :=
    if charge_now then Qmax 0 (target - get_current_load gc)
    else Qmax 0 (Qabs (target - get_current_load gc)) in
  let max_power := Qmin (cs_max_power cs) max_power in
  let desired :=
    if charge_now
    then (if (window_change =? 0)%nat then desired_soc vehicle else 1%Q)
    else (if (window_change =? 0)%nat then desired_soc vehicle else limit) in
  match bisect (fun min_power max_power => (min_power + max_power) / 2)%Q
          (power_round (interval self) cs charge_now max_discharge_power
             old_soc limit desired duration_current_window)
          fuel min_power max_power (Some 0%Q) sim_vehicle with
  | None => None
  | Some (Raise e) => Some (Raise e)
  | Some (Ok (_, _, total_power, _)) =>
      let total_power := default 0%Q total_power in
      (* apply power *)
      if charge_now then
        if Qle_bool total_power 0 then
          Some (Ok (discharge_limit, Charged vehicle 0))
        else
          let power := clamp_power X total_power vehicle cs in
          let loaded :=
            battery_load X (battery vehicle) (interval self) (Some power) 1 None in
          Some (Ok (discharge_limit,
                    Charged (set_battery loaded.1 vehicle) (avg_power loaded.2)))
      else
        if Qle_bool total_power 0 then
          Some (Ok (discharge_limit, Discharged vehicle 0))
        else
          let power := clamp_power X total_power vehicle cs in
          let power := Qmin power max_discharge_power in
          let unloaded :=
            battery_unload X (battery vehicle) (interval self) (Some power)
              limit None in
          Some (Ok (discharge_limit,
                    Discharged (set_battery unloaded.1 vehicle)
                      (avg_power unloaded.2)))
  end end end end end end end.

End Functions.

End Schedule.

(** Concrete components used to run the Schedule strategy. *)
Module ScheduleExamples.
Import Schedule.

(** Hours in a [timedelta]. *)
Definition hours (dt : Z) : Q := inject_Z dt / inject_Z 3600000000.

Definition hour : Z := 3600000000.

(** A battery with a flat charging curve: it takes the power asked for,
    limited by its curve, until it reaches the target SOC. *)
Definition linear_load (b : Battery) (dt : Z) (max_power : option Q)
    (target_soc : Q) (target_power : option Q) : Battery * Outcome :=
  let power :=
    match target_power with
    | Some p => p
    | None => default (loading_curve_max_power b) max_power
    end in
  let power := Qmax 0 (Qmin power (loading_curve_max_power b)) in
  let room := Qmax 0 (Qmin target_soc 1 - soc b) in
  let delta := Qmax 0 (Qmin (power * hours dt * efficiency b / capacity b) room) in
  (set_soc (soc b + delta) b,
   {| avg_power :=
        Qmax 0 (Qmin power (delta * capacity b / (efficiency b * hours dt)));
      soc_delta := delta |}).

(** The same battery giving power back, down to the target SOC. *)
Definition linear_unload (b : Battery) (dt : Z) (max_power : option Q)
    (target_soc : Q) (target_power : option Q) : Battery * Outcome :=
  let power :=
    match target_power with
    | Some p => p
    | None => default (unloading_curve_max_power b) max_power
    end in
  let power := Qmax 0 (Qmin power (unloading_curve_max_power b)) in
  let room := Qmax 0 (soc b - Qmax target_soc 0) in
  let delta := Qmax 0 (Qmin (power * hours dt / (efficiency b * capacity b)) room) in
  (set_soc (soc b - delta) b,
   {| avg_power :=
        Qmax 0 (Qmin power (delta * capacity b * efficiency b / hours dt));
      soc_delta := delta |}).

(** A power is cut to what the station has left and dropped when it is
    below the minimum of the station or of the vehicle. *)
Definition station_clamp (power : Q) (vehicle : Vehicle) (cs : ChargingStation) : Q :=
  let power := Qmin power (cs_max_power cs - cs_current_power cs) in
  if Qlt_bool power (cs_min_power cs) then 0
  else if Qlt_bool power (vt_min_charging_power (vehicle_type vehicle)) then 0
  else power.

(** The externals of the examples, with [EPS = 1e-5]. *)
Definition externals : Externals :=
  {| EPS := 1 # 100000;
     clamp_power := station_clamp;
     battery_load := linear_load;
     battery_unload := linear_unload |}.

Definition car_type : VehicleType :=
  {| vt_min_charging_power := 0; charging_curve_max_power := 11 # 1;
     v2g := true; vt_discharge_limit := 1 # 2 |}.

(** A 40 kWh battery at SOC 0.5. *)
Definition car_battery : Battery :=
  {| capacity := 40 # 1; soc := 1 # 2; efficiency := 1;
     loading_curve_max_power := 11 # 1; unloading_curve_max_power := 11 # 1;
     min_charging_power := 0; parent := "" |}.

(** A connected car at SOC 0.5 that wants 0.8. *)
Definition car : Vehicle :=
  {| vehicle_type := car_type; connected_charging_station := Some "CS1";
     estimated_time_of_departure := Some (8 * hour)%Z;
     desired_soc := 8 # 10; battery := car_battery |}.

Definition station : ChargingStation :=
  {| cs_max_power := 11 # 1; cs_min_power := 0; cs_parent := "GC1";
     cs_current_power := 0 |}.

(** A connector limited to 100 kW that draws 30 kW for a building and
    has a schedule target of 50 kW. *)
Definition connector : GridConnector :=
  {| cur_max_power := Some (100 # 1);
     current_loads := {[ "building" := 30 # 1 ]};
     target := Some (50 # 1) |}.

(** A stationary 100 kWh battery, half full, that takes no less than
    5 kW. *)
Definition storage : Battery :=
  {| capacity := 100 # 1; soc := 1 # 2; efficiency := 1;
     loading_curve_max_power := 50 # 1; unloading_curve_max_power := 50 # 1;
     min_charging_power := 5 # 1; parent := "GC1" |}.

Definition world : WorldState :=
  {| grid_connectors := {[ "GC1" := connector ]};
     charging_stations := {[ "CS1" := station ]};
     vehicles := {[ "V1" := car ]};
     batteries := {[ "BAT1" := storage ]} |}.

Definition schedule : ScheduleState :=
  {| world_state := world; current_time := 0; interval := hour / 4;
     ITERATIONS := 12; warn_core_standing_time := false;
     charge_window := [false; false; false; false];
     extra_energy_per_vehicle := {[ "V1" := 0%Q ]} |}.

End ScheduleExamples.

(* ===================================================================== *)
(** * schedule.py outside the core standing time: [charge_vehicles] and
      [charge_vehicles_after_core_standing_time] *)
(* ===================================================================== *)

Module ScheduleCharging.
Import Schedule.

Open Scope Q_scope.

(** The exceptions of the functions below: those of the functions they
    call, [list(...)[0]] on an empty list, a division by an interval of
    no length and the assertion ["No schedule for GC ..."]. *)
Inductive Failure :=
| Raised (e : Fatal)
| IndexError
| ZeroDivisionError
| NoScheduleForGC (gc_id : string).

Inductive outcome (A : Type) :=
| Returned (a : A)
| Failed (e : Failure).
Arguments Returned {A} a.
Arguments Failed {A} e.

(** [d[key]], as an [outcome]. *)
Definition item {A : Type} (d : gmap string A) (key : string) : outcome A :=
  match d !! key with
  | Some a => Returned a
  | None => Failed (Raised KeyError)
  end.

Definition set_world_state (w : WorldState) (self : ScheduleState) : ScheduleState :=
  {| world_state := w; current_time := current_time self;
     interval := interval self; ITERATIONS := ITERATIONS self;
     warn_core_standing_time := warn_core_standing_time self;
     charge_window := charge_window self;
     extra_energy_per_vehicle := extra_energy_per_vehicle self |}.

(** The world after
    [charging_stations[cs_id] = cs.current_power = gc.add_load(cs_id, avg_power)]
    for a vehicle whose battery is now [b]. *)
Definition charged_world (vehicle_id cs_id gc_id : string) (b : Battery)
    (vehicle : Vehicle) (cs : ChargingStation) (gc : GridConnector)
    (avg_power : Q) (w : WorldState) : WorldState :=
  {| grid_connectors := <[gc_id := (add_load cs_id avg_power gc).1]> (grid_connectors w);
     charging_stations :=
       <[cs_id := set_current_power (add_load cs_id avg_power gc).2 cs]>
         (charging_stations w);
     vehicles := <[vehicle_id := set_battery b vehicle]> (vehicles w);
     batteries := batteries w |}.

(** [power_needed]: one entry per connected vehicle, in the order of
    [vehicle_ids]. *)
Definition power_needed (w : WorldState) (vehicle_ids : list string) : list Q :=
  omap (fun vehicle_id =>
          vehicle ← vehicles w !! vehicle_id;
          match connected_charging_station vehicle with
          | None => None
          | Some _ =>
              Some ((desired_soc vehicle - soc (battery vehicle))
                    * capacity (battery vehicle))
          end)
       vehicle_ids.

(** Python's [sum] of a list of numbers. *)
Definition sum (l : list Q) : Q := foldl Qplus 0 l.

(** [sorted(vehicles, key=...)] for keys computed beforehand; the sort is
    stable. *)
Fixpoint insert_by_key {A : Type} (x : Q * A) (l : list (Q * A)) : list (Q * A) :=
  match l with
  | [] => [x]
  | y :: rest =>
      if Qle_bool x.1 y.1 then x :: y :: rest else y :: insert_by_key x rest
  end.

Definition sort_by_key {A : Type} (l : list (Q * A)) : list (Q * A) :=
  foldr insert_by_key [] l.

Section Functions.

Variable X : Externals.

(** ** [charge_vehicles_after_core_standing_time] *)

(** The body of the second loop over the vehicles; [gc_id] names the one
    grid connector. The outer [option] is [None] when the fuel of the
    balanced search ran out. *)
Definition charge_balanced (self : ScheduleState) (fuel : nat) (gc_id : string)
    (st : WorldState * gmap string Q) (vehicle_id : string)
    : option (outcome (WorldState * gmap string Q)) :=
  let '(w, charging_stations_) := st in
  match vehicles w !! vehicle_id with
  | None => Some (Failed (Raised KeyError))
  | Some vehicle =>
      match connected_charging_station vehicle with
      | None => Some (Returned st)
      | Some cs_id =>
          match charging_stations w !! cs_id with
          | None => Some (Failed (Raised KeyError))
          | Some cs =>
              match estimated_time_of_departure vehicle with
              | None => Some (Failed (Raised TypeError))
              | Some departure =>
                  let time_until_departure := (departure - current_time self)%Z in
                  match grid_connectors w !! gc_id with
                  | None => Some (Failed (Raised KeyError))
                  | Some gc =>
                      match cur_max_power gc with
                      | None => Some (Failed (Raised TypeError))
                      | Some cur_max_power =>
                          match sim_balanced_charging X (set_world_state w self) fuel
                                  vehicle time_until_departure
                                  (cur_max_power - get_current_load gc) None with
                          | None => None
                          | Some (Raise e) => Some (Failed (Raised e))
                          | Some (Ok (None, _)) => Some (Failed (Raised TypeError))
                          | Some (Ok (Some balanced, vehicle)) =>
                              let power := opt_power balanced in
                              let power := clamp_power X power vehicle cs in
                              let loaded :=
                                battery_load X (battery vehicle) (interval self)
                                  (Some power) (desired_soc vehicle) None in
                              Some (Returned
                                      (charged_world vehicle_id cs_id gc_id loaded.1
                                         vehicle cs gc (avg_power loaded.2) w,
                                       <[cs_id := (add_load cs_id (avg_power loaded.2) gc).2]>
                                         charging_stations_))
                          end
                      end
                  end
              end
          end
      end
  end.

Fixpoint charge_all_balanced (self : ScheduleState) (fuel : nat) (gc_id : string)
    (st : WorldState * gmap string Q) (vehicle_ids : list string)
    : option (outcome (WorldState * gmap string Q)) :=
  match vehicle_ids with
  | [] => Some (Returned st)
  | vehicle_id :: rest =>
      match charge_balanced self fuel gc_id st vehicle_id with
      | None => None
      | Some (Failed e) => Some (Failed e)
      | Some (Returned st') => charge_all_balanced self fuel gc_id st' rest
      end
  end.

(** [charge_vehicles_after_core_standing_time(charging_stations)], for
    the keys of [world_state.vehicles] in the order of the dictionary.
    The result is the world state, the updated commands and
    [self.overcharge_necessary]. *)
Definition charge_vehicles_after_core_standing_time (self : ScheduleState)
    (fuel : nat) (vehicle_ids : list string)
    (charging_stations_ : gmap string Q) (overcharge_necessary : bool)
    : option (outcome (WorldState * gmap string Q * bool)) :=
  let w := world_state self in
  match map_to_list (grid_connectors w) with
  | [] => Some (Failed IndexError)
  | (gc_id, gc) :: _ =>
      if Qlt_bool (sum (power_needed w vehicle_ids)) (EPS X) then
        Some (Returned (w, charging_stations_, false))
      else
        match cur_max_power gc with
        | None => Some (Failed (Raised TypeError))
        | Some cur_max_power =>
            if Qlt_bool (cur_max_power - get_current_load gc) (EPS X) then
              Some (Returned (w, charging_stations_, overcharge_necessary))
            else
              match charge_all_balanced self fuel gc_id (w, charging_stations_)
                      vehicle_ids with
              | None => None
              | Some (Failed e) => Some (Failed e)
              | Some (Returned (w', commands)) =>
                  Some (Returned (w', commands, overcharge_necessary))
              end
        end
  end.

(** ** [charge_vehicles] *)

(** The first loop: the connected vehicles of every grid connector, as
    pairs of a vehicle id and the id of its charging station. *)
Fixpoint find_vehicles (w : WorldState) (vehicle_ids : list string)
    (vehicles_at_gc : gmap string (list (string * string)))
    : outcome (gmap string (list (string * string))) :=
  match vehicle_ids with
  | [] => Returned vehicles_at_gc
  | vehicle_id :: rest =>
      match vehicles w !! vehicle_id with
      | None => Failed (Raised KeyError)
      | Some vehicle =>
          match connected_charging_station vehicle with
          | None => find_vehicles w rest vehicles_at_gc
          | Some cs_id =>
              match charging_stations w !! cs_id with
              | None => Failed (Raised KeyError)
              | Some cs =>
                  match vehicles_at_gc !! cs_parent cs with
                  | None => Failed (Raised KeyError)
                  | Some found =>
                      find_vehicles w rest
                        (<[cs_parent cs := found ++ [(vehicle_id, cs_id)]]>
                           vehicles_at_gc)
                  end
              end
          end
      end
  end.

(** The body of the loop [for vehicle, cs in vehicles]. *)
Definition charge_surplus (self : ScheduleState) (gc_id : string)
    (st : WorldState * gmap string Q) (entry : string * string)
    : outcome (WorldState * gmap string Q) :=
  let '(w, charging_stations_) := st in
  let '(vehicle_id, cs_id) := entry in
  match vehicles w !! vehicle_id, charging_stations w !! cs_id,
        grid_connectors w !! gc_id with
  | Some vehicle, Some cs, Some gc =>
      let power := Qmax (- get_current_load gc) 0 in
      let power := clamp_power X power vehicle cs in
      let loaded :=
        battery_load X (battery vehicle) (interval self) (Some power)
          (desired_soc vehicle) None in
      Returned (charged_world vehicle_id cs_id gc_id loaded.1 vehicle cs gc
                  (avg_power loaded.2) w,
                <[cs_id := (add_load cs_id (avg_power loaded.2) gc).2]>
                  charging_stations_)
  | _, _, _ => Failed (Raised KeyError)
  end.

Fixpoint charge_all_surplus (self : ScheduleState) (gc_id : string)
    (st : WorldState * gmap string Q) (entries : list (string * string))
    : outcome (WorldState * gmap string Q) :=
  match entries with
  | [] => Returned st
  | entry :: rest =>
      match charge_surplus self gc_id st entry with
      | Failed e => Failed e
      | Returned st' => charge_all_surplus self gc_id st' rest
      end
  end.

(** [self.sort_key] of an entry. *)
Definition sort_key (w : WorldState) (entry : string * string) : Q :=
  match vehicles w !! entry.1 with
  | Some vehicle => get_delta_soc vehicle * capacity (battery vehicle)
  | None => 0
  end.

(** The body of the loop [for gc_id, vehicles in vehicles_at_gc.items()]. *)
Definition charge_at_connector (self : ScheduleState)
    (vehicles_at_gc : gmap string (list (string * string)))
    (st : WorldState * gmap string Q) (gc_id : string)
    : outcome (WorldState * gmap string Q) :=
  let '(w, charging_stations_) := st in
  match vehicles_at_gc !! gc_id, grid_connectors w !! gc_id with
  | Some found, Some gc =>
      match target gc with
      | None => Failed (NoScheduleForGC gc_id)
      | Some target =>
          let sorted :=
            (sort_by_key (map (fun entry => (sort_key w entry, entry)) found)).*2 in
          let total_power := target - get_current_load gc in
          if Qlt_bool total_power (EPS X)
             || Qlt_bool (sum (power_needed w sorted.*1)) (EPS X)
          then Returned st
          else charge_all_surplus self gc_id st sorted
      end
  | _, _ => Failed (Raised KeyError)
  end.

Fixpoint charge_at_connectors (self : ScheduleState)
    (vehicles_at_gc : gmap string (list (string * string)))
    (st : WorldState * gmap string Q) (gc_ids : list string)
    : outcome (WorldState * gmap string Q) :=
  match gc_ids with
  | [] => Returned st
  | gc_id :: rest =>
      match charge_at_connector self vehicles_at_gc st gc_id with
      | Failed e => Failed e
      | Returned st' => charge_at_connectors self vehicles_at_gc st' rest
      end
  end.

(** [charge_vehicles()], for the keys of [world_state.grid_connectors]
    and of [world_state.vehicles] in the order of the two dictionaries:
    the world state after the call and the returned commands. *)
Definition charge_vehicles (self : ScheduleState)
    (gc_ids vehicle_ids : list string)
    : outcome (WorldState * gmap string Q) :=
  let w := world_state self in
  match find_vehicles w vehicle_ids
          (list_to_map (map (fun gc_id => (gc_id, [])) gc_ids)) with
  | Failed e => Failed e
  | Returned vehicles_at_gc =>
      charge_at_connectors self vehicles_at_gc (w, ∅) gc_ids
  end.

End Functions.

(** What the two functions leave of a connector: its limit and target,
    and a load that is at most the larger of what it was and [bound]. *)
Definition load_kept_below (bound : GridConnector -> Q) (gc gc' : GridConnector)
    : Prop :=
  cur_max_power gc' = cur_max_power gc
  /\ target gc' = target gc
  /\ get_current_load gc' <= Qmax (get_current_load gc) (bound gc).

(** A connector whose load moved towards its target without passing it;
    a connector without target is the same. *)
Definition steered (gc gc' : GridConnector) : Prop :=
  cur_max_power gc' = cur_max_power gc
  /\ target gc' = target gc
  /\ match target gc with
     | Some target =>
         Qmin (get_current_load gc) target <= get_current_load gc'
         <= Qmax (get_current_load gc) target
     | None => gc' = gc
     end.

(** A battery that is as it was but for its SOC, which is within [0, 1]
    if it was. *)
Definition battery_kept (b b' : Battery) : Prop :=
  set_soc (soc b) b' = b /\ (0 <= soc b <= 1 -> 0 <= soc b' <= 1).

(** The limit of a connector, or its load when it has no limit. *)
Definition limit_or_load (gc : GridConnector) : Q :=
  default (get_current_load gc) (cur_max_power gc).

(** What the two functions leave of a vehicle: everything but the SOC
    of its battery, and an SOC within [0, 1] if it was. *)
Definition recharged (v v' : Vehicle) : Prop :=
  set_battery_soc (soc (battery v)) v' = v
  /\ (0 <= soc (battery v) <= 1 -> 0 <= soc (battery v') <= 1).

(** The power that [clamp_power] returns is not above the power it is
    given, unless that is negative. *)
Definition clamp_lowers (X : Externals) : Prop :=
  forall power vehicle cs, clamp_power X power vehicle cs <= Qmax 0 power.

End ScheduleCharging.

(* ===================================================================== *)
(** * schedule.py: [collect_future_gc_info] *)
(* ===================================================================== *)

Module Forecast.
Import Schedule.

Open Scope Z_scope.

(** An entry of [gc_info]. *)
Record Info := {
  current_loads : gmap string Q;
  target : option Q;
  charge : bool;
}.

(** What the inner loop does with one event: a grid operator signal
    replaces the target and the window it carries, a local generation is
    entered as a negative load, every other event is passed over. *)
Definition update (info : Info) (event : Events.Event) : Info :=
  match event with
  | Events.GridOperatorSignal g =>
      {| current_loads := current_loads info;
         target :=
           match Events.gos_target g with
           | Some t => Some t
           | None => target info
           end;
         charge := default (charge info) (Events.gos_window g) |}
  | Events.LocalEnergyGeneration e =>
      {| current_loads :=
           <[Events.ev_name e := (- Events.ev_value e)%Q]> (current_loads info);
         target := target info; charge := charge info |}
  | _ => info
  end.

(** The inner [while True] loop, on the events from [event_idx] on: it
    stops at the first event that starts after [cur_time] or at the end
    of the list, and gives the entry and the events that are left. *)
Fixpoint peek (cur_time : Z) (info : Info) (events : list Events.Event)
    : Info * list Events.Event :=
  match events with
  | [] => (info, [])
  | event :: rest =>
      if decide (Events.start_time event > cur_time) then (info, events)
      else peek cur_time (update info event) rest
  end.

Definition set_fixed_load (value : Q) (info : Info) : Info :=
  {| current_loads := <["fixed_load" := value]> (current_loads info);
     target := target info; charge := charge info |}.

Section Functions.

(** [gc.get_avg_fixed_load(cur_time, self.interval)], of
    [spice_ev/components.py]. *)
Variable get_avg_fixed_load : Z -> Z -> Q.

(** [n] rounds of [for timestep_idx in range(timesteps)], entered with
    the entry [last] that the round works on or copies. *)
Fixpoint timesteps_from (interval : Z) (n : nat) (cur_time : Z) (last : Info)
    (events : list Events.Event) : list Info :=
  match n with
  | O => []
  | S n =>
      let cur_time := cur_time + interval in
      let info := set_fixed_load (get_avg_fixed_load cur_time interval) last in
      let peeked := peek cur_time info events in
      peeked.1 :: timesteps_from interval n cur_time peeked.1 peeked.2
  end.

(** [collect_future_gc_info(dt)], for the queue [future_events] of the
    world state. *)
Definition collect_future_gc_info (self : ScheduleState)
    (future_events : list Events.Event) (dt : Z)
    : ScheduleCharging.outcome (list Info) :=
  match map_to_list (grid_connectors (world_state self)) with
  | [] => ScheduleCharging.Failed ScheduleCharging.IndexError
  | (_, gc) :: _ =>
      let first :=
        {| current_loads := ∅; target := Schedule.target gc; charge := false |} in
      if decide (interval self = 0)
      then ScheduleCharging.Failed ScheduleCharging.ZeroDivisionError
      else
        let timesteps := dt / interval self in
        match Z.to_nat timesteps with
        | O => ScheduleCharging.Returned [first]
        | S n =>
            ScheduleCharging.Returned
              (timesteps_from (interval self) (S n)
                 (current_time self - interval self) first future_events)
        end
  end.

End Functions.

(** Two entries that agree but for the load [fixed_load]. *)
Definition same_schedule (a b : Info) : Prop :=
  target a = target b
  /\ charge a = charge b
  /\ forall name, name <> "fixed_load" ->
       current_loads a !! name = current_loads b !! name.

(** The queue in the order [Strategy.step] keeps it in. *)
Definition by_start_time (a b : Events.Event) : Prop :=
  Events.start_time a <= Events.start_time b.

(** ** What an entry is to hold *)

(** The target and the window that a grid operator signal carries, and
    the load that a local generation of the name [name] stands for. *)
Definition signalled_target (event : Events.Event) : option Q :=
  match event with
  | Events.GridOperatorSignal g => Events.gos_target g
  | _ => None
  end.

Definition signalled_window (event : Events.Event) : option bool :=
  match event with
  | Events.GridOperatorSignal g => Events.gos_window g
  | _ => None
  end.

Definition generated (name : string) (event : Events.Event) : option Q :=
  match event with
  | Events.LocalEnergyGeneration e =>
      if decide (Events.ev_name e = name) then Some (- Events.ev_value e)%Q
      else None
  | _ => None
  end.

(** The value that [f] finds in the last event of a list in which it
    finds one. *)
Definition latest {A : Type} (f : Events.Event -> option A)
    (events : list Events.Event) : option A :=
  last (omap f events).

(** The events of a queue that start at or before [time]. *)
Definition started (time : Z) (events : list Events.Event) : list Events.Event :=
  List.filter (fun ev => bool_decide (Events.start_time ev <= time)) events.

End Forecast.

(** A queue for the forecast: a schedule that opens the charging window
    at once with a target of 20 kW, a forecast of 6 kW from the roof after
    half an hour, and a target of 35 kW after an hour. *)
Module ForecastExamples.
Import Events.

Definition schedule_signal (start : Z) (target : option Q) (window : option bool)
    : Event :=
  GridOperatorSignal
    {| gos_signal_time := 0; gos_start_time := start;
       gos_grid_connector_id := "GC1"; gos_max_power := None;
       gos_cost := None; gos_target := target; gos_window := window;
       gos_capacity := None |}.

Definition future_events : list Event :=
  [ schedule_signal 0 (Some (20 # 1)%Q) (Some true);
    LocalEnergyGeneration
      {| ev_signal_time := 0; ev_start_time := (ScheduleExamples.hour / 2)%Z;
         ev_name := "roof"; ev_grid_connector_id := "GC1";
         ev_value := (6 # 1)%Q |};
    schedule_signal ScheduleExamples.hour (Some (35 # 1)%Q) None ].

End ForecastExamples.

(** A world that feeds in: the building takes 5 kW and the roof gives
    12 kW. *)
Module ChargingExamples.
Import Schedule.

Definition sunny_connector : GridConnector :=
  {| cur_max_power := Some (100 # 1)%Q;
     current_loads := {[ "building" := (5 # 1)%Q; "roof" := (- (12 # 1))%Q ]};
     target := Some (50 # 1)%Q |}.

Definition sunny : ScheduleState :=
  ScheduleCharging.set_world_state
    {| grid_connectors := {[ "GC1" := sunny_connector ]};
       charging_stations := charging_stations ScheduleExamples.world;
       vehicles := vehicles ScheduleExamples.world;
       batteries := batteries ScheduleExamples.world |}
    ScheduleExamples.schedule.

End ChargingExamples.

(* ===================================================================== *)
(** * strategy.py: the Greedy strategy *)
(* ===================================================================== *)

Module Greedy.

Open Scope Q_scope.

(** What [Greedy.step] reads of [vehicle.vehicle_type]. *)
Record VehicleType := {
  capacity : Q;
  max_charging_power : Q;
}.

(** The exceptions of [Greedy.step]. *)
Inductive Error :=
| FromStrategyStep (e : Fatal)  (* raised by [super().step(event_list)] *)
| UnknownChargingStation        (* KeyError: charging_stations[charging_station_id] *)
| UnknownGridConnector          (* KeyError: grid_connectors[charging_station.parent] *)
| ZeroDivisionError             (* an interval of no length, a battery of no capacity *)
| NoPowerLimit                  (* TypeError: cur_max_power is None *)
| SocAbove100                   (* assert(vehicle.soc <= 100) *)
| SocBelow0.                    (* assert(vehicle.soc >= 0) *)

Inductive outcome (A : Type) :=
| Done (a : A)
| Failed (e : Error).
Arguments Done {A} a.
Arguments Failed {A} e.

(** An entry of the local dictionary [grid_connectors]. *)
Record Connector := {
  cur_max_power : option Q;
  current_load : Q;
}.

(** What the loop over the vehicles reads and writes: the local
    dictionaries [grid_connectors] and [charging_stations] (the commands)
    and the vehicles of the world state. *)
Record Allocation := {
  grid_connectors : gmap string Connector;
  charging_stations : gmap string Q;
  vehicles : gmap string World.Vehicle;
}.

(** [sorted(...)] on strings. *)
Fixpoint insert_id (id : string) (l : list string) : list string :=
  match l with
  | [] => [id]
  | x :: rest => if String.leb id x then id :: x :: rest else x :: insert_id id rest
  end.

Definition sorted (ids : list string) : list string := foldr insert_id [] ids.

(** [self.interval.total_seconds() / 3600]. *)
Definition hours (interval : Z) : Q := inject_Z interval / 1000000 / 3600.

(** Truth value of [charging_station_id]: [None] and the empty string
    are false. *)
Definition station_truthy (id : option string) : bool :=
  match id with
  | Some s => negb (String.eqb s "")
  | None => false
  end.

Section Step.

(** [vehicle.vehicle_type], by vehicle id; no event assigns it. *)
Variable vehicle_type : string -> VehicleType.

(** The body of [for vehicle_id in sorted(self.world_state.vehicles)].
    [assert(power >= 0, '...')] asserts a non-empty tuple and never
    fails; the two asserts on the SOC have one argument and are checked. *)
Definition charge (interval : Z)
    (stations : gmap string World.ChargingStation)
    (st : Allocation) (vehicle_id : string) : outcome Allocation :=
  match vehicles st !! vehicle_id with
  | None => Failed (FromStrategyStep KeyError)
  | Some vehicle =>
      let delta_soc := World.desired_soc vehicle - World.soc vehicle in
      let charging_station_id := World.connected_charging_station vehicle in
      if Qlt_bool 0 delta_soc && station_truthy charging_station_id then
        let charging_station_id := default "" charging_station_id in
        match stations !! charging_station_id with
        | None => Failed UnknownChargingStation
        | Some charging_station =>
            let energy_needed :=
              delta_soc / 100 * capacity (vehicle_type vehicle_id) in
            if Qeq_bool (hours interval) 0 then Failed ZeroDivisionError
            else
              let power_needed := energy_needed / hours interval in
              match grid_connectors st !! World.cs_parent charging_station with
              | None => Failed UnknownGridConnector
              | Some grid_connector =>
                  match cur_max_power grid_connector with
                  | None => Failed NoPowerLimit
                  | Some limit =>
                      let gc_power_left := limit - current_load grid_connector in
                      let cs_power_left :=
                        World.cs_max_power charging_station
                        - default 0 (charging_stations st !! charging_station_id) in
                      let power :=
                        Qmin (Qmin (Qmin power_needed
                                      (max_charging_power (vehicle_type vehicle_id)))
                                cs_power_left)
                          gc_power_left in
                      if Qeq_bool power 0 then Done st
                      else
                        let commands :=
                          <[charging_station_id :=
                              match charging_stations st !! charging_station_id with
                              | Some commanded => commanded + power
                              | None => power
                              end]> (charging_stations st) in
                        let connectors :=
                          <[World.cs_parent charging_station :=
                              {| cur_max_power := cur_max_power grid_connector;
                                 current_load :=
                                   current_load grid_connector + power |}]>
                            (grid_connectors st) in
                        let energy_kwh := hours interval * power in
                        if Qeq_bool (capacity (vehicle_type vehicle_id)) 0
                        then Failed ZeroDivisionError
                        else
                          let soc_delta :=
                            100 * energy_kwh / capacity (vehicle_type vehicle_id) in
                          let soc := World.soc vehicle + soc_delta in
                          if negb (Qle_bool soc 100) then Failed SocAbove100
                          else if negb (Qle_bool 0 soc) then Failed SocBelow0
                          else
                            Done {| grid_connectors := connectors;
                                    charging_stations := commands;
                                    vehicles :=
                                      <[vehicle_id :=
                                          World.set_soc soc
                                            (World.soc_delta vehicle) vehicle]>
                                        (vehicles st) |}
                  end
              end
        end
      else Done st
  end.

Fixpoint charge_all (interval : Z)
    (stations : gmap string World.ChargingStation)
    (st : Allocation) (vehicle_ids : list string) : outcome Allocation :=
  match vehicle_ids with
  | [] => Done st
  | vehicle_id :: rest =>
      match charge interval stations st vehicle_id with
      | Done st' => charge_all interval stations st' rest
      | Failed e => Failed e
      end
  end.

(** The two local dictionaries before the loop. [gc.cur_max_power] is
    read for every connector; a connector to which no signal has assigned
    it holds [None] here (the class is in [constants.py], which is not
    among the sources). *)
Definition start (w : World.WorldState) : Allocation :=
  {| grid_connectors :=
       (fun gc => {| cur_max_power := World.cur_max_power gc;
                     current_load := Schedule.sum_loads (World.current_loads gc) |})
       <$> World.grid_connectors w;
     charging_stations := ∅;
     vehicles := World.vehicles w |}.

(** [Greedy.step]: the strategy object after the call and the returned
    [commands] (the returned [current_time] is that of the object). *)
Definition step (self : World.Strategy) (event_list : list World.Event)
    : outcome (World.Strategy * gmap string Q) :=
  match Legacy.step self event_list with
  | Raise e => Failed (FromStrategyStep e)
  | Ok self =>
      let w := World.world_state self in
      match charge_all (World.interval self) (World.charging_stations w) (start w)
              (sorted (map fst (map_to_list (World.vehicles w)))) with
      | Failed e => Failed e
      | Done st =>
          Done ({| World.world_state := World.set_vehicles (vehicles st) w;
                   World.current_time := World.current_time self;
                   World.interval := World.interval self;
                   World.margin := World.margin self |},
                charging_stations st)
      end
  end.

End Step.

(** The power commanded at the charging stations of one grid connector. *)
Definition commanded_at (stations : gmap string World.ChargingStation)
    (grid_connector_id : string) (commands : gmap string Q) : Q :=
  map_fold (fun id power total =>
              match stations !! id with
              | Some station =>
                  if String.eqb (World.cs_parent station) grid_connector_id
                  then (total + power)%Q else total
              | None => total
              end)
           0%Q commands.

(** What a command contributes to the power commanded at a connector. *)
Definition share (stations : gmap string World.ChargingStation)
    (grid_connector_id id : string) (power : Q) : Q :=
  match stations !! id with
  | Some station =>
      if String.eqb (World.cs_parent station) grid_connector_id then power else 0
  | None => 0
  end.

(** A connector entry after some passes of the loop: the limit as
    before, the load raised by what was commanded at the connector in
    between, and not above the larger of the limit and what it was. *)
Definition loaded (stations : gmap string World.ChargingStation)
    (grid_connector_id : string) (commands commands' : gmap string Q)
    (c c' : Connector) : Prop :=
  cur_max_power c' = cur_max_power c
  /\ current_load c' - current_load c
     == commanded_at stations grid_connector_id commands'
        - commanded_at stations grid_connector_id commands
  /\ match cur_max_power c with
     | Some limit => current_load c' <= Qmax (current_load c) limit
     | None => current_load c' == current_load c
     end.

(** Every command is for a known charging station and within its
    [max_power]. *)
Definition within_station_limits (stations : gmap string World.ChargingStation)
    (commands : gmap string Q) : Prop :=
  forall id commanded,
    commands !! id = Some commanded ->
    exists station,
      stations !! id = Some station /\ commanded <= World.cs_max_power station.

(** A vehicle after the loop: every attribute but the SOC as before, and
    the SOC not beyond the larger of what it was and what is desired. *)
Definition charged (v v' : World.Vehicle) : Prop :=
  World.connected_charging_station v' = World.connected_charging_station v
  /\ World.estimated_time_of_arrival v' = World.estimated_time_of_arrival v
  /\ World.estimated_time_of_departure v' = World.estimated_time_of_departure v
  /\ World.desired_soc v' = World.desired_soc v
  /\ World.soc_delta v' = World.soc_delta v
  /\ World.soc v' <= Qmax (World.soc v) (World.desired_soc v).

End Greedy.

(** A world for the Greedy strategy: SOC in percent, one vehicle of
    50 kWh at 50 % that wants 90 %. *)
Module GreedyExamples.

Definition car_type (id : string) : Greedy.VehicleType :=
  {| Greedy.capacity := 50 # 1; Greedy.max_charging_power := 11 # 1 |}.

Definition vehicle : World.Vehicle :=
  {| World.connected_charging_station := Some "CS1";
     World.estimated_time_of_arrival := None;
     World.estimated_time_of_departure := None;
     World.desired_soc := 90 # 1; World.soc := 50 # 1;
     World.soc_delta := None |}.

Definition world : World.WorldState :=
  World.set_vehicles {[ "V1" := vehicle; "V2" := vehicle ]}
    (StepperExamples.with_connector StepperExamples.loaded_connector).

Definition strategy : World.Strategy :=
  Legacy.init world 0 StepperExamples.quarter.

End GreedyExamples.

(* ===================================================================== *)
(** * Properties *)
(* ===================================================================== *)

(** Case analysis on every [Qmin] and [Qmax], then linear arithmetic. *)
Ltac name_minmax :=
  repeat match goal with
  | H : context [Qmin ?a ?b] |- _ =>
      let m := fresh "m" in
      pose proof (Q.min_spec a b); remember (Qmin a b) as m eqn:Hm in *; clear Hm
  | H : context [Qmax ?a ?b] |- _ =>
      let m := fresh "m" in
      pose proof (Q.max_spec a b); remember (Qmax a b) as m eqn:Hm in *; clear Hm
  | |- context [Qmin ?a ?b] =>
      let m := fresh "m" in
      pose proof (Q.min_spec a b); remember (Qmin a b) as m eqn:Hm in *; clear Hm
  | |- context [Qmax ?a ?b] =>
      let m := fresh "m" in
      pose proof (Q.max_spec a b); remember (Qmax a b) as m eqn:Hm in *; clear Hm
  end.

Ltac minmax_lra :=
  name_minmax;
  repeat match goal with
  | H : _ /\ _ \/ _ /\ _ |- _ => destruct H as [[? ?]|[? ?]]
  end;
  try lra.

Lemma Qlt_bool_iff (x y : Q) : Qlt_bool x y = true <-> (x < y)%Q.
Proof.
  unfold Qlt_bool. rewrite negb_true_iff. split.
  - intros H. apply Qnot_le_lt. intros Hle.
    apply Qle_bool_iff in Hle. congruence.
  - intros H. destruct (Qle_bool y x) eqn:E; [|reflexivity].
    apply Qle_bool_iff in E. lra.
Qed.

Lemma Qlt_bool_false_iff (x y : Q) : Qlt_bool x y = false <-> (y <= x)%Q.
Proof.
  unfold Qlt_bool. rewrite negb_false_iff. apply Qle_bool_iff.
Qed.

(** ** Event bucketing *)

Section EventBucketing.

Import Events.
Open Scope Z_scope.

(** The integer formula of the code is the ceiling of the exact quotient. *)
Lemma neg_floor_div_ceil (a b : Z) : - ((- a) / b) = ceil_div a b.
Proof.
  unfold ceil_div, Qceiling. f_equal.
  rewrite Zdiv_Qdiv. apply Qfloor_comp.
  rewrite inject_Z_opp. unfold Qdiv. ring.
Qed.

Lemma event_index_ceil (start_time interval : Z) (event : Event) :
  interval <> 0 ->
  event_index start_time interval event
  = Some (ceil_div (signal_time event - start_time) interval).
Proof.
  intros Hi. unfold event_index. destruct (decide (interval = 0)); [done|].
  f_equal. rewrite <- neg_floor_div_ceil. do 2 f_equal. lia.
Qed.

(** The ceiling is the least integer at or above the quotient. *)
Lemma ceil_div_spec (a b : Z) :
  0 < b -> (ceil_div a b - 1) * b < a <= ceil_div a b * b.
Proof.
  intros Hb. rewrite <- neg_floor_div_ceil.
  pose proof (Z.div_mod (- a) b ltac:(lia)) as Hdm.
  pose proof (Z.mod_pos_bound (- a) b Hb) as Hm.
  nia.
Qed.

Variables (start_time n_intervals interval : Z).

Local Abbreviation inb := (in_bucket start_time n_intervals interval).
Local Abbreviation clamped := (is_clamped start_time n_intervals interval).
Local Abbreviation dropped := (is_dropped start_time n_intervals interval).

Lemma append_at_lookup (steps steps' : list (list Event)) (i : Z) event :
  0 <= i ->
  append_at steps i event = Some steps' ->
  length steps' = length steps /\
  forall k : nat,
    steps' !! k
    = if decide (k = Z.to_nat i)
      then (fun b => b ++ [event]) <$> steps !! k
      else steps !! k.
Proof.
  intros Hi. unfold append_at.
  destruct (steps !! Z.to_nat i) as [bucket|] eqn:E; [|done].
  intros [= <-]. split; [by rewrite length_insert|].
  intros k. destruct (decide (k = Z.to_nat i)) as [->|Hne].
  - rewrite list_lookup_insert_eq; [by rewrite E|].
    by eapply lookup_lt_Some.
  - by rewrite list_lookup_insert_ne.
Qed.

Lemma append_at_in_range (steps : list (list Event)) (i : Z) event :
  0 <= i -> (Z.to_nat i < length steps)%nat ->
  is_Some (append_at steps i event).
Proof.
  intros Hi Hlt. unfold append_at.
  destruct (lookup_lt_is_Some_2 steps (Z.to_nat i) Hlt) as [b ->]. eauto.
Qed.

Local Ltac same_counters :=
  match goal with
  | |- Some (_, ?a, ?b) = Some (_, ?c, ?d) =>
      replace c with a by (cbn; lia); replace d with b by (cbn; lia);
      reflexivity
  end.

(** The loop invariant: every bucket grows by exactly the events the
    specification places in it, in their order, and the two counters grow
    by the numbers of clamped and of dropped events. *)
Lemma bucket_events_spec (events : list Event) :
  interval <> 0 -> 0 < n_intervals ->
  forall steps moved ignored,
    length steps = Z.to_nat n_intervals ->
    exists steps',
      bucket_events start_time n_intervals interval (steps, moved, ignored) events
      = Some (steps',
              (moved + length (List.filter clamped events))%nat,
              (ignored + length (List.filter dropped events))%nat)
      /\ length steps' = Z.to_nat n_intervals
      /\ forall k : nat,
           steps' !! k = (fun b => b ++ List.filter (inb k) events) <$> steps !! k.
Proof.
  intros Hi Hn. induction events as [|event rest IH]; intros steps moved ignored Hlen.
  - exists steps. cbn. rewrite !Nat.add_0_r. split; [done|]. split; [done|].
    intros k. destruct (steps !! k); cbn; [by rewrite app_nil_r|done].
  - cbn [bucket_events bucket_event].
    rewrite event_index_ceil by done.
    unfold in_bucket, is_clamped, is_dropped, placement in *.
    cbn [List.filter].
    set (index := ceil_div (signal_time event - start_time) interval) in *.
    destruct (decide (index < 0)) as [Hneg|Hnn].
    + assert (Hr : (Z.to_nat 0 < length steps)%nat) by (rewrite Hlen; lia).
      destruct (append_at_in_range steps 0 event ltac:(lia) Hr) as [steps1 H1].
      rewrite H1. cbn.
      destruct (append_at_lookup steps steps1 0 event ltac:(lia) H1) as [Hl1 Hk1].
      destruct (IH steps1 (S moved) ignored ltac:(lia)) as (steps' & -> & Hl & Hk).
      exists steps'. split; [same_counters|]. split; [done|].
      intros k. rewrite Hk, Hk1. change (Z.to_nat 0) with 0%nat.
      destruct (decide (k = 0%nat)) as [->|Hk0].
      * rewrite bool_decide_eq_true_2 by done.
        destruct (steps !! 0%nat); cbn; [by rewrite <- app_assoc|done].
      * by rewrite bool_decide_eq_false_2 by done.
    + destruct (decide (index >= n_intervals)) as [Hge|Hlt].
      * destruct (IH steps moved (S ignored) Hlen) as (steps' & -> & Hl & Hk).
        exists steps'. split; [same_counters|]. split; [done|].
        intros k. by rewrite Hk.
      * assert (Hr : (Z.to_nat index < length steps)%nat) by (rewrite Hlen; lia).
        destruct (append_at_in_range steps index event ltac:(lia) Hr)
          as [steps1 H1].
        rewrite H1. cbn.
        destruct (append_at_lookup steps steps1 index event ltac:(lia) H1)
          as [Hl1 Hk1].
        destruct (IH steps1 moved ignored ltac:(lia)) as (steps' & -> & Hl & Hk).
        exists steps'. split; [same_counters|]. split; [done|].
        intros k. rewrite Hk, Hk1.
        destruct (decide (k = Z.to_nat index)) as [->|Hk0].
        -- rewrite (bool_decide_eq_true_2 (Z.to_nat index = Z.to_nat index)) by done.
           destruct (steps !! Z.to_nat index); cbn; [by rewrite <- app_assoc|done].
        -- by rewrite (bool_decide_eq_false_2 (k = Z.to_nat index)) by done.
Qed.

End EventBucketing.

Section EventSteps.

Import Events.
Open Scope Z_scope.



(** The scenario run: the early signal lands in bucket 0 together with
    the first sample, the signal known at one microsecond in bucket 1, the
    one on the boundary in bucket 2 with the closing sample, the late one
    nowhere. *)
Example get_event_steps_scenario :
  get_event_steps EventsExamples.scenario 0 4 EventsExamples.quarter
  = Some ([ EventsExamples.signal (- 3 * EventsExamples.quarter) 0
            :: take 1 (get_events EventsExamples.series "building" FixedLoadClass false);
            EventsExamples.signal 1 EventsExamples.quarter
            :: take 1 (drop 1 (get_events EventsExamples.series "building" FixedLoadClass false));
            EventsExamples.signal (2 * EventsExamples.quarter) (2 * EventsExamples.quarter)
            :: drop 2 (get_events EventsExamples.series "building" FixedLoadClass false);
            [] ],
          [EventsBeforeStart 1; EventsAfterEnd 1]).
Proof. vm_compute. reflexivity. Qed.

(** Without any interval there is no bucket 0 to clamp an early event
    into: [steps[0]] raises. *)
Example get_event_steps_no_interval :
  get_event_steps EventsExamples.scenario 0 0 EventsExamples.quarter = None.
Proof. vm_compute. reflexivity. Qed.

(** With [n_intervals = 0] the first signal of the scenario, known three
    quarters of an hour before the start, has a negative index; it is
    neither placed in a bucket 0 nor counted in a warning: the call
    raises. *)
Lemma get_event_steps_early_event_raises :
  EventsExamples.signal (- 3 * EventsExamples.quarter) 0
    ∈ all_events EventsExamples.scenario
  /\ ceil_div (signal_time (EventsExamples.signal (- 3 * EventsExamples.quarter) 0) - 0)
       EventsExamples.quarter = -3
  /\ get_event_steps EventsExamples.scenario 0 0 EventsExamples.quarter = None.
Proof.
  split; [|split].
  - apply list_elem_of_In. vm_compute. tauto.
  - vm_compute. reflexivity.
  - vm_compute. reflexivity.
Qed.

End EventSteps.

(** ** Periodic series *)

Section PeriodicSeries.

Import Events.
Open Scope Z_scope.

Variables (self : EnergyValuesList) (name : string) (cls : ValueClass)
          (has_perfect_foresight : bool).

Lemma get_events_length :
  length (get_events self name cls has_perfect_foresight)
  = S (length (evl_values self)).
Proof.
  unfold get_events. rewrite length_imap, length_app. cbn. lia.
Qed.

(** C9 (as amended). [get_events] produces one event per sample and one
    closing event: [n + 1] events for [n] values. For [i < n] the [i]-th
    event starts at [t0 + i * s] and carries the [i]-th sample times the
    factor; the closing event starts at [t0 + n * s] and carries
    [0 * factor]. With perfect foresight every event has signal time [t0],
    otherwise its own start time. *)
Theorem get_events_series :
  length (get_events self name cls has_perfect_foresight)
  = S (length (evl_values self))
  /\ forall (i : nat) (value : Q),
       (evl_values self ++ [0%Q]) !! i = Some value ->
       exists x : EnergyValue,
         get_events self name cls has_perfect_foresight !! i
         = Some (value_class cls x)
         /\ ev_start_time x = evl_start_time self + Z.of_nat i * evl_time_delta self
         /\ ev_value x = (value * evl_factor self)%Q
         /\ ev_signal_time x
            = (if has_perfect_foresight then evl_start_time self
               else ev_start_time x)
         /\ ev_name x = name
         /\ ev_grid_connector_id x = evl_grid_connector_id self.
Proof.
  split; [apply get_events_length|].
  intros i value Hi. unfold get_events.
  rewrite list_lookup_imap, Hi. cbn.
  eexists. split; [reflexivity|]. cbn.
  repeat split; try reflexivity; lia.
Qed.

End PeriodicSeries.

(** C9, as stated, fails: two samples give three events. *)
Lemma get_events_not_one_per_sample :
  length (Events.get_events EventsExamples.series "building"
            Events.FixedLoadClass false)
  <> length (Events.evl_values EventsExamples.series).
Proof. vm_compute. discriminate. Qed.

Lemma get_events_series_witness :
  exists x : Events.EnergyValue,
    Events.get_events EventsExamples.series "building" Events.FixedLoadClass false
      !! 2%nat
    = Some (Events.FixedLoad x)
    /\ Events.ev_start_time x = (0 + 2 * EventsExamples.quarter)%Z
    /\ Events.ev_value x = (0 * (3 # 2))%Q
    /\ Events.ev_signal_time x = Events.ev_start_time x
    /\ Events.ev_name x = "building"
    /\ Events.ev_grid_connector_id x = "GC1".
Proof.
  apply (proj2 (get_events_series EventsExamples.series "building"
                  Events.FixedLoadClass false) 2%nat 0%Q).
  reflexivity.
Defined.

(** ** The pending queue of the stepper *)

Section PendingQueue.

Import World.
Open Scope Z_scope.

Lemma insert_by_start_time_perm ev l :
  Permutation (insert_by_start_time ev l) (ev :: l).
Proof.
  induction l as [|x rest IH]; cbn; [done|].
  destruct (decide (start_time ev <= start_time x)); [done|].
  rewrite IH. apply perm_swap.
Qed.

Lemma sort_by_start_time_perm l : Permutation (sort_by_start_time l) l.
Proof.
  induction l as [|x rest IH]; cbn; [done|].
  rewrite insert_by_start_time_perm. by constructor.
Qed.

Lemma insert_by_start_time_sorted ev l :
  StronglySorted by_start_time l ->
  StronglySorted by_start_time (insert_by_start_time ev l).
Proof.
  induction 1 as [|x rest Hs IH Hall]; cbn.
  - repeat constructor.
  - destruct (decide (start_time ev <= start_time x)) as [Hle|Hgt].
    + constructor; [by constructor|].
      constructor; [done|].
      eapply Forall_impl; [exact Hall|]. unfold by_start_time. cbn. lia.
    + constructor; [done|].
      eapply Permutation_Forall.
      { symmetry. apply insert_by_start_time_perm. }
      constructor; [unfold by_start_time; lia|done].
Qed.

Lemma sort_by_start_time_sorted l :
  StronglySorted by_start_time (sort_by_start_time l).
Proof.
  induction l as [|x rest IH]; cbn; [constructor|].
  by apply insert_by_start_time_sorted.
Qed.

(** Stability: the events that start at the same time keep their order. *)
Lemma insert_by_start_time_stable t ev l :
  StronglySorted by_start_time l ->
  List.filter (starts_at t) (insert_by_start_time ev l)
  = List.filter (starts_at t) (ev :: l).
Proof.
  induction 1 as [|x rest Hs IH Hall]; [done|].
  cbn [insert_by_start_time].
  destruct (decide (start_time ev <= start_time x)) as [Hle|Hgt]; [done|].
  cbn [List.filter] in *. rewrite IH. unfold starts_at.
  destruct (start_time ev =? t) eqn:E1, (start_time x =? t) eqn:E2;
    try reflexivity.
  lia.
Qed.

Lemma sort_by_start_time_stable t l :
  List.filter (starts_at t) (sort_by_start_time l) = List.filter (starts_at t) l.
Proof.
  induction l as [|x rest IH]; [done|].
  cbn [sort_by_start_time foldr].
  rewrite insert_by_start_time_stable by apply sort_by_start_time_sorted.
  cbn [List.filter]. fold (sort_by_start_time rest). by rewrite IH.
Qed.

Lemma due_deferred_app now queue :
  queue = due_events now queue ++ deferred_events now queue.
Proof.
  induction queue as [|ev rest IH]; cbn; [done|].
  destruct (decide (start_time ev <= now)); cbn; [by f_equal|done].
Qed.

Lemma due_events_due now queue :
  Forall (fun ev => start_time ev <= now) (due_events now queue).
Proof.
  induction queue as [|ev rest IH]; cbn; [constructor|].
  destruct (decide (start_time ev <= now)); by constructor.
Qed.

Lemma deferred_events_later now queue :
  StronglySorted by_start_time queue ->
  Forall (fun ev => now < start_time ev) (deferred_events now queue).
Proof.
  induction 1 as [|ev rest Hs IH Hall]; cbn; [constructor|].
  destruct (decide (start_time ev <= now)); [done|].
  constructor; [lia|].
  eapply Forall_impl; [exact Hall|]. unfold by_start_time. cbn. lia.
Qed.

(** The loop applies the due events first to last and stores the rest. *)
Lemma run_due_events_spec apply now queue w :
  run_due_events apply now queue w
  = (w' ← apply_events apply (due_events now queue) w;
     Ok (set_future_events (deferred_events now queue) w')).
Proof.
  revert w. induction queue as [|ev rest IH]; intros w; cbn; [done|].
  destruct (decide (start_time ev > now)), (decide (start_time ev <= now));
    try lia; cbn; [done|].
  destruct (apply ev w) as [w'|e]; cbn; [apply IH|done].
Qed.

End PendingQueue.

Section StepQueue.

Import World.
Open Scope Z_scope.

(** C3. In both steppers, [step] advances [current_time] by one interval,
    sorts the pending queue extended by the new events by [start_time]
    (a permutation, in ascending order, events of equal start time in
    their order of arrival), applies first to last exactly the events of
    the longest prefix that start at or before the new [current_time],
    and leaves the others, which all start later, in the queue. *)
Theorem step_applies_due_events_in_order (self : Strategy)
    (event_list : list Event) :
  let now := current_time self + interval self in
  let pending := future_events (world_state self) ++ event_list in
  let queue := sort_by_start_time pending in
  Permutation queue pending
  /\ StronglySorted by_start_time queue
  /\ (forall t, List.filter (starts_at t) queue = List.filter (starts_at t) pending)
  /\ queue = due_events now queue ++ deferred_events now queue
  /\ Forall (fun ev => start_time ev <= now) (due_events now queue)
  /\ Forall (fun ev => now < start_time ev) (deferred_events now queue)
  /\ NetzElog.step self event_list
     = (w ← apply_events (NetzElog.apply_event (margin self))
             (due_events now queue) (world_state self);
        w' ← NetzElog.finish_step
               (set_future_events (deferred_events now queue) w);
        Ok {| world_state := w'; current_time := now;
              interval := interval self; margin := margin self |})
  /\ Legacy.step self event_list
     = (w ← apply_events Legacy.apply_event
             (due_events now queue) (world_state self);
        w' ← Legacy.finish_step
               (set_future_events (deferred_events now queue) w);
        Ok {| world_state := w'; current_time := now;
              interval := interval self; margin := margin self |}).
Proof.
  intros now pending queue.
  split; [apply sort_by_start_time_perm|].
  split; [apply sort_by_start_time_sorted|].
  split; [intros t; apply sort_by_start_time_stable|].
  split; [apply due_deferred_app|].
  split; [apply due_events_due|].
  split; [apply deferred_events_later, sort_by_start_time_sorted|].
  split.
  - unfold NetzElog.step. fold now pending queue.
    rewrite run_due_events_spec.
    by destruct (apply_events _ _ _).
  - unfold Legacy.step. fold now pending queue.
    rewrite run_due_events_spec.
    by destruct (apply_events _ _ _).
Qed.

Lemma finish_step_future_events w w' :
  NetzElog.finish_step w = Ok w' -> future_events w' = future_events w.
Proof.
  unfold NetzElog.finish_step.
  destruct (NetzElog.reset_and_check _ _ _); cbn; [|done].
  by intros [= <-].
Qed.

Lemma legacy_finish_step_future_events w w' :
  Legacy.finish_step w = Ok w' -> future_events w' = future_events w.
Proof.
  unfold Legacy.finish_step.
  destruct (Legacy.check_costs _); cbn; [|done].
  by intros [= <-].
Qed.

(** After a step that does not abort, the queue holds exactly the
    deferred events. *)
Lemma step_future_events (self self' : Strategy) (event_list : list Event) :
  NetzElog.step self event_list = Ok self' \/ Legacy.step self event_list = Ok self' ->
  current_time self' = current_time self + interval self
  /\ future_events (world_state self')
     = deferred_events (current_time self + interval self)
         (sort_by_start_time (future_events (world_state self) ++ event_list)).
Proof.
  intros [H|H].
  - unfold NetzElog.step in H. rewrite run_due_events_spec in H.
    destruct (apply_events _ _ _) as [w|]; cbn in H; [|done].
    destruct (NetzElog.finish_step _) as [w'|] eqn:E; cbn in H; [|done].
    injection H as <-. cbn. split; [done|].
    by rewrite (finish_step_future_events _ _ E).
  - unfold Legacy.step in H. rewrite run_due_events_spec in H.
    destruct (apply_events _ _ _) as [w|]; cbn in H; [|done].
    destruct (Legacy.finish_step _) as [w'|] eqn:E; cbn in H; [|done].
    injection H as <-. cbn. split; [done|].
    by rewrite (legacy_finish_step_future_events _ _ E).
Qed.

End StepQueue.

(** ** What one step does to connectors and vehicles *)

Section StepEffects.

Import World.

(** *** Grid operator signals *)

(** The netz_elog stepper on a connector whose [max_power] is set and
    not zero: the cost is replaced exactly when the event carries a
    (non-empty) cost, and [cur_max_power] is the smaller of the two limits
    when the event has one, else the connector's own. *)
Lemma netz_signal_limited (ev_cost : option Cost) (ev_max_power : option Q)
    (connector : GridConnector) (p : Q) :
  max_power connector = Some p -> ~ p == 0 ->
  let connector' := NetzElog.apply_grid_operator_signal ev_cost ev_max_power connector in
  cost connector' = (if cost_truthy ev_cost then ev_cost else cost connector)
  /\ cur_max_power connector'
     = match ev_max_power with
       | Some q => Some (Qmin p q)
       | None => Some p
       end
  /\ max_power connector' = max_power connector
  /\ current_loads connector' = current_loads connector.
Proof.
  intros Hp Hnz. unfold NetzElog.apply_grid_operator_signal.
  assert (Ht : forall c, max_power c = Some p -> power_truthy (max_power c) = true).
  { intros c ->. cbn. destruct (Qeq_bool p 0) eqn:E; [|done].
    by apply Qeq_bool_iff in E. }
  destruct (cost_truthy ev_cost); cbn zeta;
    rewrite Ht by (cbn; done);
    destruct ev_max_power; cbn; rewrite ?Hp; done.
Qed.

(** The netz_elog stepper on a connector without [max_power]: the event's
    limit is taken as it is. *)
Lemma netz_signal_unlimited (ev_cost : option Cost) (ev_max_power : option Q)
    (connector : GridConnector) :
  max_power connector = None ->
  cur_max_power (NetzElog.apply_grid_operator_signal ev_cost ev_max_power connector)
  = ev_max_power.
Proof.
  intros Hp. unfold NetzElog.apply_grid_operator_signal.
  destruct (cost_truthy ev_cost); cbn zeta; cbn; rewrite Hp; done.
Qed.

(** The older stepper on a connector whose [max_power] is set and not
    zero, for an event whose [max_power] is set and not zero: the larger
    of the two limits. *)
Lemma legacy_signal_limited (ev_cost : option Cost) (connector : GridConnector)
    (p q : Q) :
  max_power connector = Some p -> ~ p == 0 -> ~ q == 0 ->
  cur_max_power (Legacy.apply_grid_operator_signal ev_cost (Some q) connector)
  = Some (Qmax p q).
Proof.
  intros Hp Hnp Hnq. unfold Legacy.apply_grid_operator_signal.
  assert (Ht : forall x, ~ x == 0 -> power_truthy (Some x) = true).
  { intros x Hx. cbn. destruct (Qeq_bool x 0) eqn:E; [|done].
    by apply Qeq_bool_iff in E. }
  destruct (cost_truthy ev_cost); cbn zeta; cbn [max_power set_cost];
    rewrite Hp; rewrite !Ht by done; cbn; by rewrite ?Hp.
Qed.

(** *** Departures *)

(** The older stepper on a departure: the update is applied and the
    vehicle is disconnected, whatever its SOC. *)
Lemma legacy_departure (t : Z) (id : string) (update : list FieldUpdate)
    (vehicle : Vehicle) (w : WorldState) :
  vehicles w !! id = Some vehicle ->
  Legacy.apply_event (VehicleEvent t id "departure" update) w
  = Ok (NetzElog.set_vehicle id
          (setattr (apply_update update vehicle)
             (SetConnectedChargingStation None)) w).
Proof.
  intros Hv. unfold Legacy.apply_event, getitem. rewrite Hv. cbn.
  unfold Legacy.apply_vehicle_event.
  by destruct (decide ("departure" = "departure")).
Qed.

(** The netz_elog stepper on a departure: the update is applied, the
    vehicle is disconnected, and the step aborts exactly when the SOC is
    below [(1 - margin) * desired_soc]. *)
Lemma netz_departure (margin : Q) (t : Z) (id : string)
    (update : list FieldUpdate) (vehicle : Vehicle) (w : WorldState) :
  vehicles w !! id = Some vehicle ->
  let v := apply_update update vehicle in
  NetzElog.apply_event margin (VehicleEvent t id "departure" update) w
  = if Qlt_bool (soc v) ((1 - margin) * desired_soc v)
    then Raise BelowDesiredSoc
    else Ok (NetzElog.set_vehicle id
               (setattr v (SetConnectedChargingStation None)) w).
Proof.
  intros Hv v. unfold NetzElog.apply_event, getitem. rewrite Hv. cbn.
  unfold NetzElog.apply_vehicle_event. fold v.
  destruct (decide ("departure" = "departure")); [|done].
  unfold Qlt_bool. cbn.
  by destruct (Qle_bool ((1 - margin) * desired_soc v) (soc v)).
Qed.

Lemma netz_departure_raises_iff (margin : Q) (t : Z) (id : string)
    (update : list FieldUpdate) (vehicle : Vehicle) (w : WorldState) :
  vehicles w !! id = Some vehicle ->
  let v := apply_update update vehicle in
  (exists e, NetzElog.apply_event margin (VehicleEvent t id "departure" update) w
             = Raise e)
  <-> (soc v < (1 - margin) * desired_soc v)%Q.
Proof.
  intros Hv v. rewrite (netz_departure margin t id update vehicle w Hv). fold v.
  destruct (Qlt_bool (soc v) ((1 - margin) * desired_soc v)) eqn:E.
  - apply Qlt_bool_iff in E. split; [done|]. eauto.
  - apply Qlt_bool_false_iff in E. split; [by intros [e ?]|]. intros. lra.
Qed.

(** *** The closing loop *)

Lemma reset_loads_foldr (stations : gmap string ChargingStation)
    (loads : gmap string Q) (keys : list string) (k : string) :
  foldr (fun load_name loads =>
           if is_None_b (stations !! load_name) then loads
           else delete load_name loads) loads keys !! k
  = if decide (k ∈ keys /\ is_Some (stations !! k)) then None else loads !! k.
Proof.
  induction keys as [|a keys IH]; cbn [foldr].
  - destruct (decide (k ∈ [] /\ _)) as [[H _]|]; [|done].
    by apply elem_of_nil in H.
  - destruct (stations !! a) as [s|] eqn:Ea; cbn [is_None_b].
    + destruct (decide (a = k)) as [->|Hne].
      * rewrite lookup_delete_eq.
        destruct (decide (k ∈ k :: keys /\ _)) as [|Hn]; [done|].
        exfalso. apply Hn. split; [apply elem_of_cons; by left|by rewrite Ea].
      * rewrite lookup_delete_ne by done. rewrite IH. clear IH.
        destruct (decide (k ∈ keys /\ _)) as [[H1 H2]|Hn],
                 (decide (k ∈ a :: keys /\ _)) as [[H3 H4]|Hn']; try done.
        -- exfalso. apply Hn'. split; [apply elem_of_cons; by right|done].
        -- exfalso. apply Hn. split; [|done].
           apply elem_of_cons in H3 as [->|]; done.
    + rewrite IH. clear IH.
      destruct (decide (k ∈ keys /\ _)) as [[H1 H2]|Hn],
               (decide (k ∈ a :: keys /\ _)) as [[H3 H4]|Hn']; try done.
      * exfalso. apply Hn'. split; [apply elem_of_cons; by right|done].
      * exfalso. apply Hn. split; [|done].
        apply elem_of_cons in H3 as [->|]; [|done].
        rewrite Ea in H4. by destruct H4.
Qed.

(** The reset deletes the loads named like a charging station and keeps
    every other load as it is. *)
Lemma reset_loads_lookup (stations : gmap string ChargingStation)
    (loads : gmap string Q) (k : string) :
  NetzElog.reset_charging_station_loads stations loads !! k
  = match stations !! k with
    | Some _ => None
    | None => loads !! k
    end.
Proof.
  unfold NetzElog.reset_charging_station_loads. rewrite reset_loads_foldr.
  destruct (decide _) as [[H1 H2]|Hn].
  - destruct H2 as [s ->]. done.
  - destruct (stations !! k) as [s|] eqn:E; [|done].
    destruct (loads !! k) as [q|] eqn:El; [|done].
    exfalso. apply Hn. split; [|eauto].
    apply list_elem_of_fmap. exists (k, q). split; [done|].
    by apply elem_of_map_to_list.
Qed.

Lemma reset_and_check_spec (stations : gmap string ChargingStation)
    (items : list (string * GridConnector)) :
  NoDup items.*1 ->
  forall connectors : gmap string GridConnector,
    if bool_decide (Forall (fun item => cost_truthy (cost item.2) = true) items)
    then exists connectors',
        NetzElog.reset_and_check stations items connectors = Ok connectors'
        /\ forall name,
             connectors' !! name
             = match (list_to_map items : gmap string GridConnector) !! name with
               | Some c => Some (NetzElog.reset_connector stations c)
               | None => connectors !! name
               end
    else NetzElog.reset_and_check stations items connectors
         = Raise NoAssociatedCosts.
Proof.
  induction items as [|[name connector] rest IH]; intros Hnd connectors.
  - rewrite bool_decide_eq_true_2 by constructor.
    exists connectors. split; [done|]. intros name.
    change (list_to_map [] : gmap string GridConnector) with (∅ : gmap string GridConnector).
    by rewrite lookup_empty.
  - apply NoDup_cons in Hnd as [Hnotin Hnd]. cbn [NetzElog.reset_and_check].
    change (cost (NetzElog.reset_connector stations connector))
      with (cost connector).
    destruct (cost_truthy (cost connector)) eqn:Ec; cbn.
    + specialize (IH Hnd (<[name := NetzElog.reset_connector stations connector]> connectors)).
      destruct (bool_decide (Forall _ rest)) eqn:Er.
      * apply bool_decide_eq_true in Er.
        rewrite bool_decide_eq_true_2 by (constructor; done).
        destruct IH as (connectors' & -> & Hk). exists connectors'.
        split; [done|]. intros n. rewrite Hk.
        destruct (decide (n = name)) as [->|Hne].
        -- rewrite lookup_insert_eq.
           rewrite (not_elem_of_list_to_map_1 rest name Hnotin).
           by rewrite lookup_insert_eq.
        -- by rewrite !lookup_insert_ne by done.
      * apply bool_decide_eq_false in Er.
        rewrite bool_decide_eq_false_2; [done|].
        intros H. apply Er. by inversion H.
    + rewrite bool_decide_eq_false_2; [done|].
      intros H. inversion H as [|? ? Hc]; subst. cbn in Hc. congruence.
Qed.

(** The closing loop of the netz_elog stepper: it aborts when a
    connector has no cost, and otherwise resets every connector. *)
Lemma netz_finish_step_spec (w : WorldState) :
  if bool_decide (map_Forall (fun _ c => cost_truthy (cost c) = true)
                    (grid_connectors w))
  then exists w',
      NetzElog.finish_step w = Ok w'
      /\ charging_stations w' = charging_stations w
      /\ vehicles w' = vehicles w
      /\ forall name,
           grid_connectors w' !! name
           = NetzElog.reset_connector (charging_stations w)
               <$> grid_connectors w !! name
  else NetzElog.finish_step w = Raise NoAssociatedCosts.
Proof.
  unfold NetzElog.finish_step.
  pose proof (reset_and_check_spec (charging_stations w)
                (map_to_list (grid_connectors w))
                (NoDup_fst_map_to_list _) (grid_connectors w)) as H.
  rewrite list_to_map_to_list in H.
  assert (Hiff : Forall (fun item => cost_truthy (cost item.2) = true)
                   (map_to_list (grid_connectors w))
                 <-> map_Forall (fun _ c => cost_truthy (cost c) = true)
                       (grid_connectors w)).
  { rewrite map_Forall_to_list. apply Forall_iff. by intros [??]. }
  destruct (bool_decide (Forall _ _)) eqn:E.
  - apply bool_decide_eq_true in E.
    rewrite bool_decide_eq_true_2 by by apply Hiff.
    destruct H as (connectors' & -> & Hk). cbn.
    eexists. split; [done|]. cbn. split; [done|]. split; [done|].
    intros name. rewrite Hk. by destruct (grid_connectors w !! name).
  - apply bool_decide_eq_false in E.
    rewrite bool_decide_eq_false_2 by (by rewrite <- Hiff).
    by rewrite H.
Qed.

End StepEffects.

Section SignalRuns.

Import World StepperExamples.

(** C4 (the older stepper departs from it). [strategy.py] takes the
    larger of the connector's limit and the event's: on a connector
    limited to 100 kW a signal that lowers the limit to 50 kW leaves
    [cur_max_power] at 100 kW, where the smaller of the two is 50 kW. *)
Theorem legacy_signal_takes_larger_limit :
  exists self',
    Legacy.step (Legacy.init world 0 quarter) [limit_signal] = Ok self'
    /\ cur_max_power <$> (grid_connectors (world_state self') !! "GC1")
       = Some (Some (100 # 1))
    /\ Qmin (100 # 1) (50 # 1) = 50 # 1.
Proof. eexists. split; [vm_compute; reflexivity|]. split; reflexivity. Qed.

(** The same signal in netz_elog's stepper: the smaller limit. *)
Example netz_signal_takes_smaller_limit :
  exists self',
    NetzElog.step (NetzElog.init world 0 quarter) [limit_signal] = Ok self'
    /\ cur_max_power <$> (grid_connectors (world_state self') !! "GC1")
       = Some (Some (50 # 1)).
Proof. eexists. split; [vm_compute; reflexivity|]. reflexivity. Qed.

(** Both steppers test [connector.max_power] for truth, so a configured
    limit of 0 kW counts as no limit: the event's 50 kW is taken, where
    the smaller of the two is 0 kW. *)
Example netz_signal_zero_limit :
  cur_max_power
    (NetzElog.apply_grid_operator_signal None (Some (50 # 1)) closed_connector)
  = Some (50 # 1)
  /\ cur_max_power
       (Legacy.apply_grid_operator_signal None (Some (50 # 1)) closed_connector)
     = Some (50 # 1)
  /\ Qmin 0 (50 # 1) = 0%Q.
Proof. repeat split. Qed.

End SignalRuns.

Section StepRuns.

Import World StepperExamples.

(** After a step of the netz_elog stepper that does not abort, every
    connector has a cost and no load named like a charging station. *)
Lemma netz_step_resets_connectors (self self' : Strategy)
    (event_list : list Event) :
  NetzElog.step self event_list = Ok self' ->
  forall name c,
    grid_connectors (world_state self') !! name = Some c ->
    cost_truthy (cost c) = true
    /\ forall k, is_Some (charging_stations (world_state self') !! k) ->
                 current_loads c !! k = None.
Proof.
  unfold NetzElog.step.
  destruct (run_due_events _ _ _ _) as [w|]; cbn; [|done].
  pose proof (netz_finish_step_spec w) as H.
  destruct (bool_decide _) eqn:E.
  - apply bool_decide_eq_true in E.
    destruct H as (w' & -> & Hcs & _ & Hk). cbn. intros [= <-]. cbn.
    intros name c. rewrite Hk, Hcs.
    destruct (grid_connectors w !! name) as [c0|] eqn:E0; cbn; [|done].
    intros [= <-]. split; [by apply (E name c0)|].
    intros k [s Hs]. cbn. by rewrite reset_loads_lookup, Hs.
  - rewrite H. done.
Qed.

(** C5 (the older stepper departs from it). On the departure of a
    vehicle at SOC 0.5 that wants 0.9, [strategy.py] disconnects the
    vehicle and goes on, where netz_elog's stepper aborts: 0.5 is below
    [(1 - 0.05) * 0.9]. *)
Theorem legacy_departure_never_aborts :
  (exists self',
      Legacy.step (Legacy.init world 0 quarter) [departure] = Ok self'
      /\ vehicles (world_state self') !! "V1"
         = Some (setattr vehicle (SetConnectedChargingStation None)))
  /\ NetzElog.step (NetzElog.init world 0 quarter) [departure]
     = Raise BelowDesiredSoc
  /\ (soc vehicle < (1 - (5 # 100)) * desired_soc vehicle)%Q.
Proof.
  split; [eexists; split; vm_compute; reflexivity|].
  split; vm_compute; reflexivity.
Qed.

(** C6 (the older stepper departs from it). [strategy.py] checks the
    cost of every connector but never removes a load: a load named like a
    charging station survives the step, where netz_elog's stepper removes
    it and keeps the building's load. *)
Theorem legacy_step_keeps_station_loads :
  (exists self',
      Legacy.step (Legacy.init (with_connector loaded_connector) 0 quarter) []
      = Ok self'
      /\ (grid_connectors (world_state self') !! "GC1"
            ≫= fun c => current_loads c !! "CS1") = Some (11 # 1)%Q)
  /\ (exists self',
      NetzElog.step (NetzElog.init (with_connector loaded_connector) 0 quarter) []
      = Ok self'
      /\ (grid_connectors (world_state self') !! "GC1"
            ≫= fun c => current_loads c !! "CS1") = None
      /\ (grid_connectors (world_state self') !! "GC1"
            ≫= fun c => current_loads c !! "building") = Some (7 # 1)%Q)
  /\ is_Some (charging_stations (with_connector loaded_connector) !! "CS1").
Proof.
  split; [eexists; split; vm_compute; reflexivity|].
  split; [eexists; split; [|split]; vm_compute; reflexivity|].
  by eexists.
Qed.

(** The older stepper also takes an external load named like a charging
    station, which netz_elog's stepper refuses. *)
Example legacy_takes_station_load :
  (exists self',
      Legacy.step (Legacy.init world 0 quarter) [station_load] = Ok self'
      /\ (grid_connectors (world_state self') !! "GC1"
            ≫= fun c => current_loads c !! "CS1") = Some (5 # 1)%Q)
  /\ NetzElog.step (NetzElog.init world 0 quarter) [station_load]
     = Raise LoadFromChargingStation.
Proof.
  split; [eexists; split; vm_compute; reflexivity|].
  vm_compute; reflexivity.
Qed.

(** Both steppers abort when a connector has no cost. *)
Example step_without_cost :
  NetzElog.step
    (NetzElog.init (with_connector (set_cost None connector)) 0 quarter) []
  = Raise NoAssociatedCosts
  /\ Legacy.step
       (Legacy.init (with_connector (set_cost (Some []) connector)) 0 quarter) []
     = Raise NoAssociatedCosts.
Proof. split; vm_compute; reflexivity. Qed.

End StepRuns.

(** ** Balanced charging *)

Section BalancedCharging.

Import Schedule.
Open Scope Q_scope.

Lemma Qhalf (x : Q) : x / 2 == x * (1 # 2).
Proof. reflexivity. Qed.

Lemma pow2_ge_1 (n : nat) : 1 <= pow2 n.
Proof. induction n as [|n IH]; cbn [pow2]; lra. Qed.

Lemma pow2_pos (n : nat) : 0 < pow2 n.
Proof. pose proof (pow2_ge_1 n). lra. Qed.

Lemma pow2_above (n : nat) : inject_Z (Z.of_nat n) <= pow2 n.
Proof.
  induction n as [|n IH]; [change (0 <= 1); lra|].
  rewrite Nat2Z.inj_succ. unfold Z.succ. rewrite inject_Z_plus.
  cbn [pow2]. pose proof (pow2_ge_1 n). change (inject_Z 1) with 1. lra.
Qed.

(** Halving often enough brings any width below a positive tolerance. *)
Lemma enough_halvings (w eps : Q) : 0 < eps -> exists n, w <= eps * pow2 n.
Proof.
  intros He. exists (Z.to_nat (Qceiling (w / eps))).
  pose proof (Qle_ceiling (w / eps)) as Hc.
  pose proof (pow2_above (Z.to_nat (Qceiling (w / eps)))) as Hp.
  assert (Hz : inject_Z (Qceiling (w / eps))
               <= inject_Z (Z.of_nat (Z.to_nat (Qceiling (w / eps))))).
  { rewrite <- Zle_Qle. lia. }
  assert (Hw : w == (w / eps) * eps) by (field; lra).
  rewrite Hw at 1. rewrite (Qmult_comm eps).
  apply Qmult_le_compat_r; lra.
Qed.

Lemma halved_half (n : nat) (w : Q) : halved n (w / 2) == halved n w / 2.
Proof.
  induction n as [|n IH]; cbn [halved]; [reflexivity|]. by rewrite IH.
Qed.

#[local] Instance halved_proper (n : nat) : Proper (Qeq ==> Qeq) (halved n).
Proof.
  induction n as [|n IH]; intros x y Hxy; cbn [halved]; [done|].
  by rewrite (IH x y Hxy).
Qed.

Lemma halved_le (n : nat) (w w' : Q) : w <= w' -> halved n w <= halved n w'.
Proof.
  induction n as [|n IH]; cbn [halved]; [done|].
  intros H. specialize (IH H). rewrite !Qhalf. lra.
Qed.

Lemma halved_pow2 (n : nat) (eps : Q) : halved n (eps * pow2 n) == eps.
Proof.
  induction n as [|n IH]; cbn [halved pow2]; [ring|].
  rewrite <- halved_half.
  assert (H : eps * (2 * pow2 n) / 2 == eps * pow2 n) by (rewrite Qhalf; ring).
  by rewrite H.
Qed.

(** Once the width is within the tolerance it stays there. *)
Lemma halved_within (k n : nat) (w eps : Q) :
  0 < eps -> w <= eps * pow2 k -> (k <= n)%nat -> halved n w <= eps.
Proof.
  intros He Hw Hkn. induction Hkn as [|n Hkn IH].
  - rewrite <- (halved_pow2 k eps). by apply halved_le.
  - cbn [halved]. rewrite Qhalf. lra.
Qed.

End BalancedCharging.

Section SearchLoop.

Import Schedule.
Open Scope Q_scope.

Variable X : Externals.
Hypothesis load_frame : forall b dt mp ts tp,
  set_soc (soc b) (battery_load X b dt mp ts tp).1 = b.
Hypothesis eps_pos : 0 < EPS X.

Variables (iterations : nat) (dt : Z) (delta_soc : Q) (vehicle : Vehicle).

Local Abbreviation old_soc := (soc (battery vehicle)).
Local Abbreviation loop := (search_loop X iterations dt delta_soc old_soc).
Local Abbreviation step := (search_step X dt delta_soc old_soc).

Lemma set_battery_same (v : Vehicle) : set_battery (battery v) v = v.
Proof. by destruct v. Qed.

(** A round leaves the vehicle as it found it. *)
Lemma search_step_vehicle (st : Search) :
  s_vehicle st = vehicle -> s_vehicle (step st) = vehicle.
Proof.
  intros Hv. unfold search_step. rewrite Hv.
  destruct (Qlt_bool _ _); cbn [s_vehicle];
    by rewrite load_frame, set_battery_same.
Qed.

Lemma search_loop_vehicle (fuel : nat) (st st' : Search) :
  s_vehicle st = vehicle -> loop fuel st = Some st' -> s_vehicle st' = vehicle.
Proof.
  revert st. induction fuel as [|fuel IH]; intros st Hv; cbn [search_loop];
    destruct (search_continues X iterations st); try done;
    try (by intros [= <-]).
  apply IH. by apply search_step_vehicle.
Qed.

Lemma search_loop_more_fuel (fuel fuel' : nat) (st st' : Search) :
  loop fuel st = Some st' -> (fuel <= fuel')%nat -> loop fuel' st = Some st'.
Proof.
  revert fuel' st. induction fuel as [|fuel IH]; intros fuel' st.
  - cbn [search_loop]. destruct fuel'; cbn [search_loop];
      destruct (search_continues X iterations st); done.
  - intros H Hle. destruct fuel' as [|fuel']; [lia|].
    cbn [search_loop] in *. destruct (search_continues X iterations st); [|done].
    apply IH; [done|lia].
Qed.

Lemma search_loop_stops (fuel : nat) (st st' : Search) :
  loop fuel st = Some st' -> search_continues X iterations st' = false.
Proof.
  revert st. induction fuel as [|fuel IH]; intros st; cbn [search_loop];
    destruct (search_continues X iterations st) eqn:E; try done;
    try (by intros [= <-]).
  apply IH.
Qed.

Lemma search_step_idx (st : Search) : s_idx (step st) = S (s_idx st).
Proof. unfold search_step. by destruct (Qlt_bool _ _). Qed.

Lemma search_loop_idx (fuel : nat) (st st' : Search) :
  loop fuel st = Some st' -> (s_idx st <= s_idx st')%nat.
Proof.
  revert st. induction fuel as [|fuel IH]; intros st; cbn [search_loop];
    destruct (search_continues X iterations st); try done;
    try (intros [= <-]; lia).
  intros H. apply IH in H. rewrite search_step_idx in H. lia.
Qed.

Variables (min0 max0 : Q).

Local Abbreviation Inv := (search_invariant X dt delta_soc vehicle min0 max0).

Lemma pow2_le (k n : nat) : (k <= n)%nat -> pow2 k <= pow2 n.
Proof.
  induction 1 as [|n Hkn IH]; [lra|]. cbn [pow2].
  pose proof (pow2_pos n). lra.
Qed.

(** A round that the loop condition allows keeps the invariant. *)
Lemma search_step_invariant (st : Search) :
  Inv st -> search_continues X iterations st = true -> Inv (step st).
Proof.
  intros [Hv Hw (Hb1 & Hb2 & Hb3) Hmax Hmin Hlast Hcount] Hc.
  apply andb_true_iff in Hc as [_ Hwide]. apply Qlt_bool_iff in Hwide.
  assert (Hcount' : forall k, max0 - min0 <= EPS X * pow2 k -> (S (s_idx st) <= k)%nat).
  { intros k Hk. destruct (le_lt_dec k (s_idx st)) as [Hle|]; [|lia].
    exfalso. pose proof (halved_within k (s_idx st) _ _ eps_pos Hk Hle). lra. }
  pose proof (search_step_vehicle st Hv) as Hv'.
  revert Hv'. unfold search_step. rewrite Hv.
  fold (simulated_charge X (battery vehicle) dt
          ((s_max_power st + s_min_power st) / 2)).
  set (power := (s_max_power st + s_min_power st) / 2).
  assert (Hp : power == (s_max_power st + s_min_power st) * (1 # 2))
    by apply Qhalf.
  destruct (Qlt_bool (EPS X) (delta_soc - simulated_charge X (battery vehicle) dt power))
    eqn:E; cbn [s_vehicle]; intros Hv'.
  - apply Qlt_bool_iff in E.
    split; cbn [s_vehicle s_idx s_safe s_min_power s_max_power s_power s_charged_soc halved];
      try done.
    + rewrite <- Hw, Qhalf. lra.
    + lra.
    + by right.
    + right. split; [done|]. right. done.
  - apply Qlt_bool_false_iff in E.
    split; cbn [s_vehicle s_idx s_safe s_min_power s_max_power s_power s_charged_soc halved];
      try done.
    + rewrite <- Hw, Qhalf. lra.
    + lra.
    + by right.
    + right. split; [done|]. left. done.
Qed.

(** The loop stops, with the invariant, once the fuel covers the
    halvings that are left. *)
Lemma search_loop_invariant (fuel : nat) (st : Search) :
  Inv st ->
  s_max_power st - s_min_power st <= EPS X * pow2 fuel ->
  exists st', loop fuel st = Some st' /\ Inv st'.
Proof.
  revert st. induction fuel as [|fuel IH]; intros st HI Hfuel;
    cbn [search_loop]; destruct (search_continues X iterations st) eqn:Hc;
    try (by exists st).
  - exfalso. apply andb_true_iff in Hc as [_ Hwide].
    apply Qlt_bool_iff in Hwide. cbn [pow2] in Hfuel. lra.
  - apply IH; [by apply search_step_invariant|].
    pose proof (inv_width _ _ _ _ _ _ _ (search_step_invariant st HI Hc)) as Hw'.
    pose proof (inv_width _ _ _ _ _ _ _ HI) as Hw.
    assert (Hidx : s_idx (step st) = S (s_idx st)).
    { unfold search_step. by destruct (Qlt_bool _ _). }
    rewrite Hw', Hidx. cbn [halved pow2] in *. rewrite Qhalf. lra.
Qed.

(** From its start the loop stops: at once when the interval is within
    the tolerance, and with the invariant otherwise. *)
Lemma search_from_start (st0 : Search) :
  s_idx st0 = 0%nat -> s_safe st0 = false -> s_vehicle st0 = vehicle ->
  s_min_power st0 = min0 -> s_max_power st0 = max0 ->
  exists (st : Search) (fuel0 : nat),
    (forall fuel, (fuel0 <= fuel)%nat -> loop fuel st0 = Some st)
    /\ s_vehicle st = vehicle
    /\ search_continues X iterations st = false
    /\ (max0 - min0 <= EPS X -> st = st0)
    /\ (EPS X < max0 - min0 -> Inv st /\ (0 < s_idx st)%nat).
Proof.
  intros Hidx Hsafe Hv Hmin Hmax.
  destruct (Qlt_le_dec (EPS X) (max0 - min0)) as [Hwide|Hnarrow].
  - assert (HI : Inv st0).
    { split.
      - done.
      - rewrite Hidx, Hmin, Hmax. cbn [halved]. reflexivity.
      - rewrite Hmin, Hmax. lra.
      - by left.
      - by left.
      - by left.
      - intros k _. lia. }
    destruct (enough_halvings (max0 - min0) (EPS X) eps_pos) as [fuel0 Hfuel0].
    destruct (search_loop_invariant fuel0 st0 HI) as (st & Hloop & HI').
    { by rewrite Hmin, Hmax. }
    exists st, fuel0. split; [|split; [|split; [|split]]].
    + intros fuel Hfuel. by apply (search_loop_more_fuel fuel0).
    + by destruct HI'.
    + by apply (search_loop_stops fuel0 st0).
    + intros. lra.
    + intros _. split; [done|].
      assert (Hc : search_continues X iterations st0 = true).
      { unfold search_continues. apply andb_true_iff. split.
        - apply orb_true_iff. right. by rewrite Hsafe.
        - apply Qlt_bool_iff. by rewrite Hmin, Hmax. }
      destruct fuel0 as [|fuel0]; cbn [search_loop] in Hloop;
        rewrite Hc in Hloop; [done|].
      apply search_loop_idx in Hloop. rewrite search_step_idx in Hloop. lia.
  - assert (Hc : search_continues X iterations st0 = false).
    { unfold search_continues. apply andb_false_iff. right.
      apply Qlt_bool_false_iff. by rewrite Hmin, Hmax. }
    exists st0, 0%nat. split; [|split; [|split; [|split]]]; try done.
    + intros fuel _. destruct fuel; cbn [search_loop]; by rewrite Hc.
    + intros. lra.
Qed.

End SearchLoop.

Section BalancedChargingResult.

Import Schedule.
Open Scope Q_scope.

(** C1 (as amended). For a connected vehicle whose required SOC delta
    exceeds [EPS], with [EPS > 0] and a battery whose [load] changes
    nothing but the SOC, [sim_balanced_charging] returns, the vehicle
    unchanged, after no more rounds than halvings of [max_power - min_power]
    are needed to reach [EPS]. When the interval is not wider than [EPS]
    at the start there is no round and the result is power 0 and charge 0.
    Otherwise the result is the last midpoint tried, within
    [min_power, max_power], with the SOC charged by that power over [dt];
    the search ends either on the too-much side (the charge reaches the
    delta up to [EPS], the power is the upper end of the interval, and
    [ITERATIONS] rounds were made or the interval is within [EPS]) or on
    the not-enough side with the interval within [EPS]; the upper end of
    the interval is the initial ceiling or a power found sufficient, the
    lower end the initial floor or a power found insufficient. So when the
    ceiling suffices, the returned power is at most [EPS] below a
    sufficient power. *)
Theorem sim_balanced_charging_search (X : Externals) (self : ScheduleState)
    (vehicle : Vehicle) (dt : Z) (max_power : Q) (delta_soc : option Q)
    (cs_id : string) (cs : ChargingStation) :
  (forall b dt mp ts tp, set_soc (soc b) (battery_load X b dt mp ts tp).1 = b) ->
  0 < EPS X ->
  connected_charging_station vehicle = Some cs_id ->
  charging_stations (world_state self) !! cs_id = Some cs ->
  let delta := default (get_delta_soc vehicle) delta_soc in
  EPS X < delta ->
  let start := search_start X vehicle cs max_power in
  let min0 := s_min_power start in
  let max0 := s_max_power start in
  let charge := simulated_charge X (battery vehicle) dt in
  exists (st : Search) (fuel0 : nat),
    (forall fuel, (fuel0 <= fuel)%nat ->
       sim_balanced_charging X self fuel vehicle dt max_power delta_soc
       = Some (Ok (Some {| opt_power := s_power st;
                           charged_soc := s_charged_soc st |}, vehicle)))
    /\ (forall k, max0 - min0 <= EPS X * pow2 k -> (s_idx st <= k)%nat)
    /\ (max0 - min0 <= EPS X ->
        s_idx st = 0%nat /\ s_power st = 0 /\ s_charged_soc st = 0)
    /\ (EPS X < max0 - min0 ->
        (0 < s_idx st)%nat
        /\ min0 <= s_power st <= max0
        /\ s_charged_soc st = charge (s_power st)
        /\ s_max_power st - s_min_power st == halved (s_idx st) (max0 - min0)
        /\ ((s_safe st = true /\ s_power st = s_max_power st
             /\ delta - s_charged_soc st <= EPS X
             /\ ((ITERATIONS self <= s_idx st)%nat
                 \/ s_max_power st - s_min_power st <= EPS X))
            \/ (s_safe st = false /\ s_power st = s_min_power st
                /\ EPS X < delta - s_charged_soc st
                /\ s_max_power st - s_min_power st <= EPS X))
        /\ (s_max_power st = max0 \/ delta - charge (s_max_power st) <= EPS X)
        /\ (s_min_power st = min0 \/ EPS X < delta - charge (s_min_power st))
        /\ (delta - charge max0 <= EPS X ->
            delta - charge (s_max_power st) <= EPS X
            /\ s_power st <= s_max_power st <= s_power st + EPS X)).
Proof.
  intros Hframe Heps Hcs Hst delta Hdelta start min0 max0 charge.
  assert (Hsim : forall fuel,
    sim_balanced_charging X self fuel vehicle dt max_power delta_soc
    = match search_loop X (ITERATIONS self) dt delta (soc (battery vehicle))
              fuel start with
      | None => None
      | Some st => Some (Ok (Some {| opt_power := s_power st;
                                     charged_soc := s_charged_soc st |},
                             s_vehicle st))
      end).
  { intros fuel. unfold sim_balanced_charging. rewrite Hcs, Hst.
    fold delta. apply Qlt_bool_iff in Hdelta. by rewrite Hdelta. }
  destruct (search_from_start X Hframe Heps (ITERATIONS self) dt delta vehicle
              min0 max0 start) as (st & fuel0 & Hloop & Hv & Hstop & Hnarrow & Hwide);
    try done.
  exists st, fuel0. split; [|split; [|split]].
  - intros fuel Hfuel. by rewrite Hsim, (Hloop fuel Hfuel), Hv.
  - intros k Hk. destruct (Qlt_le_dec (EPS X) (max0 - min0)) as [Hw|Hn].
    + destruct (Hwide Hw) as [HI _]. by apply (inv_count _ _ _ _ _ _ _ HI).
    + rewrite (Hnarrow Hn). cbn. lia.
  - intros Hn. by rewrite (Hnarrow Hn).
  - intros Hw. destruct (Hwide Hw) as [HI Hpos].
    destruct HI as [_ Hwidth (Hb1 & Hb2 & Hb3) Hmax Hmin Hlast Hcount].
    destruct Hlast as [H0|[Hch Hlast]]; [lia|].
    assert (Hexit : ((ITERATIONS self <= s_idx st)%nat /\ s_safe st = true)
                    \/ s_max_power st - s_min_power st <= EPS X).
    { unfold search_continues in Hstop.
      apply andb_false_iff in Hstop as [Hstop|Hstop].
      - left. apply orb_false_iff in Hstop as [Hi Hs].
        apply Nat.ltb_ge in Hi. apply negb_false_iff in Hs. done.
      - right. by apply Qlt_bool_false_iff in Hstop. }
    split; [done|]. split.
    { destruct Hlast as [(_ & -> & _)|(_ & -> & _)]; lra. }
    split; [done|]. split; [done|]. split.
    { destruct Hlast as [(Hs & Hp & Hd)|(Hs & Hp & Hd)].
      - left. repeat split; try done.
        destruct Hexit as [[? _]|?]; [by left|by right].
      - right. repeat split; try done.
        destruct Hexit as [[_ ?]|?]; [congruence|done]. }
    split; [done|]. split; [done|].
    intros Hfeasible.
    assert (Hsuff : delta - charge (s_max_power st) <= EPS X).
    { destruct Hmax as [->|]; done. }
    split; [done|].
    destruct Hlast as [(Hs & Hp & Hd)|(Hs & Hp & Hd)]; rewrite Hp.
    + lra.
    + destruct Hexit as [[_ ?]|?]; [congruence|lra].
Qed.

End BalancedChargingResult.

Section BalancedChargingRuns.

Import Schedule ScheduleExamples.
Open Scope Q_scope.

Lemma linear_load_changes_soc_only b dt mp ts tp :
  set_soc (soc b) (linear_load b dt mp ts tp).1 = b.
Proof. by destruct b. Qed.

Lemma linear_unload_changes_soc_only b dt mp ts tp :
  set_soc (soc b) (linear_unload b dt mp ts tp).1 = b.
Proof. by destruct b. Qed.

Lemma sim_balanced_charging_search_witness :
  0 < EPS externals
  /\ connected_charging_station car = Some "CS1"
  /\ charging_stations (world_state schedule) !! "CS1" = Some station
  /\ EPS externals < default (get_delta_soc car) None
  /\ exists (st : Search) (fuel0 : nat),
       (forall fuel, (fuel0 <= fuel)%nat ->
          sim_balanced_charging externals schedule fuel car (4 * hour) (11 # 1) None
          = Some (Ok (Some {| opt_power := s_power st;
                              charged_soc := s_charged_soc st |}, car)))
       /\ (forall k,
             s_max_power (search_start externals car station (11 # 1))
             - s_min_power (search_start externals car station (11 # 1))
             <= EPS externals * pow2 k -> (s_idx st <= k)%nat).
Proof.
  split; [reflexivity|]. split; [reflexivity|]. split; [reflexivity|].
  split; [reflexivity|].
  destruct (sim_balanced_charging_search externals schedule car (4 * hour)
              (11 # 1) None "CS1" station linear_load_changes_soc_only
              eq_refl eq_refl eq_refl eq_refl)
    as (st & fuel0 & H1 & H2 & _).
  exists st, fuel0. split; [exact H1|exact H2].
Defined.

(** C1, as stated, fails: a car that needs 0.3 of its 40 kWh within one
    hour behind an 11 kW station gets 0.275 at best; every round of the
    search is on the not-enough side and so is the result. *)
Lemma sim_balanced_charging_falls_short :
  exists b : Balanced,
    sim_balanced_charging externals schedule 30 car hour (11 # 1) None
    = Some (Ok (Some b, car))
    /\ connected_charging_station car = Some "CS1"
    /\ EPS externals < get_delta_soc car
    /\ EPS externals < get_delta_soc car - charged_soc b.
Proof.
  eexists. split; [vm_compute; reflexivity|].
  repeat split.
Qed.

(** The scenario of the specification: 0.3 over four hours. The search
    ends after 13 rounds on the too-much side, at about 3.001 kW. *)
Example sim_balanced_charging_four_hours :
  exists b : Balanced,
    sim_balanced_charging externals schedule 30 car (4 * hour) (11 # 1) None
    = Some (Ok (Some b, car))
    /\ opt_power b == 24585 # 8192
    /\ charged_soc b == 4917 # 16384
    /\ get_delta_soc car <= charged_soc b
    /\ charged_soc b - get_delta_soc car <= 2 # 10000.
Proof.
  eexists. split; [vm_compute; reflexivity|].
  repeat split; vm_compute; congruence.
Qed.

(** A ceiling that just suffices is not enough for a result on the
    too-much side: for a 1 kWh battery over four hours, 0.075 kW gives the
    0.3 wanted, but only powers within 2.5e-6 kW of it do, and the
    interval is within [EPS] before the search finds one. *)
Example sim_balanced_charging_narrow_margin :
  let small := set_battery
                 {| capacity := 1; soc := 1 # 2; efficiency := 1;
                    loading_curve_max_power := 11 # 1;
                    unloading_curve_max_power := 11 # 1;
                    min_charging_power := 0; parent := "" |} car in
  exists b : Balanced,
    sim_balanced_charging externals schedule 30 small (4 * hour) (75 # 1000) None
    = Some (Ok (Some b, small))
    /\ get_delta_soc small
       - simulated_charge externals (battery small) (4 * hour) (75 # 1000)
       <= EPS externals
    /\ EPS externals < get_delta_soc small - charged_soc b
    /\ (75 # 1000) - opt_power b <= EPS externals.
Proof.
  eexists. split; [vm_compute; reflexivity|].
  repeat split; vm_compute; congruence.
Qed.

End BalancedChargingRuns.

(** ** Simulations leave the vehicles as they were *)

Section SaveAndRestore.

Import Schedule.
Open Scope Q_scope.

Variable X : Externals.
Hypothesis load_frame : forall b dt mp ts tp,
  set_soc (soc b) (battery_load X b dt mp ts tp).1 = b.

Lemma estimate_extra_energy_of_vehicle (self : ScheduleState) (TS : Z)
    (vehicle v' : Vehicle) (e : option Q) :
  estimate_extra_energy_of X self TS vehicle = Ok (v', e) -> v' = vehicle.
Proof.
  unfold estimate_extra_energy_of.
  destruct (connected_charging_station vehicle) as [cs_id|].
  - destruct (getitem _ cs_id) as [cs|]; cbn; [|done].
    intros [= <- _]. unfold set_battery_soc. cbn.
    rewrite load_frame. by destruct vehicle.
  - destruct (warn_core_standing_time self); [|done]. by intros [= <- _].
Qed.

Lemma estimate_extra_energy_loop_vehicles (self : ScheduleState) (TS : Z)
    (items : list (string * Vehicle)) :
  forall (vehicles vehicles' : gmap string Vehicle) (extra extra' : gmap string Q),
    (forall id v, (id, v) ∈ items -> vehicles !! id = Some v) ->
    estimate_extra_energy_loop X self TS items vehicles extra
    = Ok (vehicles', extra') ->
    vehicles' = vehicles.
Proof.
  induction items as [|[id v] rest IH]; intros vehicles vehicles' extra extra' Hin;
    cbn [estimate_extra_energy_loop].
  - by intros [= <- _].
  - destruct (estimate_extra_energy_of X self TS v) as [[v' e]|] eqn:E; cbn;
      [|done].
    apply estimate_extra_energy_of_vehicle in E as ->.
    rewrite (insert_id vehicles id v) by (apply Hin; apply elem_of_cons; by left).
    apply IH. intros id' v'' Hin'. apply Hin. apply elem_of_cons. by right.
Qed.

(** C10. With a battery whose [load] changes nothing but the SOC and
    [EPS > 0], [sim_balanced_charging] returns for every vehicle, and the
    vehicle it leaves is the vehicle it was given; the loop of
    [evaluate_core_standing_time_ahead] that simulates a charge for every
    vehicle leaves the vehicles as they were. *)
Theorem simulations_restore_soc (self : ScheduleState) :
  0 < EPS X ->
  (forall (vehicle : Vehicle) (dt : Z) (max_power : Q) (delta_soc : option Q),
     exists (fuel0 : nat) (r : result (option Balanced * Vehicle)),
       (forall fuel, (fuel0 <= fuel)%nat ->
          sim_balanced_charging X self fuel vehicle dt max_power delta_soc = Some r)
       /\ forall b v', r = Ok (b, v') -> v' = vehicle)
  /\ (forall (TS_to_charge_vehicles : Z) vehicles' extra,
        estimate_extra_energy X self TS_to_charge_vehicles = Ok (vehicles', extra) ->
        vehicles' = vehicles (world_state self)).
Proof.
  intros Heps. split.
  - intros vehicle dt max_power delta_soc. unfold sim_balanced_charging.
    destruct (connected_charging_station vehicle) as [cs_id|].
    2: { exists 0%nat, (Ok (None, vehicle)). split; [done|]. by intros ?? [= _ <-]. }
    destruct (charging_stations (world_state self) !! cs_id) as [cs|].
    2: { exists 0%nat, (Raise KeyError). split; done. }
    destruct (Qlt_bool _ _).
    2: { eexists 0%nat, (Ok (_, vehicle)). split; [done|]. by intros ?? [= _ <-]. }
    destruct (search_from_start X load_frame Heps (ITERATIONS self) dt
                (default (get_delta_soc vehicle) delta_soc) vehicle
                (s_min_power (search_start X vehicle cs max_power))
                (s_max_power (search_start X vehicle cs max_power))
                (search_start X vehicle cs max_power))
      as (st & fuel0 & Hloop & Hv & _); try done.
    eexists fuel0, (Ok (_, s_vehicle st)). split.
    + intros fuel Hfuel. by rewrite (Hloop fuel Hfuel).
    + by intros ?? [= _ <-].
  - intros TS vehicles' extra. unfold estimate_extra_energy.
    apply estimate_extra_energy_loop_vehicles.
    intros id v Hin. by apply elem_of_map_to_list.
Qed.

End SaveAndRestore.

Lemma simulations_restore_soc_witness :
  (0 < Schedule.EPS ScheduleExamples.externals)%Q
  /\ (exists (fuel0 : nat) r,
        (forall fuel, (fuel0 <= fuel)%nat ->
           Schedule.sim_balanced_charging ScheduleExamples.externals
             ScheduleExamples.schedule fuel ScheduleExamples.car
             (4 * ScheduleExamples.hour) (11 # 1) None = Some r)
        /\ forall b v', r = Ok (b, v') -> v' = ScheduleExamples.car)
  /\ (forall vehicles' extra,
        Schedule.estimate_extra_energy ScheduleExamples.externals
          ScheduleExamples.schedule 8 = Ok (vehicles', extra) ->
        vehicles' = Schedule.vehicles (Schedule.world_state ScheduleExamples.schedule)).
Proof.
  pose proof (simulations_restore_soc ScheduleExamples.externals
                linear_load_changes_soc_only ScheduleExamples.schedule eq_refl)
    as [H1 H2].
  split; [reflexivity|]. split.
  - exact (H1 ScheduleExamples.car (4 * ScheduleExamples.hour)%Z (11 # 1)%Q None).
  - exact (H2 8%Z).
Defined.

(** The hypothetical charge on the example: the car would reach its
    desired SOC, so nothing is left to charge off schedule, and the car is
    as it was. *)
Example estimate_extra_energy_run :
  Schedule.estimate_extra_energy ScheduleExamples.externals
    ScheduleExamples.schedule 8
  = Ok (Schedule.vehicles ScheduleExamples.world, {[ "V1" := 0%Q ]}).
Proof. vm_compute. reflexivity. Qed.

(** ** Stationary batteries *)

Section StationaryBatteries.

Import Schedule.
Open Scope Q_scope.

Lemma sum_loads_insert (loads : gmap string Q) (key : string) (value : Q) :
  loads !! key = None ->
  sum_loads (<[key := value]> loads) == sum_loads loads + value.
Proof.
  intros Hnone. unfold sum_loads.
  apply (map_fold_insert Qeq (fun _ value acc => acc + value) 0 key value loads);
    [|intros; ring|done].
  intros _ z x y Hxy. by rewrite Hxy.
Qed.

Lemma sum_loads_delete (loads : gmap string Q) (key : string) (old : Q) :
  loads !! key = Some old ->
  sum_loads loads == sum_loads (delete key loads) + old.
Proof.
  intros Hsome. unfold sum_loads.
  apply (map_fold_delete Qeq (fun _ value acc => acc + value) 0 key old loads);
    [|intros; ring|done].
  intros _ z x y Hxy. by rewrite Hxy.
Qed.

(** [add_load] raises the connector's load by the value added and
    touches neither its limit nor its target. *)
Lemma add_load_current_load (key : string) (value : Q) (gc : GridConnector) :
  get_current_load (add_load key value gc).1 == get_current_load gc + value
  /\ cur_max_power (add_load key value gc).1 = cur_max_power gc
  /\ target (add_load key value gc).1 = target gc.
Proof.
  split; [|done]. unfold add_load, get_current_load. cbn.
  destruct (current_loads gc !! key) as [old|] eqn:E.
  - rewrite <- insert_delete_eq.
    rewrite sum_loads_insert by apply lookup_delete_eq.
    rewrite (sum_loads_delete _ key old E). ring.
  - by apply sum_loads_insert.
Qed.

Variable X : Externals.
Hypothesis load_power_bounds : forall b dt p ts,
  0 <= avg_power (battery_load X b dt (Some p) ts None).2 <= Qmax 0 p.
Hypothesis unload_power_bounds : forall b dt p ts,
  0 <= avg_power (battery_unload X b dt None ts (Some p)).2 <= Qmax 0 p.
Hypothesis eps_nonneg : 0 <= EPS X.

(** One round of the loop for a connector with a target and a limit:
    what the battery adds to the connector. *)
Lemma utilize_battery_spec (self : ScheduleState) (bid : string)
    (battery : Battery) (gc : GridConnector) (T M : Q) :
  target gc = Some T -> cur_max_power gc = Some M ->
  let L := get_current_load gc in
  exists (battery' : Battery) (bat_power : Q),
    utilize_battery X self bid battery gc
    = Ok (battery', (add_load bid bat_power gc).1, Some bat_power)
    /\ (EPS X < T - L ->
        0 <= bat_power <= T - L
        /\ (T - L < min_charging_power battery -> bat_power == 0))
    /\ (T - L < - EPS X -> - (L - T) <= bat_power <= 0)
    /\ (- EPS X <= T - L <= EPS X -> bat_power = 0)
    /\ Qmin L (- M) <= L + bat_power <= Qmax L M.
Proof.
  intros HT HM L. unfold utilize_battery. rewrite HT, HM. fold L.
  destruct (Qlt_bool (T - L) (- EPS X)) eqn:E1.
  - apply Qlt_bool_iff in E1.
    pose proof (unload_power_bounds battery (interval self)
                  (Qmin (- (T - L)) (M + L)) 0) as Hb.
    eexists _, _. split; [reflexivity|].
    set (avg := avg_power _) in *. clearbody avg.
    split; [intros; lra|]. split; [|split; [intros; lra|]].
    + intros _. minmax_lra.
    + minmax_lra.
  - apply Qlt_bool_false_iff in E1.
    destruct (Qlt_bool (EPS X) (T - L)) eqn:E2.
    + apply Qlt_bool_iff in E2.
      destruct (Qlt_bool (Qmin (T - L) (M - L)) (min_charging_power battery)) eqn:E3.
      * pose proof (load_power_bounds battery (interval self) 0 1) as Hb.
        eexists _, _. split; [reflexivity|].
        set (avg := avg_power _) in *. clearbody avg.
        assert (Havg : avg == 0) by minmax_lra.
        split; [intros _; split; [lra|intros; done]|].
        split; [intros; lra|]. split; [intros; lra|].
        minmax_lra.
      * apply Qlt_bool_false_iff in E3.
        pose proof (load_power_bounds battery (interval self)
                      (Qmin (T - L) (M - L)) 1) as Hb.
        eexists _, _. split; [reflexivity|].
        set (avg := avg_power _) in *. clearbody avg.
        split; [intros _; split; [minmax_lra|intros; minmax_lra]|].
        split; [intros; lra|]. split; [intros; lra|].
        minmax_lra.
    + apply Qlt_bool_false_iff in E2.
      eexists _, _. split; [reflexivity|].
      split; [intros; lra|]. split; [intros; lra|]. split; [done|].
      minmax_lra.
Qed.

Lemma kept_within_limit_refl (gc : GridConnector) : kept_within_limit gc gc.
Proof.
  repeat split; try done; minmax_lra.
Qed.

Lemma kept_within_limit_trans (gc1 gc2 gc3 : GridConnector) :
  kept_within_limit gc1 gc2 -> kept_within_limit gc2 gc3 ->
  kept_within_limit gc1 gc3.
Proof.
  intros (Hm1 & Ht1 & Hl1 & Hs1) (Hm2 & Ht2 & Hl2 & Hs2).
  split; [congruence|]. split; [congruence|]. split.
  - intros M HM. specialize (Hl1 M HM).
    rewrite <- Hm1 in HM. specialize (Hl2 M HM).
    revert Hl1 Hl2.
    generalize (get_current_load gc1) (get_current_load gc2)
               (get_current_load gc3).
    intros L1 L2 L3 Hl1 Hl2. split; minmax_lra.
  - intros Hn. rewrite <- (Hs1 Hn). apply Hs2. rewrite (Hs1 Hn). done.
Qed.

(** One round keeps the connector within its limit. *)
Lemma utilize_battery_kept (self : ScheduleState) (bid : string)
    (battery : Battery) (gc : GridConnector) :
  target gc = None \/ is_Some (cur_max_power gc) ->
  exists battery' gc' p,
    utilize_battery X self bid battery gc = Ok (battery', gc', p)
    /\ kept_within_limit gc gc'.
Proof.
  intros Hok. destruct (target gc) as [T|] eqn:HT.
  - destruct Hok as [|[M HM]]; [done|].
    destruct (utilize_battery_spec self bid battery gc T M HT HM)
      as (battery' & bat_power & -> & _ & _ & _ & Hb).
    eexists _, _, _. split; [done|].
    destruct (add_load_current_load bid bat_power gc) as (Hl & Hm & Ht).
    split; [done|]. split; [done|]. split.
    + intros M' HM'. rewrite HM in HM'. injection HM' as <-.
      rewrite Hl. done.
    + intros Hn. congruence.
  - unfold utilize_battery. rewrite HT. eexists _, _, _. split; [done|].
    apply kept_within_limit_refl.
Qed.

(** The loop over the batteries returns when every battery stands at a
    connector that has a limit or no target, and keeps every connector
    within its limit. *)
Lemma utilize_loop_spec (self : ScheduleState) (items : list (string * Battery)) :
  forall w : WorldState,
    (forall bid b, (bid, b) ∈ items ->
       exists gc, grid_connectors w !! parent b = Some gc
                  /\ (target gc = None \/ is_Some (cur_max_power gc))) ->
    exists w',
      utilize_loop X self items w = Ok w'
      /\ forall name gc,
           grid_connectors w !! name = Some gc ->
           exists gc', grid_connectors w' !! name = Some gc'
                       /\ kept_within_limit gc gc'.
Proof.
  induction items as [|[bid b] rest IH]; intros w Hpre; cbn [utilize_loop].
  - exists w. split; [done|]. intros name gc Hgc. exists gc.
    split; [done|apply kept_within_limit_refl].
  - destruct (Hpre bid b) as (gc & Hgc & Hok); [apply elem_of_cons; by left|].
    unfold getitem. rewrite Hgc. cbn.
    destruct (utilize_battery_kept self bid b gc Hok)
      as (b' & gc' & p & -> & Hkept). cbn.
    set (w1 := set_connector (parent b) gc' (set_stationary_battery bid b' w)).
    destruct (IH w1) as (w' & -> & Hall).
    { intros bid2 b2 Hin.
      destruct (Hpre bid2 b2) as (gc2 & Hgc2 & Hok2);
        [apply elem_of_cons; by right|].
      unfold w1. cbn.
      destruct (decide (parent b = parent b2)) as [Heq|Hne].
      - rewrite <- Heq, lookup_insert_eq. exists gc'. split; [done|].
        rewrite <- Heq, Hgc in Hgc2. injection Hgc2 as <-.
        destruct Hkept as (Hm & Ht & _). rewrite Hm, Ht. done.
      - rewrite lookup_insert_ne by done. eauto. }
    exists w'. split; [done|].
    intros name gc0 Hgc0.
    destruct (decide (parent b = name)) as [<-|Hne].
    + rewrite Hgc in Hgc0. injection Hgc0 as <-.
      destruct (Hall (parent b) gc') as (gc'' & Hl & Hk).
      { unfold w1. cbn. by rewrite lookup_insert_eq. }
      exists gc''. split; [done|]. by apply (kept_within_limit_trans gc gc').
    + apply Hall. unfold w1. cbn. by rewrite lookup_insert_ne.
Qed.


End StationaryBatteries.

(** ** The battery of the examples meets the contract *)

Section LinearBattery.

Import Schedule ScheduleExamples.
Open Scope Q_scope.

Local Ltac name_quotients :=
  repeat match goal with
  | |- context [Qdiv ?a ?b] =>
      let q := fresh "q" in remember (Qdiv a b) as q eqn:Hq; clear Hq
  end.

Lemma linear_battery_contract : BatteryContract externals.
Proof.
  split; cbn [battery_load battery_unload externals].
  - apply linear_load_changes_soc_only.
  - apply linear_unload_changes_soc_only.
  - intros b dt mp ts tp Hsoc. unfold linear_load. cbn [fst soc set_soc].
    name_quotients. minmax_lra.
  - intros b dt mp ts tp Hsoc. unfold linear_unload. cbn [fst soc set_soc].
    name_quotients. minmax_lra.
  - intros b dt mp ts tp. unfold linear_unload. cbn [fst soc set_soc].
    name_quotients. split; minmax_lra.
  - intros b dt p ts. unfold linear_load. cbn [snd avg_power from_option id].
    name_quotients. split; minmax_lra.
  - intros b dt p ts. unfold linear_unload. cbn [snd avg_power].
    name_quotients. split; minmax_lra.
Qed.

End LinearBattery.


(** The pass on the example: the building draws 30 kW, the target is
    50 kW, the battery takes the 20 kW in between. *)
Example utilize_stationary_batteries_run :
  exists w',
    Schedule.utilize_stationary_batteries ScheduleExamples.externals
      ScheduleExamples.schedule = Ok w'
    /\ (Schedule.grid_connectors w' !! "GC1"
          ≫= fun gc => Schedule.current_loads gc !! "BAT1") = Some (20 # 1)%Q
    /\ (Schedule.get_current_load <$> Schedule.grid_connectors w' !! "GC1")
       = Some (50 # 1)%Q.
Proof.
  eexists. split; [vm_compute; reflexivity|].
  split; vm_compute; reflexivity.
Qed.

(** ** The state of charge across a step *)

Section SocAcrossStep.

Import World.
Open Scope Q_scope.

Lemma setattr_soc (v : Vehicle) (u : FieldUpdate) : soc (setattr v u) = soc v.
Proof. by destruct u. Qed.

Lemma apply_update_soc (update : list FieldUpdate) (v : Vehicle) :
  soc (apply_update update v) = soc v.
Proof.
  unfold apply_update. revert v.
  induction update as [|u rest IH]; intros v; cbn; [done|].
  by rewrite IH, setattr_soc.
Qed.

Lemma apply_update_soc_delta (update : list FieldUpdate) (v : Vehicle) (d : Q) :
  soc_delta (apply_update update v) = Some d ->
  soc_delta v = Some d \/ SetSocDelta d ∈ update.
Proof.
  unfold apply_update. revert v.
  induction update as [|u rest IH]; intros v; cbn; [by left|].
  intros H. apply IH in H as [H|H].
  - destruct u; cbn in H; try (by left).
    right. injection H as <-. apply elem_of_cons. by left.
  - right. apply elem_of_cons. by right.
Qed.

(** What a vehicle event does to the SOC in netz_elog's stepper: nothing,
    except on arrival, where the [soc_delta] that the vehicle holds after
    the update is added and forgotten, and the sum is not negative. *)
Lemma netz_vehicle_event_soc (margin : Q) (event_type : string)
    (update : list FieldUpdate) (v v' : Vehicle) :
  NetzElog.apply_vehicle_event margin event_type update v = Ok v' ->
  (soc v' = soc v /\ soc_delta v' = soc_delta (apply_update update v))
  \/ (event_type = "arrival"
      /\ exists d, soc_delta (apply_update update v) = Some d
                   /\ soc v' = soc v + d /\ 0 <= soc v' /\ soc_delta v' = None).
Proof.
  unfold NetzElog.apply_vehicle_event.
  destruct (decide (event_type = "departure")).
  - destruct (Qle_bool _ _); cbn; [|done]. intros [= <-]. left. cbn.
    by rewrite apply_update_soc.
  - destruct (decide (event_type = "arrival")) as [->|].
    + destruct (negb _); cbn; [|done].
      destruct (soc_delta (apply_update update v)) as [d|] eqn:Ed; [|done].
      destruct (Qle_bool 0 _) eqn:El; cbn; [|done].
      intros [= <-]. right. split; [done|]. exists d. cbn.
      rewrite apply_update_soc in *. apply Qle_bool_iff in El. done.
    + intros [= <-]. left. by rewrite apply_update_soc.
Qed.

(** An arrival adds the [soc_delta] that the vehicle holds after the
    update; the sum is not negative. *)
Lemma netz_vehicle_event_arrival (margin : Q) (update : list FieldUpdate)
    (v v' : Vehicle) :
  NetzElog.apply_vehicle_event margin "arrival" update v = Ok v' ->
  exists d, soc_delta (apply_update update v) = Some d
            /\ soc v' = soc v + d /\ 0 <= soc v'.
Proof.
  unfold NetzElog.apply_vehicle_event.
  destruct (decide ("arrival" = "departure")) as [?|_]; [done|].
  destruct (decide ("arrival" = "arrival")) as [_|?]; [|done].
  destruct (negb _); cbn; [|done].
  destruct (soc_delta (apply_update update v)) as [d|] eqn:Ed; [|done].
  destruct (Qle_bool 0 _) eqn:El; cbn; [|done].
  intros [= <-]. exists d. cbn. rewrite apply_update_soc in *.
  apply Qle_bool_iff in El. done.
Qed.

(** Any other vehicle event leaves the SOC as it is. *)
Lemma netz_vehicle_event_other (margin : Q) (event_type : string)
    (update : list FieldUpdate) (v v' : Vehicle) :
  event_type <> "arrival" ->
  NetzElog.apply_vehicle_event margin event_type update v = Ok v' ->
  soc v' = soc v.
Proof.
  intros Hne. unfold NetzElog.apply_vehicle_event.
  destruct (decide (event_type = "departure")).
  - destruct (Qle_bool _ _); cbn; [|done]. intros [= <-]. cbn.
    by rewrite apply_update_soc.
  - destruct (decide (event_type = "arrival")); [done|].
    intros [= <-]. by rewrite apply_update_soc.
Qed.

(** An arrival of a connected vehicle whose SOC would become negative
    aborts. *)
Lemma netz_arrival_negative (margin : Q) (t : Z) (id : string)
    (update : list FieldUpdate) (w : WorldState) (v : Vehicle) (d : Q) :
  vehicles w !! id = Some v ->
  connected_charging_station (apply_update update v) <> None ->
  soc_delta (apply_update update v) = Some d ->
  soc v + d < 0 ->
  NetzElog.apply_event margin (VehicleEvent t id "arrival" update) w
  = Raise NegativeSoc.
Proof.
  intros Hv Hc Hd Hneg. cbn. unfold getitem. rewrite Hv. cbn.
  unfold NetzElog.apply_vehicle_event.
  destruct (decide ("arrival" = "departure")) as [?|_]; [done|].
  destruct (decide ("arrival" = "arrival")) as [_|?]; [|done].
  destruct (connected_charging_station (apply_update update v)); [|done].
  cbn. rewrite Hd, apply_update_soc.
  destruct (Qle_bool 0 (soc v + d)) eqn:El; [|done].
  apply Qle_bool_iff in El. lra.
Qed.

(** One event and the SOC of one vehicle. *)
Lemma netz_apply_event_soc (margin : Q) (ev : Event) (w w' : WorldState) :
  NetzElog.apply_event margin ev w = Ok w' ->
  forall id v, vehicles w !! id = Some v ->
    exists v', vehicles w' !! id = Some v'
      /\ match arrival_of id ev with
         | Some update =>
             exists d, soc_delta (apply_update update v) = Some d
                       /\ soc v' = soc v + d /\ 0 <= soc v'
         | None => soc v' = soc v
         end.
Proof.
  destruct ev as [t g n q|t g n q|t g c m|t vid ty u|t]; cbn.
  - unfold getitem. destruct (grid_connectors w !! g); cbn; [|done].
    destruct (is_None_b _); cbn; [|done]. intros [= <-] id v Hv. by exists v.
  - destruct (is_None_b _); cbn; [|done].
    unfold getitem. destruct (grid_connectors w !! g); cbn; [|done].
    intros [= <-] id v Hv. by exists v.
  - unfold getitem. destruct (grid_connectors w !! g); cbn; [|done].
    intros [= <-] id v Hv. by exists v.
  - unfold getitem. destruct (vehicles w !! vid) as [v0|] eqn:Ev; cbn; [|done].
    destruct (NetzElog.apply_vehicle_event margin ty u v0) as [v0'|] eqn:E; cbn;
      [|done].
    intros [= <-] id v Hv. cbn.
    destruct (decide (vid = id)) as [->|Hne].
    + rewrite lookup_insert_eq. exists v0'. split; [done|].
      assert (v0 = v) as -> by congruence.
      destruct (decide (id = id /\ ty = "arrival")) as [[_ ->]|Hn].
      * by eapply netz_vehicle_event_arrival.
      * eapply netz_vehicle_event_other; [|done]. intros ->. by apply Hn.
    + rewrite lookup_insert_ne by done. exists v. split; [done|].
      destruct (decide (vid = id /\ ty = "arrival")) as [[? _]|_]; done.
  - done.
Qed.

(** Events among which there is no arrival of a vehicle leave its SOC as
    it is. *)
Lemma netz_apply_events_soc (margin : Q) (events : list Event) :
  forall (w w' : WorldState) id v,
    apply_events (NetzElog.apply_event margin) events w = Ok w' ->
    vehicles w !! id = Some v ->
    Forall (fun ev => arrival_of id ev = None) events ->
    exists v', vehicles w' !! id = Some v' /\ soc v' = soc v.
Proof.
  induction events as [|ev rest IH]; intros w w' id v; cbn.
  - intros [= <-] Hv _. by exists v.
  - destruct (NetzElog.apply_event margin ev w) as [w1|] eqn:E; cbn; [|done].
    intros Hrest Hv Hall. apply Forall_cons in Hall as [Hev Hall].
    destruct (netz_apply_event_soc _ _ _ _ E id v Hv) as (v1 & Hv1 & Hs1).
    rewrite Hev in Hs1.
    destruct (IH _ _ _ _ Hrest Hv1 Hall) as (v' & Hv' & Hs').
    exists v'. split; [done|]. congruence.
Qed.

Lemma netz_vehicle_event_keeps (margin : Q) (event_type : string)
    (update : list FieldUpdate) (v v' : Vehicle) :
  NetzElog.apply_vehicle_event margin event_type update v = Ok v' ->
  (0 <= soc v -> 0 <= soc v')
  /\ ((forall d, SetSocDelta d ∈ update -> d <= 0) ->
      soc_within v -> soc_within v').
Proof.
  intros H. apply netz_vehicle_event_soc in H as [[Hs Hd]|(_ & d & Hd & Hs & H0 & Hn)].
  - split; [by rewrite Hs|]. intros Hu [Hsoc Hdelta]. split; [by rewrite Hs|].
    intros d. rewrite Hd. intros Hd'.
    apply apply_update_soc_delta in Hd' as [?|?]; eauto.
  - split; [done|]. intros Hu [Hsoc Hdelta]. split.
    + assert (d <= 0).
      { apply apply_update_soc_delta in Hd as [?|?]; eauto. }
      rewrite Hs in *. lra.
    + intros d'. by rewrite Hn.
Qed.

(** One event keeps the SOC of every vehicle non-negative and, when it
    brings no positive [soc_delta], within [0, 1]. *)
Lemma netz_apply_event_keeps (margin : Q) (ev : Event) (w w' : WorldState) :
  NetzElog.apply_event margin ev w = Ok w' ->
  (map_Forall (fun _ v => 0 <= soc v) (vehicles w) ->
   map_Forall (fun _ v => 0 <= soc v) (vehicles w'))
  /\ (no_positive_soc_delta ev ->
      map_Forall (fun _ v => soc_within v) (vehicles w) ->
      map_Forall (fun _ v => soc_within v) (vehicles w')).
Proof.
  destruct ev as [t g n q|t g n q|t g c m|t id ty u|t]; cbn.
  - unfold getitem. destruct (grid_connectors w !! g); cbn; [|done].
    destruct (is_None_b _); cbn; [|done]. by intros [= <-].
  - destruct (is_None_b _); cbn; [|done].
    unfold getitem. destruct (grid_connectors w !! g); cbn; [|done].
    by intros [= <-].
  - unfold getitem. destruct (grid_connectors w !! g); cbn; [|done].
    by intros [= <-].
  - unfold getitem. destruct (vehicles w !! id) as [v|] eqn:Ev; cbn; [|done].
    destruct (NetzElog.apply_vehicle_event margin ty u v) as [v'|] eqn:E; cbn;
      [|done].
    intros [= <-]. cbn.
    destruct (netz_vehicle_event_keeps _ _ _ _ _ E) as [H1 H2]. split.
    + intros Hall. apply map_Forall_insert_2; [|done]. apply H1. by apply (Hall id v).
    + intros Hu Hall. apply map_Forall_insert_2; [|done].
      apply H2; [done|]. by apply (Hall id v).
  - done.
Qed.

Lemma netz_apply_events_keeps (margin : Q) (events : list Event) :
  forall w w' : WorldState,
    apply_events (NetzElog.apply_event margin) events w = Ok w' ->
    (map_Forall (fun _ v => 0 <= soc v) (vehicles w) ->
     map_Forall (fun _ v => 0 <= soc v) (vehicles w'))
    /\ (Forall no_positive_soc_delta events ->
        map_Forall (fun _ v => soc_within v) (vehicles w) ->
        map_Forall (fun _ v => soc_within v) (vehicles w')).
Proof.
  induction events as [|ev rest IH]; intros w w'; cbn.
  - by intros [= <-].
  - destruct (NetzElog.apply_event margin ev w) as [w1|] eqn:E; cbn; [|done].
    intros Hrest. destruct (netz_apply_event_keeps _ _ _ _ E) as [H1 H2].
    destruct (IH _ _ Hrest) as [H3 H4]. split.
    + intros H. by apply H3, H1.
    + intros Hall H. apply Forall_cons in Hall as [Hev Hrest'].
      by apply H4, H2.
Qed.

Lemma due_events_subseteq (now : Z) (queue : list Event) :
  due_events now queue ⊆ queue.
Proof.
  induction queue as [|ev rest IH]; cbn; [done|].
  destruct (decide _); [|apply list_subseteq_nil].
  intros x Hx. apply elem_of_cons in Hx as [->|Hx];
    apply elem_of_cons; [by left|right; by apply IH].
Qed.

(** A whole step of netz_elog's stepper. *)
Lemma netz_step_keeps_soc (self self' : Strategy) (event_list : list Event) :
  NetzElog.step self event_list = Ok self' ->
  (map_Forall (fun _ v => 0 <= soc v) (vehicles (world_state self)) ->
   map_Forall (fun _ v => 0 <= soc v) (vehicles (world_state self')))
  /\ (Forall no_positive_soc_delta
        (future_events (world_state self) ++ event_list) ->
      map_Forall (fun _ v => soc_within v) (vehicles (world_state self)) ->
      map_Forall (fun _ v => soc_within v) (vehicles (world_state self'))).
Proof.
  unfold NetzElog.step. rewrite run_due_events_spec.
  destruct (apply_events _ _ _) as [w|] eqn:E; cbn; [|done].
  pose proof (netz_finish_step_spec
                (set_future_events
                   (deferred_events (current_time self + interval self)
                      (sort_by_start_time
                         (future_events (world_state self) ++ event_list))) w))
    as Hfin.
  destruct (bool_decide _).
  - destruct Hfin as (w' & -> & _ & Hv & _). cbn. intros [= <-]. cbn.
    rewrite Hv. cbn.
    destruct (netz_apply_events_keeps _ _ _ _ E) as [H1 H2].
    split; [done|]. intros Hall. apply H2.
    apply Forall_forall. intros ev Hev.
    apply due_events_subseteq in Hev.
    rewrite Forall_forall in Hall. apply Hall.
    apply list_elem_of_In.
    apply (Permutation_in _ (sort_by_start_time_perm _)).
    by apply list_elem_of_In.
  - rewrite Hfin. done.
Qed.

(** A whole step, written with the due events and the closing loop. *)
Lemma netz_step_inv (self self' : Strategy) (event_list : list Event) :
  NetzElog.step self event_list = Ok self' ->
  let now := (current_time self + interval self)%Z in
  let queue :=
    sort_by_start_time (future_events (world_state self) ++ event_list) in
  exists w,
    apply_events (NetzElog.apply_event (margin self)) (due_events now queue)
      (world_state self) = Ok w
    /\ charging_stations (world_state self') = charging_stations w
    /\ vehicles (world_state self') = vehicles w
    /\ forall name,
         grid_connectors (world_state self') !! name
         = NetzElog.reset_connector (charging_stations w)
             <$> grid_connectors w !! name.
Proof.
  unfold NetzElog.step. rewrite run_due_events_spec.
  destruct (apply_events _ _ _) as [w|] eqn:E; cbn; [|done].
  pose proof (netz_finish_step_spec
                (set_future_events
                   (deferred_events (current_time self + interval self)
                      (sort_by_start_time
                         (future_events (world_state self) ++ event_list))) w))
    as Hfin.
  destruct (bool_decide _).
  - destruct Hfin as (w' & -> & Hs & Hv & Hg). cbn. intros [= <-]. cbn.
    exists w. done.
  - rewrite Hfin. done.
Qed.

End SocAcrossStep.

(** ** The two searches of the V2G pass *)

Section Bisect.

Import Schedule.
Open Scope Q_scope.

Variable X : Externals.
Hypothesis eps_pos : 0 < EPS X.

Context {S : Type}.
Variables (mid : Q -> Q -> Q) (body : Q -> S -> result (bool * S)).
Hypothesis mid_half : forall lo hi, mid lo hi == (lo + hi) / 2.

(** The loop stops once the fuel covers the halvings that are left. *)
Lemma bisect_terminates (fuel : nat) :
  forall (lo hi : Q) (last : option Q) (s : S),
    hi - lo <= EPS X * pow2 fuel ->
    exists r, bisect X mid body fuel lo hi last s = Some r.
Proof.
  induction fuel as [|fuel IH]; intros lo hi last s Hw; cbn [bisect];
    destruct (Qlt_bool (EPS X) (hi - lo)) eqn:E; try (by eexists).
  - apply Qlt_bool_iff in E. cbn [pow2] in Hw. lra.
  - apply Qlt_bool_iff in E. cbn [pow2] in Hw.
    pose proof (mid_half lo hi) as Hm. rewrite Qhalf in Hm.
    destruct (body (mid lo hi) s) as [[up s']|e]; [|by eexists].
    destruct up; apply IH; lra.
Qed.

Lemma bisect_more_fuel (fuel fuel' : nat) :
  forall (lo hi : Q) (last : option Q) (s : S) r,
    bisect X mid body fuel lo hi last s = Some r -> (fuel <= fuel')%nat ->
    bisect X mid body fuel' lo hi last s = Some r.
Proof.
  revert fuel'. induction fuel as [|fuel IH]; intros fuel' lo hi last s r;
    cbn [bisect].
  - destruct fuel'; cbn [bisect]; destruct (Qlt_bool _ _); done.
  - intros H Hle. destruct fuel' as [|fuel']; [lia|]. cbn [bisect].
    destruct (Qlt_bool _ _); [|done].
    destruct (body (mid lo hi) s) as [[up s']|e]; [|done].
    destruct up; (apply IH; [done|lia]).
Qed.

(** What the loop leaves: the variables as they were when there was no
    round; otherwise a state that a round produced and, in the variable of
    the midpoint, a value of the initial interval. *)
Lemma bisect_result (I : S -> Prop) (fuel : nat) :
  (forall m s up s', body m s = Ok (up, s') -> I s') ->
  forall (lo hi : Q) (last : option Q) (s : S) lo' hi' last' s',
    bisect X mid body fuel lo hi last s = Some (Ok (lo', hi', last', s')) ->
    (hi - lo <= EPS X /\ last' = last /\ s' = s)
    \/ (EPS X < hi - lo /\ I s' /\ exists m, last' = Some m /\ lo <= m <= hi).
Proof.
  intros Hbody.
  induction fuel as [|fuel IH]; intros lo hi last s lo' hi' last' s';
    cbn [bisect]; destruct (Qlt_bool (EPS X) (hi - lo)) eqn:E; try done.
  - apply Qlt_bool_false_iff in E. intros [= <- <- <- <-]. by left.
  - apply Qlt_bool_iff in E.
    pose proof (mid_half lo hi) as Hm. rewrite Qhalf in Hm.
    destruct (body (mid lo hi) s) as [[up s1]|e] eqn:Eb; [|done].
    pose proof (Hbody _ _ _ _ Eb) as HI.
    intros H. right. split; [done|].
    destruct up; apply IH in H as [(_ & -> & ->)|(_ & HI' & m & -> & Hm')].
    + split; [done|]. exists (mid lo hi). split; [done|]. lra.
    + split; [done|]. exists m. split; [done|]. lra.
    + split; [done|]. exists (mid lo hi). split; [done|]. lra.
    + split; [done|]. exists m. split; [done|]. lra.
  - apply Qlt_bool_false_iff in E. intros [= <- <- <- <-]. by left.
Qed.

End Bisect.

Section VehicleToGrid.

Import Schedule.
Open Scope Q_scope.

Variable X : Externals.
Hypothesis contract : BatteryContract X.
Hypothesis eps_pos : 0 < EPS X.

Lemma floor_mid_half (min_soc max_soc : Q) :
  (max_soc + min_soc) / 2 == (min_soc + max_soc) / 2.
Proof. rewrite !Qhalf. ring. Qed.

Lemma discharge_limit_round_soc interval gc cs max_discharge_power old_soc
    connected m (s s' : Vehicle) (up : bool) :
  discharge_limit_round X interval gc cs max_discharge_power old_soc connected m s
  = Ok (up, s') ->
  soc (battery s') = old_soc.
Proof.
  unfold discharge_limit_round.
  destruct (simulate_connected _ _ _ _ _ _ _ _) as [s1|]; cbn; [|done].
  by intros [= _ <-].
Qed.

(** The body of the pass returns for every vehicle. *)
Lemma v2g_vehicle_terminates (self : ScheduleState) (gc : GridConnector)
    (charge_now : bool) (discharge_limit : option Q) (vehicle : Vehicle) :
  exists fuel0, forall fuel, (fuel0 <= fuel)%nat ->
    exists r, v2g_vehicle X self fuel gc charge_now discharge_limit vehicle = Some r.
Proof.
  unfold v2g_vehicle.
  destruct (connected_charging_station vehicle) as [cs_id|];
    [|exists 0%nat; by eexists].
  destruct (charging_stations (world_state self) !! cs_id) as [cs|];
    [|exists 0%nat; by eexists].
  destruct (estimated_time_of_departure vehicle) as [etd|];
    [|exists 0%nat; by eexists].
  destruct (connected_steps _ _ _ _ _ _ _) as [connected window_change].
  destruct (enough_halvings (1 - vt_discharge_limit (vehicle_type vehicle))
              (EPS X) eps_pos) as [n1 Hn1].
  set (width target :=
         Qmin (cs_max_power cs)
           (if charge_now then Qmax 0 (target - get_current_load gc)
            else Qmax 0 (Qabs (target - get_current_load gc))) - 0).
  destruct (enough_halvings (width (default 0 (target gc))) (EPS X) eps_pos)
    as [n2 Hn2].
  exists (max n1 n2). intros fuel Hfuel.
  assert (Hp1 : pow2 n1 <= pow2 fuel) by (apply pow2_le; lia).
  assert (Hp2 : pow2 n2 <= pow2 fuel) by (apply pow2_le; lia).
  assert (Hfloor : exists r,
    (if negb charge_now && (1 <=? window_change)%nat then
       match bisect X (fun min_soc max_soc => (max_soc + min_soc) / 2)
               (discharge_limit_round X (interval self) gc cs
                  (unloading_curve_max_power (battery vehicle))
                  (soc (battery vehicle)) connected)
               fuel (vt_discharge_limit (vehicle_type vehicle)) 1
               discharge_limit vehicle with
       | None => None
       | Some (Raise e) => Some (Raise e)
       | Some (Ok (_, _, discharge_limit, sim_vehicle)) =>
           Some (Ok (discharge_limit, sim_vehicle))
       end
     else if negb charge_now && (window_change =? 0)%nat then
       Some (Ok (Some (desired_soc vehicle), vehicle))
     else Some (Ok (discharge_limit, vehicle))) = Some r).
  { destruct (negb charge_now && (1 <=? window_change)%nat).
    - destruct (bisect_terminates X
                  (fun min_soc max_soc => (max_soc + min_soc) / 2)
                  (discharge_limit_round X (interval self) gc cs
                     (unloading_curve_max_power (battery vehicle))
                     (soc (battery vehicle)) connected)
                  floor_mid_half fuel
                  (vt_discharge_limit (vehicle_type vehicle)) 1
                  discharge_limit vehicle) as [r ->].
      { eapply Qle_trans; [exact Hn1|]. apply Qmult_le_l; [done|done]. }
      destruct r as [[[[? ?] ?] ?]|]; by eexists.
    - destruct (negb charge_now && (window_change =? 0)%nat); by eexists. }
  destruct Hfloor as [r1 ->].
  destruct r1 as [[dl sim]|e]; [|by eexists].
  destruct (if charge_now then Ok 0 else
              match dl with Some limit => Ok limit | None => Raise UnboundLocalError end)
    as [limit|e]; [|by eexists].
  destruct (negb charge_now && Qle_bool (soc (battery sim)) limit); [by eexists|].
  destruct (target gc) as [target|]; [|by eexists].
  cbn [default from_option id] in Hn2.
  match goal with
  | |- context [bisect X ?mid ?body fuel ?lo ?hi ?last ?s] =>
      destruct (bisect_terminates X mid body
                  ltac:(intros; reflexivity) fuel lo hi last s) as [r2 ->]
  end.
  { eapply Qle_trans; [exact Hn2|]. apply Qmult_le_l; [done|done]. }
  destruct r2 as [[[[? ?] total_power] ?]|]; [|by eexists].
  destruct charge_now; destruct (Qle_bool _ 0); by eexists.
Qed.

(** What the body of the pass does to the SOC of the vehicle. *)
Lemma v2g_vehicle_soc (self : ScheduleState) (fuel : nat) (gc : GridConnector)
    (charge_now : bool) (discharge_limit discharge_limit' : option Q)
    (vehicle : Vehicle) (action : V2GAction) :
  v2g_vehicle X self fuel gc charge_now discharge_limit vehicle
  = Some (Ok (discharge_limit', action)) ->
  match action with
  | Skipped => True
  | Charged v' _ =>
      charge_now = true
      /\ (0 <= soc (battery vehicle) <= 1 -> 0 <= soc (battery v') <= 1)
  | Discharged v' _ =>
      charge_now = false
      /\ (0 <= soc (battery vehicle) <= 1 -> 0 <= soc (battery v') <= 1)
      /\ exists limit,
           discharge_limit' = Some limit
           /\ limit <= soc (battery v') <= soc (battery vehicle)
           /\ forall etd, estimated_time_of_departure vehicle = Some etd ->
                let window_change :=
                  (connected_steps etd (interval self)
                     (current_time self - interval self) charge_now 0
                     (charge_window self) []).2 in
                (window_change = 0%nat -> limit = desired_soc vehicle)
                /\ ((1 <= window_change)%nat ->
                    EPS X < 1 - vt_discharge_limit (vehicle_type vehicle) ->
                    vt_discharge_limit (vehicle_type vehicle) <= limit <= 1)
  end.
Proof.
  unfold v2g_vehicle.
  destruct (connected_charging_station vehicle) as [cs_id|]; [|done].
  destruct (charging_stations (world_state self) !! cs_id) as [cs|]; [|done].
  destruct (estimated_time_of_departure vehicle) as [etd|]; [|done].
  destruct (connected_steps _ _ _ _ _ _ _) as [connected window_change] eqn:Ecs.
  (* the discharge limit and the simulated vehicle after the first search *)
  set (floor :=
    if negb charge_now && (1 <=? window_change)%nat then
      match bisect X (fun min_soc max_soc => (max_soc + min_soc) / 2)
              (discharge_limit_round X (interval self) gc cs
                 (unloading_curve_max_power (battery vehicle))
                 (soc (battery vehicle)) connected)
              fuel (vt_discharge_limit (vehicle_type vehicle)) 1
              discharge_limit vehicle with
      | None => None
      | Some (Raise e) => Some (Raise e)
      | Some (Ok (_, _, discharge_limit, sim_vehicle)) =>
          Some (Ok (discharge_limit, sim_vehicle))
      end
    else if negb charge_now && (window_change =? 0)%nat then
      Some (Ok (Some (desired_soc vehicle), vehicle))
    else Some (Ok (discharge_limit, vehicle))).
  assert (Hfloor : forall dl sim, floor = Some (Ok (dl, sim)) ->
    soc (battery sim) = soc (battery vehicle)
    /\ (charge_now = false -> forall limit, dl = Some limit ->
        (window_change = 0%nat -> limit = desired_soc vehicle)
        /\ ((1 <= window_change)%nat ->
            EPS X < 1 - vt_discharge_limit (vehicle_type vehicle) ->
            vt_discharge_limit (vehicle_type vehicle) <= limit <= 1))).
  { intros dl sim. unfold floor.
    destruct (negb charge_now && (1 <=? window_change)%nat) eqn:E1.
    - apply andb_true_iff in E1 as [_ Hwc]. apply Nat.leb_le in Hwc.
      destruct (bisect _ _ _ _ _ _ _ _) as [[[[[lo' hi'] dl1] sim1]|]|] eqn:Eb;
        try done.
      intros [= <- <-].
      apply (bisect_result X eps_pos _ _ floor_mid_half
               (fun s => soc (battery s) = soc (battery vehicle))) in Eb.
      2: { intros m s up s'. apply discharge_limit_round_soc. }
      destruct Eb as [(Hw & -> & ->)|(Hw & HI & m & -> & Hm)].
      + split; [done|]. intros _ limit _. split; [lia|]. intros _ ?. lra.
      + split; [done|]. intros _ limit [= <-]. split; [lia|]. done.
    - destruct (negb charge_now && (window_change =? 0)%nat) eqn:E2.
      + apply andb_true_iff in E2 as [_ Hwc]. apply Nat.eqb_eq in Hwc.
        intros [= <- <-]. split; [done|]. intros _ limit [= <-].
        split; [done|]. lia.
      + intros [= <- <-]. split; [done|]. intros -> limit _.
        cbn [negb andb] in E1, E2.
        apply Nat.leb_gt in E1. apply Nat.eqb_neq in E2. lia. }
  fold floor. clearbody floor.
  destruct floor as [[[dl sim]|e]|]; [|done|done].
  destruct (Hfloor dl sim eq_refl) as [Hsim Hlimit]. clear Hfloor.
  destruct charge_now.
  - (* a charge window *)
    cbn [negb andb].
    destruct (target gc) as [target|]; [|done].
    destruct (bisect _ _ _ _ _ _ _ _) as [[[[[? ?] total_power] ?]|]|];
      try done.
    destruct (Qle_bool _ 0).
    + intros [= <- <-]. split; done.
    + intros [= <- <-]. split; [done|]. cbn [battery set_battery].
      apply (load_soc_range X contract).
  - (* a discharge window *)
    cbn [negb andb].
    destruct dl as [limit|]; [|done].
    destruct (Qle_bool (soc (battery sim)) limit) eqn:Eg; [by intros [= <- <-]|].
    assert (Hgt : limit < soc (battery vehicle)).
    { rewrite <- Hsim. apply Qnot_le_lt. intros Hle.
      apply Qle_bool_iff in Hle. congruence. }
    destruct (target gc) as [target|]; [|done].
    destruct (bisect _ _ _ _ _ _ _ _) as [[[[[? ?] total_power] ?]|]|];
      try done.
    destruct (Qle_bool _ 0).
    + intros [= <- <-]. split; [done|]. split; [done|].
      exists limit. split; [done|]. split; [lra|].
      intros etd' [= <-]. cbn zeta. rewrite Ecs. cbn [snd].
      by apply Hlimit.
    + intros [= <- <-]. split; [done|]. cbn [battery set_battery].
      split; [apply (unload_soc_range X contract)|].
      exists limit. split; [done|]. split.
      * match goal with
        | |- context [battery_unload X ?b ?dt ?mp ?ts ?tp] =>
            pose proof (unload_soc_floor X contract b dt mp ts tp) as Hu;
            set (u := battery_unload X b dt mp ts tp) in *
        end.
        destruct (Q.min_spec (soc (battery vehicle)) limit) as [[? Hm]|[? Hm]];
          rewrite Hm in Hu; lra.
      * intros etd' [= <-]. cbn zeta. rewrite Ecs. cbn [snd].
        by apply Hlimit.
Qed.

(** What the body of the pass calls: it skips a vehicle only outside a
    charge window, when its SOC is at or below the discharge limit of the
    pass; it charges only in a charge window, by [Battery.load] with the
    target SOC 1; it discharges only outside one, a vehicle whose SOC is
    above the limit, by [Battery.unload] with the limit as target SOC and
    at most the greatest discharge power of the battery. *)
Lemma v2g_vehicle_calls (self : ScheduleState) (fuel : nat) (gc : GridConnector)
    (charge_now : bool) (discharge_limit discharge_limit' : option Q)
    (vehicle : Vehicle) (action : V2GAction) :
  v2g_vehicle X self fuel gc charge_now discharge_limit vehicle
  = Some (Ok (discharge_limit', action)) ->
  match action with
  | Skipped =>
      charge_now = false
      /\ exists limit,
           discharge_limit' = Some limit /\ soc (battery vehicle) <= limit
  | Charged v' charge =>
      charge_now = true
      /\ ((v' = vehicle /\ charge = 0)
          \/ exists power,
               let loaded :=
                 battery_load X (battery vehicle) (interval self) (Some power)
                   1 None in
               v' = set_battery loaded.1 vehicle /\ charge = avg_power loaded.2)
  | Discharged v' discharge =>
      charge_now = false
      /\ exists limit,
           discharge_limit' = Some limit
           /\ limit < soc (battery vehicle)
           /\ ((v' = vehicle /\ discharge = 0)
               \/ exists power,
                    power <= unloading_curve_max_power (battery vehicle)
                    /\ let unloaded :=
                         battery_unload X (battery vehicle) (interval self)
                           (Some power) limit None in
                       v' = set_battery unloaded.1 vehicle
                       /\ discharge = avg_power unloaded.2)
  end.
Proof.
  unfold v2g_vehicle.
  destruct (connected_charging_station vehicle) as [cs_id|]; [|done].
  destruct (charging_stations (world_state self) !! cs_id) as [cs|]; [|done].
  destruct (estimated_time_of_departure vehicle) as [etd|]; [|done].
  destruct (connected_steps _ _ _ _ _ _ _) as [connected window_change].
  set (floor :=
    if negb charge_now && (1 <=? window_change)%nat then
      match bisect X (fun min_soc max_soc => (max_soc + min_soc) / 2)
              (discharge_limit_round X (interval self) gc cs
                 (unloading_curve_max_power (battery vehicle))
                 (soc (battery vehicle)) connected)
              fuel (vt_discharge_limit (vehicle_type vehicle)) 1
              discharge_limit vehicle with
      | None => None
      | Some (Raise e) => Some (Raise e)
      | Some (Ok (_, _, discharge_limit, sim_vehicle)) =>
          Some (Ok (discharge_limit, sim_vehicle))
      end
    else if negb charge_now && (window_change =? 0)%nat then
      Some (Ok (Some (desired_soc vehicle), vehicle))
    else Some (Ok (discharge_limit, vehicle))).
  assert (Hfloor : forall dl sim, floor = Some (Ok (dl, sim)) ->
    soc (battery sim) = soc (battery vehicle)).
  { intros dl sim. unfold floor.
    destruct (negb charge_now && (1 <=? window_change)%nat).
    - destruct (bisect _ _ _ _ _ _ _ _) as [[[[[lo' hi'] dl1] sim1]|]|] eqn:Eb;
        try done.
      intros [= <- <-].
      apply (bisect_result X eps_pos _ _ floor_mid_half
               (fun s => soc (battery s) = soc (battery vehicle))) in Eb.
      2: { intros m s up s'. apply discharge_limit_round_soc. }
      by destruct Eb as [(_ & _ & ->)|(_ & HI & _)].
    - destruct (negb charge_now && (window_change =? 0)%nat);
        by intros [= <- <-]. }
  fold floor. clearbody floor.
  destruct floor as [[[dl sim]|e]|]; [|done|done].
  pose proof (Hfloor dl sim eq_refl) as Hsim. clear Hfloor.
  destruct charge_now.
  - cbn [negb andb].
    destruct (target gc) as [target|]; [|done].
    destruct (bisect _ _ _ _ _ _ _ _) as [[[[[? ?] total_power] ?]|]|];
      try done.
    destruct (Qle_bool _ 0).
    + intros [= <- <-]. split; [done|]. by left.
    + intros [= <- <-]. split; [done|]. right. by eexists.
  - cbn [negb andb].
    destruct dl as [limit|]; [|done].
    destruct (Qle_bool (soc (battery sim)) limit) eqn:Eg.
    { intros [= <- <-]. split; [done|]. exists limit. split; [done|].
      rewrite <- Hsim. by apply Qle_bool_iff. }
    assert (Hgt : limit < soc (battery vehicle)).
    { rewrite <- Hsim. apply Qnot_le_lt. intros Hle.
      apply Qle_bool_iff in Hle. congruence. }
    destruct (target gc) as [target|]; [|done].
    destruct (bisect _ _ _ _ _ _ _ _) as [[[[[? ?] total_power] ?]|]|];
      try done.
    destruct (Qle_bool _ 0).
    + intros [= <- <-]. split; [done|]. exists limit. do 2 (split; [done|]).
      by left.
    + intros [= <- <-]. split; [done|]. exists limit. do 2 (split; [done|]).
      right. eexists. split; [|done]. apply Q.le_min_r.
Qed.

End VehicleToGrid.

(** ** The state of charge stays a fraction *)

Section StateOfCharge.

Variable X : Schedule.Externals.
Hypothesis contract : Schedule.BatteryContract X.
Hypothesis eps_pos : (0 < Schedule.EPS X)%Q.

(** C7 (as amended). In netz_elog's stepper an event that is applied
    without an abort leaves the SOC of every vehicle as it is, except an
    arrival, which adds to the SOC of its vehicle the [soc_delta] that the
    vehicle holds after the event's update, the sum being not negative; an
    arrival of a connected vehicle whose sum would be negative aborts. A
    step that does not abort leaves the vehicles as the due events, applied
    first to last, leave them: a vehicle none of whose arrivals is due
    keeps its SOC, every SOC stays non-negative, and every SOC stays within
    [0, 1] when no vehicle holds and no pending or new event brings a
    positive [soc_delta].

    The body of the V2G pass returns for every vehicle. It skips a vehicle
    only outside a charge window, when its SOC is at or below the discharge
    limit of the pass. It charges only in a charge window, with
    [Battery.load] and the target SOC 1. It discharges only outside a
    charge window, and only a vehicle whose SOC is above the discharge
    limit of the pass, with [Battery.unload], the limit as target SOC and
    no more than the greatest discharge power of the battery. The limit is
    the vehicle's desired SOC when the window does not change again while
    the vehicle is connected, and otherwise lies between the discharge
    limit of the vehicle type and 1 when these are more than [EPS] apart.
    So, with a battery that meets the contract of the specification, a
    vehicle that is charged or discharged keeps an SOC within [0, 1], and
    a vehicle that is discharged is left with an SOC that is not above the
    one it had and not below the discharge limit of the pass. *)
Theorem soc_stays_a_fraction :
  (forall (margin : Q) (ev : World.Event) (w w' : World.WorldState),
     NetzElog.apply_event margin ev w = Ok w' ->
     forall id v, World.vehicles w !! id = Some v ->
       exists v', World.vehicles w' !! id = Some v'
         /\ match World.arrival_of id ev with
            | Some update =>
                exists d,
                  World.soc_delta (World.apply_update update v) = Some d
                  /\ World.soc v' = (World.soc v + d)%Q
                  /\ (0 <= World.soc v')%Q
            | None => World.soc v' = World.soc v
            end)
  /\ (forall (margin : Q) (t : Z) (id : string)
         (update : list World.FieldUpdate) (w : World.WorldState)
         (v : World.Vehicle) (d : Q),
       World.vehicles w !! id = Some v ->
       World.connected_charging_station (World.apply_update update v) <> None ->
       World.soc_delta (World.apply_update update v) = Some d ->
       (World.soc v + d < 0)%Q ->
       NetzElog.apply_event margin (World.VehicleEvent t id "arrival" update) w
       = Raise NegativeSoc)
  /\ (forall (self self' : World.Strategy) (event_list : list World.Event),
       NetzElog.step self event_list = Ok self' ->
       let due :=
         World.due_events (World.current_time self + World.interval self)
           (World.sort_by_start_time
              (World.future_events (World.world_state self) ++ event_list)) in
       (exists w,
          World.apply_events (NetzElog.apply_event (World.margin self)) due
            (World.world_state self) = Ok w
          /\ World.vehicles (World.world_state self') = World.vehicles w)
       /\ (forall id v,
             World.vehicles (World.world_state self) !! id = Some v ->
             Forall (fun ev => World.arrival_of id ev = None) due ->
             exists v',
               World.vehicles (World.world_state self') !! id = Some v'
               /\ World.soc v' = World.soc v)
       /\ (map_Forall (fun _ v => 0 <= World.soc v)%Q
             (World.vehicles (World.world_state self)) ->
           map_Forall (fun _ v => 0 <= World.soc v)%Q
             (World.vehicles (World.world_state self')))
       /\ (Forall World.no_positive_soc_delta
             (World.future_events (World.world_state self) ++ event_list) ->
           map_Forall (fun _ v => World.soc_within v)
             (World.vehicles (World.world_state self)) ->
           map_Forall (fun _ v => World.soc_within v)
             (World.vehicles (World.world_state self'))))
  /\ (forall (self : Schedule.ScheduleState) (gc : Schedule.GridConnector)
        (charge_now : bool) (discharge_limit : option Q)
        (vehicle : Schedule.Vehicle),
      exists fuel0, forall fuel, (fuel0 <= fuel)%nat ->
        exists r,
          Schedule.v2g_vehicle X self fuel gc charge_now discharge_limit vehicle
          = Some r
          /\ forall discharge_limit' action,
               r = Ok (discharge_limit', action) ->
               match action with
               | Schedule.Skipped =>
                   charge_now = false
                   /\ exists limit,
                        discharge_limit' = Some limit
                        /\ (Schedule.soc (Schedule.battery vehicle) <= limit)%Q
               | Schedule.Charged v' charge =>
                   charge_now = true
                   /\ ((v' = vehicle /\ charge = 0%Q)
                       \/ exists power,
                            let loaded :=
                              Schedule.battery_load X (Schedule.battery vehicle)
                                (Schedule.interval self) (Some power) 1 None in
                            v' = Schedule.set_battery loaded.1 vehicle
                            /\ charge = Schedule.avg_power loaded.2)
                   /\ (0 <= Schedule.soc (Schedule.battery vehicle) <= 1 ->
                       0 <= Schedule.soc (Schedule.battery v') <= 1)%Q
               | Schedule.Discharged v' discharge =>
                   charge_now = false
                   /\ (0 <= Schedule.soc (Schedule.battery vehicle) <= 1 ->
                       0 <= Schedule.soc (Schedule.battery v') <= 1)%Q
                   /\ exists limit,
                        discharge_limit' = Some limit
                        /\ (limit < Schedule.soc (Schedule.battery vehicle))%Q
                        /\ ((v' = vehicle /\ discharge = 0%Q)
                            \/ exists power,
                                 (power <= Schedule.unloading_curve_max_power
                                             (Schedule.battery vehicle))%Q
                                 /\ let unloaded :=
                                      Schedule.battery_unload X
                                        (Schedule.battery vehicle)
                                        (Schedule.interval self) (Some power)
                                        limit None in
                                    v' = Schedule.set_battery unloaded.1 vehicle
                                    /\ discharge = Schedule.avg_power unloaded.2)
                        /\ (limit <= Schedule.soc (Schedule.battery v')
                            <= Schedule.soc (Schedule.battery vehicle))%Q
                        /\ forall etd,
                             Schedule.estimated_time_of_departure vehicle
                             = Some etd ->
                             let window_change :=
                               (Schedule.connected_steps etd
                                  (Schedule.interval self)
                                  (Schedule.current_time self
                                   - Schedule.interval self)
                                  charge_now 0 (Schedule.charge_window self)
                                  []).2 in
                             (window_change = 0%nat ->
                              limit = Schedule.desired_soc vehicle)
                             /\ ((1 <= window_change)%nat ->
                                 (Schedule.EPS X
                                  < 1 - Schedule.vt_discharge_limit
                                          (Schedule.vehicle_type vehicle))%Q ->
                                 (Schedule.vt_discharge_limit
                                    (Schedule.vehicle_type vehicle)
                                  <= limit <= 1)%Q)
               end).
Proof.
  split; [|split; [|split]].
  - apply netz_apply_event_soc.
  - apply netz_arrival_negative.
  - intros self self' event_list Hstep due.
    destruct (netz_step_inv _ _ _ Hstep) as (w & Hw & _ & Hv & _).
    destruct (netz_step_keeps_soc _ _ _ Hstep) as [H0 H1].
    split; [by exists w|]. split; [|done].
    intros id v Hid Hall. rewrite Hv.
    by eapply netz_apply_events_soc.
  - intros self gc charge_now discharge_limit vehicle.
    destruct (v2g_vehicle_terminates X eps_pos self gc charge_now
                discharge_limit vehicle) as [fuel0 Hterm].
    exists fuel0. intros fuel Hfuel. destruct (Hterm fuel Hfuel) as [r Hr].
    exists r. split; [done|]. intros discharge_limit' action ->.
    pose proof (v2g_vehicle_soc X contract eps_pos self fuel gc charge_now
                  discharge_limit _ _ _ Hr) as Hsoc.
    pose proof (v2g_vehicle_calls X eps_pos self fuel gc charge_now
                  discharge_limit _ _ _ Hr) as Hcalls.
    destruct action as [|v' charge|v' discharge].
    + exact Hcalls.
    + destruct Hsoc as [_ Hrange]. destruct Hcalls as [Hnow Hcall]. done.
    + destruct Hsoc as (_ & Hrange & limit & Hl & Hfloor & Hwin).
      destruct Hcalls as (Hnow & limit' & Hl' & Hgt & Hcall).
      assert (limit' = limit) as -> by congruence.
      split; [done|]. split; [done|]. exists limit. done.
Qed.

End StateOfCharge.

Lemma soc_stays_a_fraction_witness :
  (0 < Schedule.EPS ScheduleExamples.externals)%Q
  /\ Schedule.BatteryContract ScheduleExamples.externals
  /\ (exists w' v',
        NetzElog.apply_event (5 # 100) StepperExamples.homecoming
          (StepperExamples.with_vehicle StepperExamples.away) = Ok w'
        /\ World.vehicles w' !! "V1" = Some v'
        /\ World.soc v' = (World.soc StepperExamples.away + - (2 # 5))%Q
        /\ (0 <= World.soc v')%Q)
  /\ (exists self',
        NetzElog.step
          (NetzElog.init (StepperExamples.with_vehicle StepperExamples.away) 0
             StepperExamples.quarter)
          [StepperExamples.homecoming] = Ok self'
        /\ map_Forall (fun _ v => World.soc_within v)
             (World.vehicles (World.world_state self')))
  /\ exists fuel0, forall fuel, (fuel0 <= fuel)%nat ->
       exists r,
         Schedule.v2g_vehicle ScheduleExamples.externals
           ScheduleExamples.schedule fuel ScheduleExamples.connector false None
           ScheduleExamples.car = Some r.
Proof.
  pose proof (soc_stays_a_fraction ScheduleExamples.externals
                linear_battery_contract eq_refl) as (Hevent & _ & Hstep & Hv2g).
  split; [reflexivity|]. split; [exact linear_battery_contract|].
  split; [|split].
  - destruct (NetzElog.apply_event (5 # 100) StepperExamples.homecoming
                (StepperExamples.with_vehicle StepperExamples.away))
      as [w'|e] eqn:Hrun; [|vm_compute in Hrun; discriminate].
    destruct (Hevent _ _ _ _ Hrun "V1" StepperExamples.away eq_refl)
      as (v' & Hv' & Harr).
    change (World.arrival_of "V1" StepperExamples.homecoming)
      with (Some [World.SetConnectedChargingStation (Some "CS1");
                  World.SetSocDelta (- (2 # 5))]) in Harr.
    destruct Harr as (d & Hd & Hs & H0).
    injection Hd as <-.
    exists w', v'. done.
  - destruct (NetzElog.step
                (NetzElog.init (StepperExamples.with_vehicle StepperExamples.away)
                   0 StepperExamples.quarter) [StepperExamples.homecoming])
      as [self'|e] eqn:Hrun; [|vm_compute in Hrun; discriminate].
    exists self'. split; [done|].
    destruct (Hstep _ _ _ Hrun) as (_ & _ & _ & Hall). apply Hall.
    + repeat constructor. cbn. intros d Hd.
      apply list_elem_of_In in Hd. cbn in Hd.
      destruct Hd as [Hd|[Hd|[]]]; [discriminate|].
      injection Hd as <-. discriminate.
    + intros id v Hv.
      change (({[ "V1" := StepperExamples.away ]} : gmap string World.Vehicle)
                !! id = Some v) in Hv.
      apply lookup_singleton_Some in Hv as [_ <-].
      split; [split; discriminate|]. intros d Hd. discriminate.
  - destruct (Hv2g ScheduleExamples.schedule ScheduleExamples.connector false
                None ScheduleExamples.car) as [fuel0 H].
    exists fuel0. intros fuel Hfuel. destruct (H fuel Hfuel) as (r & Hr & _).
    by exists r.
Defined.

Section StateOfChargeRuns.

Import World StepperExamples.

(** C7, as stated, fails: the stepper checks an arrival for a negative
    SOC only. A vehicle at SOC 0.9 that arrives with [soc_delta = 0.5] is
    left at SOC 1.4. *)
Lemma arrival_raises_soc_above_one :
  exists self' v,
    NetzElog.step (NetzElog.init (with_vehicle away) 0 quarter) [arrival]
    = Ok self'
    /\ vehicles (world_state self') !! "V1" = Some v
    /\ (0 <= soc away <= 1)%Q
    /\ (1 < soc v)%Q.
Proof.
  eexists _, _. split; [vm_compute; reflexivity|].
  split; [vm_compute; reflexivity|]. split; [split; discriminate|reflexivity].
Qed.

End StateOfChargeRuns.

(** In the last window before departure the V2G pass discharges down to
    the desired SOC, whatever the discharge limit of the vehicle type: a
    car at SOC 0.52 that wants 0.3 and whose type has the limit 0.5 is
    discharged to about 0.465. *)
Example v2g_discharges_below_type_limit :
  let low_car :=
    {| Schedule.vehicle_type := ScheduleExamples.car_type;
       Schedule.connected_charging_station := Some "CS1";
       Schedule.estimated_time_of_departure := Some (8 * ScheduleExamples.hour)%Z;
       Schedule.desired_soc := 3 # 10;
       Schedule.battery := Schedule.set_soc (52 # 100) ScheduleExamples.car_battery |} in
  let over_target :=
    {| Schedule.cur_max_power := Some (100 # 1)%Q;
       Schedule.current_loads := {[ "building" := (30 # 1)%Q ]};
       Schedule.target := Some (10 # 1)%Q |} in
  exists v' discharge,
    Schedule.v2g_vehicle ScheduleExamples.externals ScheduleExamples.schedule 40
      over_target false None low_car
    = Some (Ok (Some (3 # 10)%Q, Schedule.Discharged v' discharge))
    /\ (Schedule.soc (Schedule.battery v')
        < Schedule.vt_discharge_limit ScheduleExamples.car_type)%Q
    /\ (3 # 10 <= Schedule.soc (Schedule.battery v'))%Q.
Proof.
  eexists _, _. split; [vm_compute; reflexivity|].
  split; vm_compute; congruence.
Qed.

(* ===================================================================== *)
(** * Event bucketing: failures, conservation, aligned series *)
(* ===================================================================== *)

Section EventStepsEdges.

Import Events.
Open Scope Z_scope.

Variables (start_time n_intervals interval : Z).

(** With a positive interval the computed index is negative exactly for
    the events known a full interval or more before the start, and at or
    beyond [n_intervals] exactly for those known after the start of the
    last interval. *)
Lemma index_negative_iff (event : Event) :
  0 < interval ->
  ceil_div (signal_time event - start_time) interval < 0
  <-> signal_time event + interval <= start_time.
Proof.
  intros Hi.
  pose proof (ceil_div_spec (signal_time event - start_time) interval Hi).
  split; intros; nia.
Qed.

Lemma index_beyond_iff (event : Event) :
  0 < interval ->
  ceil_div (signal_time event - start_time) interval >= n_intervals
  <-> start_time + (n_intervals - 1) * interval < signal_time event.
Proof.
  intros Hi.
  pose proof (ceil_div_spec (signal_time event - start_time) interval Hi).
  split; intros; nia.
Qed.

(** Without buckets the loop survives exactly when no event has to be
    clamped into bucket 0. *)
Lemma bucket_events_no_bucket (events : list Event) :
  0 < interval -> n_intervals <= 0 ->
  forall moved ignored,
    bucket_events start_time n_intervals interval ([], moved, ignored) events = None
    <-> exists event, event ∈ events /\ signal_time event + interval <= start_time.
Proof.
  intros Hi Hn. induction events as [|event rest IH]; intros moved ignored.
  - cbn. split; [done|]. intros (event & Hin & _). by apply elem_of_nil in Hin.
  - cbn [bucket_events bucket_event].
    rewrite event_index_ceil by lia.
    pose proof (index_negative_iff event Hi) as Hneg.
    set (index := ceil_div (signal_time event - start_time) interval) in *.
    destruct (decide (index < 0)) as [Hlt|Hge].
    + cbn. split; [|done]. intros _. exists event. split; [left|tauto].
    + destruct (decide (index >= n_intervals)) as [_|?]; [|lia].
      rewrite IH. split.
      * intros (x & Hin & Hx). exists x. split; [by right|done].
      * intros (x & Hin & Hx). apply elem_of_cons in Hin as [->|Hin]; [tauto|].
        by exists x.
Qed.

(** X1. When [get_event_steps] raises. With a zero interval the index
    computation divides by zero as soon as there is one event. With a
    positive interval the only failure is [steps[0]] on an empty list of
    buckets: it happens exactly when [n_intervals <= 0] and some event is
    known a full interval or more before the start; every other call
    returns. *)
Theorem get_event_steps_raises_iff (self : EventsObj) :
  (interval = 0 ->
     (get_event_steps self start_time n_intervals interval = None
      <-> all_events self <> []))
  /\ (0 < interval ->
        (get_event_steps self start_time n_intervals interval = None
         <-> n_intervals <= 0
             /\ exists event, event ∈ all_events self
                  /\ signal_time event + interval <= start_time)).
Proof.
  unfold get_event_steps, get_event_steps_from. split.
  - intros ->. destruct (all_events self) as [|event rest]; cbn.
    + split; [done|]. intros H. by destruct H.
    + unfold event_index. cbn. split; [done|]. done.
  - intros Hi. destruct (decide (0 < n_intervals)) as [Hn|Hn].
    + destruct (bucket_events_spec start_time n_intervals interval
                  (all_events self) ltac:(lia) Hn
                  (replicate (Z.to_nat n_intervals) []) 0%nat 0%nat)
        as (steps & -> & _).
      { apply length_replicate. }
      split; [done|]. lia.
    + replace (Z.to_nat n_intervals) with 0%nat by lia. cbn [replicate].
      pose proof (bucket_events_no_bucket (all_events self) Hi ltac:(lia)
                    0%nat 0%nat) as Hiff.
      destruct (bucket_events start_time n_intervals interval ([], 0%nat, 0%nat)
                  (all_events self)) as [[[steps moved] ignored]|].
      * split; [done|]. intros [_ Hex]. by apply Hiff in Hex.
      * split; [|done]. intros _. split; [lia|]. by apply Hiff.
Qed.

(** Appending to a bucket adds one event to the buckets taken together. *)
Lemma append_at_concat (steps steps' : list (list Event)) (i : Z) event :
  append_at steps i event = Some steps' ->
  concat steps' ≡ₚ event :: concat steps.
Proof.
  unfold append_at. generalize (Z.to_nat i). clear i. intros i.
  destruct (steps !! i) as [bucket|] eqn:E; [|done].
  intros [= <-]. revert i E.
  induction steps as [|b steps IH]; intros [|i] E; try done.
  - cbn in E. injection E as ->. cbn.
    rewrite <- app_assoc. cbn.
    by rewrite <- Permutation_middle.
  - cbn in E. cbn. rewrite (IH i E).
    by rewrite <- Permutation_middle.
Qed.

(** The loop neither loses nor duplicates an event: the buckets and the
    events that were left out are, together, the events that were read. *)
Lemma bucket_events_conserves (events : list Event) :
  0 < interval -> 0 < n_intervals ->
  forall steps moved ignored steps' moved' ignored',
    bucket_events start_time n_intervals interval (steps, moved, ignored) events
    = Some (steps', moved', ignored') ->
    concat steps'
    ++ List.filter
         (fun event =>
            bool_decide (start_time + (n_intervals - 1) * interval
                         < signal_time event))
         events
    ≡ₚ concat steps ++ events.
Proof.
  intros Hi Hn. induction events as [|event rest IH];
    intros steps moved ignored steps' moved' ignored'.
  - cbn. by intros [= <- _ _].
  - cbn [bucket_events bucket_event List.filter].
    rewrite event_index_ceil by lia.
    pose proof (index_negative_iff event Hi) as Hneg.
    pose proof (index_beyond_iff event Hi) as Hbeyond.
    set (index := ceil_div (signal_time event - start_time) interval) in *.
    destruct (decide (index < 0)) as [Hlt|Hge].
    + destruct (append_at steps 0 event) as [steps1|] eqn:H1; [|done]. cbn.
      intros Hrun. rewrite bool_decide_eq_false_2 by lia.
      rewrite (IH _ _ _ _ _ _ Hrun), (append_at_concat _ _ _ _ H1). cbn.
      by rewrite <- Permutation_middle.
    + destruct (decide (index >= n_intervals)) as [Hout|Hin].
      * intros Hrun. rewrite bool_decide_eq_true_2 by tauto.
        rewrite <- !Permutation_middle. by rewrite (IH _ _ _ _ _ _ Hrun).
      * destruct (append_at steps index event) as [steps1|] eqn:H1; [|done]. cbn.
        intros Hrun. rewrite bool_decide_eq_false_2 by lia.
        rewrite (IH _ _ _ _ _ _ Hrun), (append_at_concat _ _ _ _ H1). cbn.
        by rewrite <- Permutation_middle.
Qed.

(** X2. Nothing is lost or duplicated by the bucketing. With a positive
    interval and at least one interval, the events of all buckets taken
    together and the events known after the start of the last interval
    are a rearrangement of [all_events]: every event is delivered in
    exactly one bucket or is one of those ignored with a warning. *)
Theorem get_event_steps_conserves_events (self : EventsObj) :
  0 < interval -> 0 < n_intervals ->
  exists steps warns,
    get_event_steps self start_time n_intervals interval = Some (steps, warns)
    /\ concat steps
       ++ List.filter
            (fun event =>
               bool_decide (start_time + (n_intervals - 1) * interval
                            < signal_time event))
            (all_events self)
       ≡ₚ all_events self.
Proof.
  intros Hi Hn. unfold get_event_steps, get_event_steps_from.
  destruct (bucket_events start_time n_intervals interval
              (replicate (Z.to_nat n_intervals) [], 0%nat, 0%nat)
              (all_events self)) as [[[steps moved] ignored]|] eqn:Hrun.
  - exists steps, (warnings moved ignored). split; [done|].
    rewrite (bucket_events_conserves _ Hi Hn _ _ _ _ _ _ Hrun).
    assert (Hnil : forall n, concat (replicate n ([] : list Event)) = []).
    { intros n. induction n as [|n IHn]; [done|]. cbn. exact IHn. }
    by rewrite Hnil.
  - destruct (bucket_events_spec start_time n_intervals interval
                (all_events self) ltac:(lia) Hn
                (replicate (Z.to_nat n_intervals) []) 0%nat 0%nat)
      as (steps & Hsome & _).
    { apply length_replicate. }
    congruence.
Qed.

End EventStepsEdges.

Lemma get_event_steps_conserves_events_witness :
  exists steps warns,
    Events.get_event_steps EventsExamples.scenario 0 4 EventsExamples.quarter
    = Some (steps, warns)
    /\ concat steps
       ++ List.filter
            (fun event =>
               bool_decide (0 + (4 - 1) * EventsExamples.quarter
                            < Events.signal_time event)%Z)
            (Events.all_events EventsExamples.scenario)
       ≡ₚ Events.all_events EventsExamples.scenario.
Proof.
  apply (get_event_steps_conserves_events 0 4 EventsExamples.quarter
           EventsExamples.scenario).
  - reflexivity.
  - reflexivity.
Defined.

Section AlignedSeries.

Import Events.
Open Scope Z_scope.

Variables (self : EventsObj) (start_time n_intervals interval : Z).

Lemma elem_of_all_events_fixed (name : string) (load_list : EnergyValuesList)
    (event : Event) :
  (name, load_list) ∈ fixed_load_lists self ->
  event ∈ get_events load_list name FixedLoadClass false ->
  event ∈ all_events self.
Proof.
  intros Hl He. unfold all_events.
  apply elem_of_app. right. apply elem_of_app. left.
  apply list_elem_of_In, in_concat. eexists. split; [|apply list_elem_of_In, He].
  apply in_map_iff. exists (name, load_list). split; [done|].
  by apply list_elem_of_In.
Qed.

Lemma elem_of_all_events_generation (name : string)
    (generation_list : EnergyValuesList) (event : Event) :
  (name, generation_list) ∈ local_generation_lists self ->
  event ∈ get_events generation_list name LocalEnergyGenerationClass true ->
  event ∈ all_events self.
Proof.
  intros Hl He. unfold all_events.
  apply elem_of_app. right. apply elem_of_app. right.
  apply list_elem_of_In, in_concat. eexists. split; [|apply list_elem_of_In, He].
  apply in_map_iff. exists (name, generation_list). split; [done|].
  by apply list_elem_of_In.
Qed.

(** X3. A series and the simulation clock. A fixed-load series that starts
    at the simulation start and has the simulation's interval as its step
    is delivered one sample per step: its [i]-th event is in bucket [i],
    for every [i] below [n_intervals] (the later ones are ignored). A
    local-generation series is read with perfect foresight: when it starts
    at or before the simulation start, all its events are in bucket 0. *)
Theorem get_event_steps_delivers_series :
  0 < interval -> 0 < n_intervals ->
  exists steps warns,
    get_event_steps self start_time n_intervals interval = Some (steps, warns)
    /\ (forall name load_list (i : nat) event,
          (name, load_list) ∈ fixed_load_lists self ->
          evl_start_time load_list = start_time ->
          evl_time_delta load_list = interval ->
          get_events load_list name FixedLoadClass false !! i = Some event ->
          Z.of_nat i < n_intervals ->
          exists bucket, steps !! i = Some bucket /\ event ∈ bucket)
    /\ (forall name generation_list event,
          (name, generation_list) ∈ local_generation_lists self ->
          evl_start_time generation_list <= start_time ->
          event ∈ get_events generation_list name LocalEnergyGenerationClass true ->
          exists bucket, steps !! 0%nat = Some bucket /\ event ∈ bucket).
Proof.
  intros Hi Hn. unfold get_event_steps, get_event_steps_from.
  destruct (bucket_events_spec start_time n_intervals interval (all_events self)
              ltac:(lia) Hn (replicate (Z.to_nat n_intervals) []) 0%nat 0%nat)
    as (steps & -> & Hlen & Hk).
  { apply length_replicate. }
  eexists _, _. split; [reflexivity|]. split.
  - intros name load_list i event Hl Hs Hd He Hlt.
    exists (List.filter (in_bucket start_time n_intervals interval i)
              (all_events self)).
    split.
    { rewrite Hk, lookup_replicate_2 by lia. done. }
    apply list_elem_of_In, filter_In. split.
    { apply list_elem_of_In.
      eapply elem_of_all_events_fixed; [exact Hl|].
      by eapply list_elem_of_lookup_2. }
    unfold get_events in He. rewrite list_lookup_imap in He.
    destruct ((evl_values load_list ++ [0%Q]) !! i) as [value|]; [|done].
    cbn in He. injection He as <-.
    unfold in_bucket, placement. cbn. rewrite Hs, Hd.
    replace (start_time + interval * Z.of_nat i - start_time)
      with (Z.of_nat i * interval) by lia.
    pose proof (ceil_div_spec (Z.of_nat i * interval) interval Hi) as Hc.
    assert (Hidx : ceil_div (Z.of_nat i * interval) interval = Z.of_nat i) by nia.
    rewrite Hidx.
    destruct (decide (Z.of_nat i < 0)); [lia|].
    destruct (decide (Z.of_nat i >= n_intervals)); [lia|].
    apply bool_decide_eq_true_2. lia.
  - intros name generation_list event Hl Hs He.
    exists (List.filter (in_bucket start_time n_intervals interval 0)
              (all_events self)).
    split.
    { rewrite Hk, lookup_replicate_2 by lia. done. }
    apply list_elem_of_In, filter_In. split.
    { apply list_elem_of_In.
      by eapply elem_of_all_events_generation. }
    apply list_elem_of_lookup in He as [i He].
    unfold get_events in He. rewrite list_lookup_imap in He.
    destruct ((evl_values generation_list ++ [0%Q]) !! i) as [value|]; [|done].
    cbn in He. injection He as <-.
    unfold in_bucket, placement. cbn.
    pose proof (ceil_div_spec (evl_start_time generation_list - start_time)
                  interval Hi) as Hc.
    set (index := ceil_div (evl_start_time generation_list - start_time)
                    interval) in *.
    destruct (decide (index < 0)); [done|].
    destruct (decide (index >= n_intervals)); [nia|].
    apply bool_decide_eq_true_2. nia.
Qed.

End AlignedSeries.

Lemma get_event_steps_delivers_series_witness :
  exists steps warns,
    Events.get_event_steps EventsExamples.scenario 0 4 EventsExamples.quarter
    = Some (steps, warns)
    /\ (forall name load_list (i : nat) event,
          (name, load_list) ∈ Events.fixed_load_lists EventsExamples.scenario ->
          Events.evl_start_time load_list = 0%Z ->
          Events.evl_time_delta load_list = EventsExamples.quarter ->
          Events.get_events load_list name Events.FixedLoadClass false !! i
          = Some event ->
          (Z.of_nat i < 4)%Z ->
          exists bucket, steps !! i = Some bucket /\ event ∈ bucket)
    /\ (forall name generation_list event,
          (name, generation_list)
          ∈ Events.local_generation_lists EventsExamples.scenario ->
          (Events.evl_start_time generation_list <= 0)%Z ->
          event ∈ Events.get_events generation_list name
                    Events.LocalEnergyGenerationClass true ->
          exists bucket, steps !! 0%nat = Some bucket /\ event ∈ bucket).
Proof.
  apply (get_event_steps_delivers_series EventsExamples.scenario 0 4
           EventsExamples.quarter).
  - reflexivity.
  - reflexivity.
Defined.

(* ===================================================================== *)
(** * Loads of a grid connector *)
(* ===================================================================== *)

Section ConnectorLoads.

Import Schedule.
Open Scope Q_scope.

(** The sum that leaves out the keys of [exclude], over an extended
    dictionary. *)
Lemma external_load_insert (exclude : list string) (loads : gmap string Q)
    (key : string) (value : Q) (cm : option Q) (tg : option Q) :
  loads !! key = None ->
  get_external_load exclude
    {| cur_max_power := cm; current_loads := <[key := value]> loads; target := tg |}
  == (if bool_decide (key ∈ exclude) then 0 else value)
     + get_external_load exclude
         {| cur_max_power := cm; current_loads := loads; target := tg |}.
Proof.
  intros Hnone. unfold get_external_load. cbn.
  rewrite (map_fold_insert Qeq); [| | |exact Hnone].
  - destruct (bool_decide (key ∈ exclude)); ring.
  - intros k v a b Hab.
    destruct (bool_decide (k ∈ exclude)); [exact Hab|by rewrite Hab].
  - intros j1 j2 z1 z2 y _ _ _.
    destruct (bool_decide (j1 ∈ exclude)), (bool_decide (j2 ∈ exclude)); ring.
Qed.

Lemma external_load_delete (exclude : list string) (loads : gmap string Q)
    (key : string) (old : Q) (cm : option Q) (tg : option Q) :
  loads !! key = Some old ->
  get_external_load exclude
    {| cur_max_power := cm; current_loads := loads; target := tg |}
  == (if bool_decide (key ∈ exclude) then 0 else old)
     + get_external_load exclude
         {| cur_max_power := cm; current_loads := delete key loads; target := tg |}.
Proof.
  intros Hsome.
  rewrite <- (external_load_insert exclude (delete key loads) key old cm tg)
    by apply lookup_delete_eq.
  by rewrite insert_delete_id.
Qed.

(** X4. [add_load] accumulates under its key and touches nothing else.
    Two additions under one key leave the key at its former value (zero
    when it was absent) plus both powers, return the stored value each
    time, leave every other key as it was, and raise the total load of
    the connector by the two powers. *)
Theorem add_load_accumulates (key : string) (first second : Q)
    (gc : GridConnector) :
  let once := add_load key first gc in
  let twice := add_load key second once.1 in
  current_loads once.1 !! key = Some once.2
  /\ current_loads twice.1 !! key = Some twice.2
  /\ twice.2 == default 0%Q (current_loads gc !! key) + first + second
  /\ (forall other, other <> key ->
        current_loads twice.1 !! other = current_loads gc !! other)
  /\ get_current_load twice.1 == get_current_load gc + first + second.
Proof.
  cbn zeta. split; [|split; [|split; [|split]]].
  - unfold add_load. cbn. apply lookup_insert_eq.
  - unfold add_load. cbn. apply lookup_insert_eq.
  - unfold add_load. cbn. rewrite lookup_insert_eq.
    destruct (current_loads gc !! key); cbn; ring.
  - intros other Hne. unfold add_load. cbn.
    by rewrite !lookup_insert_ne.
  - destruct (add_load_current_load key second (add_load key first gc).1)
      as (-> & _).
    destruct (add_load_current_load key first gc) as (-> & _). reflexivity.
Qed.

(** X5. [get_external_load] and [add_load]. Excluding nothing gives the
    total load; excluding one key gives the total less what is stored
    under that key; and a load added under an excluded key does not change
    the external load, while one added under any other key raises it by
    the power added. *)
Theorem get_external_load_excludes (exclude : list string) (key : string)
    (value : Q) (gc : GridConnector) :
  get_external_load [] gc == get_current_load gc
  /\ get_external_load [key] gc + default 0%Q (current_loads gc !! key)
     == get_current_load gc
  /\ get_external_load exclude (add_load key value gc).1
     == get_external_load exclude gc
        + (if bool_decide (key ∈ exclude) then 0 else value).
Proof.
  destruct gc as [cm loads tg].
  assert (Hall : forall m : gmap string Q,
             get_external_load []
               {| cur_max_power := cm; current_loads := m; target := tg |}
             == sum_loads m).
  { intros m. induction m as [|k v m Hk _ IH] using map_first_key_ind.
    - reflexivity.
    - rewrite (external_load_insert [] m k v cm tg Hk), IH.
      rewrite (sum_loads_insert m k v Hk).
      rewrite bool_decide_eq_false_2 by apply not_elem_of_nil. ring. }
  assert (Hwithout : forall m : gmap string Q, m !! key = None ->
             get_external_load [key]
               {| cur_max_power := cm; current_loads := m; target := tg |}
             == sum_loads m).
  { intros m. induction m as [|k v m Hk _ IH] using map_first_key_ind.
    - reflexivity.
    - intros Hnone. apply lookup_insert_None in Hnone as [Hm Hne].
      rewrite (external_load_insert [key] m k v cm tg Hk), (IH Hm).
      rewrite (sum_loads_insert m k v Hk).
      rewrite bool_decide_eq_false_2; [ring|].
      intros Hin. apply list_elem_of_singleton in Hin. congruence. }
  split; [apply Hall|]. split.
  - unfold get_current_load. cbn.
    destruct (loads !! key) as [old|] eqn:E; cbn.
    + rewrite (external_load_delete [key] loads key old cm tg E).
      rewrite (Hwithout (delete key loads)) by apply lookup_delete_eq.
      rewrite (sum_loads_delete loads key old E).
      rewrite bool_decide_eq_true_2 by apply list_elem_of_singleton, eq_refl.
      ring.
    + rewrite (Hwithout loads E). ring.
  - unfold add_load. cbn.
    destruct (loads !! key) as [old|] eqn:E.
    + rewrite <- (insert_delete_eq loads).
      rewrite (external_load_insert exclude (delete key loads) key (old + value)
                 cm tg) by apply lookup_delete_eq.
      rewrite (external_load_delete exclude loads key old cm tg E).
      destruct (bool_decide (key ∈ exclude)); ring.
    + rewrite (external_load_insert exclude loads key value cm tg E).
      destruct (bool_decide (key ∈ exclude)); ring.
Qed.

End ConnectorLoads.

(* ===================================================================== *)
(** * The stepper over several calls *)
(* ===================================================================== *)

Section StepCalls.

Import World Calls.
Open Scope Z_scope.

(** In a sorted queue the deferred events are the events that start
    later. *)
Lemma deferred_events_filter (now : Z) (queue : list Event) :
  StronglySorted by_start_time queue ->
  deferred_events now queue
  = List.filter (fun ev => bool_decide (now < start_time ev)) queue.
Proof.
  induction 1 as [|ev rest Hs IH Hall]; cbn; [done|].
  destruct (decide (start_time ev <= now)) as [Hle|Hgt].
  - rewrite bool_decide_eq_false_2 by lia. exact IH.
  - rewrite bool_decide_eq_true_2 by lia. f_equal.
    symmetry. apply forallb_filter_id, forallb_forall.
    rewrite Forall_forall in Hall. intros x Hx.
    apply list_elem_of_In, Hall in Hx. unfold by_start_time in Hx.
    apply bool_decide_eq_true_2. lia.
Qed.

Lemma filter_perm (f : Event -> bool) (l l' : list Event) :
  l ≡ₚ l' -> List.filter f l ≡ₚ List.filter f l'.
Proof.
  induction 1 as [|x l l' _ IH|x y l|l l' l'' _ IH1 _ IH2]; cbn.
  - done.
  - destruct (f x); [by constructor|done].
  - destruct (f x), (f y); try done. apply perm_swap.
  - by rewrite IH1.
Qed.

Lemma filter_later_twice (t t' : Z) (l : list Event) :
  t <= t' ->
  List.filter (fun ev => bool_decide (t' < start_time ev))
    (List.filter (fun ev => bool_decide (t < start_time ev)) l)
  = List.filter (fun ev => bool_decide (t' < start_time ev)) l.
Proof.
  intros Hle. induction l as [|ev rest IH]; cbn; [done|].
  destruct (decide (t < start_time ev)) as [Hlt|Hge].
  - rewrite (bool_decide_eq_true_2 (t < start_time ev)) by done. cbn.
    by rewrite IH.
  - rewrite (bool_decide_eq_false_2 (t < start_time ev)) by done.
    rewrite (bool_decide_eq_false_2 (t' < start_time ev)) by lia. exact IH.
Qed.

(** The invariant of a run of calls, for either stepper. *)
Lemma step_all_pending (step : Strategy -> list Event -> result Strategy) :
  (forall self event_list self',
     step self event_list = Ok self' ->
     NetzElog.step self event_list = Ok self'
     \/ Legacy.step self event_list = Ok self') ->
  forall event_lists self self',
    0 <= interval self ->
    Forall (fun ev => current_time self < start_time ev)
      (future_events (world_state self)) ->
    step_all step self event_lists = Ok self' ->
    interval self' = interval self
    /\ current_time self'
       = current_time self + Z.of_nat (length event_lists) * interval self
    /\ future_events (world_state self')
       ≡ₚ List.filter (fun ev => bool_decide (current_time self' < start_time ev))
            (future_events (world_state self) ++ concat event_lists).
Proof.
  intros Hstep. induction event_lists as [|event_list rest IH];
    intros self self' Hi Hlater; cbn [step_all].
  - intros [= <-]. cbn. split; [done|]. split; [lia|].
    rewrite app_nil_r, forallb_filter_id; [done|].
    apply forallb_forall. rewrite Forall_forall in Hlater.
    intros x Hx. apply list_elem_of_In, Hlater in Hx.
    by apply bool_decide_eq_true_2.
  - destruct (step self event_list) as [self1|] eqn:E; cbn; [|done].
    intros Hrest.
    assert (Hint : interval self1 = interval self).
    { destruct (Hstep _ _ _ E) as [H|H].
      - unfold NetzElog.step in H. destruct (run_due_events _ _ _ _); cbn in H; [|done].
        destruct (NetzElog.finish_step _); cbn in H; [|done]. by injection H as <-.
      - unfold Legacy.step in H. destruct (run_due_events _ _ _ _); cbn in H; [|done].
        destruct (Legacy.finish_step _); cbn in H; [|done]. by injection H as <-. }
    destruct (step_future_events _ _ _ (Hstep _ _ _ E)) as [Ht Hq].
    assert (Hlater1 : Forall (fun ev => current_time self1 < start_time ev)
                        (future_events (world_state self1))).
    { rewrite Hq, Ht. apply deferred_events_later, sort_by_start_time_sorted. }
    destruct (IH self1 self' ltac:(lia) Hlater1 Hrest) as (Hi' & Ht' & Hq').
    split; [congruence|]. split; [rewrite Ht', Ht, Hint; cbn [length]; lia|].
    rewrite Hq', Hq.
    rewrite deferred_events_filter by apply sort_by_start_time_sorted.
    rewrite !List.filter_app.
    rewrite filter_later_twice by (rewrite Ht', Ht, Hint; nia).
    rewrite (filter_perm _ _ _ (sort_by_start_time_perm _)).
    cbn [concat]. rewrite !List.filter_app. by rewrite <- app_assoc.
Qed.

(** X6. Nothing that was handed to [step] is lost between calls. After
    any number of calls that did not abort, starting from a fresh
    strategy object, [current_time] is the start time plus one interval
    per call but the first, and the pending queue is a rearrangement of
    exactly those events, of all the lists handed over so far, that start
    after [current_time]. *)
Theorem pending_queue_after_calls (w : WorldState) (start interval : Z)
    (event_lists : list (list Event)) (self' : Strategy) :
  0 <= interval ->
  step_all NetzElog.step (NetzElog.init w start interval) event_lists = Ok self'
  \/ step_all Legacy.step (Legacy.init w start interval) event_lists = Ok self' ->
  current_time self' = start + (Z.of_nat (length event_lists) - 1) * interval
  /\ future_events (world_state self')
     ≡ₚ List.filter (fun ev => bool_decide (current_time self' < start_time ev))
          (concat event_lists).
Proof.
  intros Hi [H|H].
  - apply step_all_pending in H as (_ & Ht & Hq); cbn in *;
      [|by left|done|constructor].
    split; [lia|done].
  - apply step_all_pending in H as (_ & Ht & Hq); cbn in *;
      [|by right|done|constructor].
    split; [lia|done].
Qed.

End StepCalls.

Lemma pending_queue_after_calls_witness :
  exists self',
    Calls.step_all NetzElog.step
      (NetzElog.init StepperExamples.world 0 StepperExamples.quarter)
      [[World.GridOperatorSignal (2 * StepperExamples.quarter) "GC1" None None;
        StepperExamples.limit_signal];
       [World.ExternalLoad StepperExamples.quarter "GC1" "building" (7 # 1)]]
    = Ok self'
    /\ World.current_time self'
       = (0 + (Z.of_nat 2 - 1) * StepperExamples.quarter)%Z
    /\ World.future_events (World.world_state self')
       ≡ₚ List.filter
            (fun ev => bool_decide (World.current_time self' < World.start_time ev)%Z)
            (concat
               [[World.GridOperatorSignal (2 * StepperExamples.quarter) "GC1" None None;
                 StepperExamples.limit_signal];
                [World.ExternalLoad StepperExamples.quarter "GC1" "building" (7 # 1)]]).
Proof.
  eexists. split; [vm_compute; reflexivity|].
  apply (pending_queue_after_calls StepperExamples.world 0 StepperExamples.quarter
           [[World.GridOperatorSignal (2 * StepperExamples.quarter) "GC1" None None;
             StepperExamples.limit_signal];
            [World.ExternalLoad StepperExamples.quarter "GC1" "building" (7 # 1)]]).
  - vm_compute. congruence.
  - left. vm_compute. reflexivity.
Defined.

(* ===================================================================== *)
(** * Connector loads, signals and arrivals across a step *)
(* ===================================================================== *)

Section StepLoads.

Import World Calls.

(** A signal changes neither the configured limit nor the loads. *)
Lemma netz_signal_keeps (ev_cost : option Cost) (ev_max_power : option Q)
    (connector : GridConnector) :
  max_power (NetzElog.apply_grid_operator_signal ev_cost ev_max_power connector)
  = max_power connector
  /\ current_loads
       (NetzElog.apply_grid_operator_signal ev_cost ev_max_power connector)
     = current_loads connector.
Proof.
  unfold NetzElog.apply_grid_operator_signal.
  destruct (cost_truthy ev_cost); cbn zeta;
    destruct (power_truthy _); destruct ev_max_power; done.
Qed.

(** What one event does to the loads of a connector. *)
Lemma netz_apply_event_loads (margin : Q) (ev : Event) (w w' : WorldState) :
  NetzElog.apply_event margin ev w = Ok w' ->
  charging_stations w' = charging_stations w
  /\ forall g c, grid_connectors w !! g = Some c ->
       exists c', grid_connectors w' !! g = Some c'
         /\ max_power c' = max_power c
         /\ forall k, ~ writes_load g k ev ->
              current_loads c' !! k = current_loads c !! k.
Proof.
  destruct ev as [t g0 n q|t g0 n q|t g0 co m|t id ty u|t]; cbn.
  - unfold getitem. destruct (grid_connectors w !! g0) as [c0|] eqn:E0; cbn; [|done].
    destruct (is_None_b _); cbn; [|done]. intros [= <-]. cbn. split; [done|].
    intros g c Hg. destruct (decide (g = g0)) as [->|Hne].
    + rewrite lookup_insert_eq. eexists. split; [done|]. cbn.
      assert (c = c0) as -> by congruence. split; [done|].
      intros k Hk. rewrite lookup_insert_ne; [done|]. intros ->. by apply Hk.
    + rewrite lookup_insert_ne by done. by exists c.
  - destruct (is_None_b _); cbn; [|done].
    unfold getitem. destruct (grid_connectors w !! g0) as [c0|] eqn:E0; cbn; [|done].
    intros [= <-]. cbn. split; [done|].
    intros g c Hg. destruct (decide (g = g0)) as [->|Hne].
    + rewrite lookup_insert_eq. eexists. split; [done|]. cbn.
      assert (c = c0) as -> by congruence. split; [done|].
      intros k Hk. rewrite lookup_insert_ne; [done|]. intros ->. by apply Hk.
    + rewrite lookup_insert_ne by done. by exists c.
  - unfold getitem. destruct (grid_connectors w !! g0) as [c0|] eqn:E0; cbn; [|done].
    intros [= <-]. cbn. split; [done|].
    intros g c Hg. destruct (decide (g = g0)) as [->|Hne].
    + rewrite lookup_insert_eq. eexists. split; [done|].
      assert (c = c0) as -> by congruence.
      destruct (netz_signal_keeps co m c0) as [-> ->]. done.
    + rewrite lookup_insert_ne by done. by exists c.
  - unfold getitem. destruct (vehicles w !! id) as [v|]; cbn; [|done].
    destruct (NetzElog.apply_vehicle_event _ _ _ _); cbn; [|done].
    intros [= <-]. cbn. split; [done|]. intros g c Hg. by exists c.
  - done.
Qed.

Lemma netz_apply_events_loads (margin : Q) (events : list Event) :
  forall w w' : WorldState,
    apply_events (NetzElog.apply_event margin) events w = Ok w' ->
    charging_stations w' = charging_stations w
    /\ forall g c, grid_connectors w !! g = Some c ->
         exists c', grid_connectors w' !! g = Some c'
           /\ max_power c' = max_power c
           /\ forall k, Forall (fun ev => ~ writes_load g k ev) events ->
                current_loads c' !! k = current_loads c !! k.
Proof.
  induction events as [|ev rest IH]; intros w w'; cbn.
  - intros [= <-]. split; [done|]. intros g c Hg. by exists c.
  - destruct (NetzElog.apply_event margin ev w) as [w1|] eqn:E; cbn; [|done].
    intros Hrest.
    destruct (netz_apply_event_loads _ _ _ _ E) as [Hs1 H1].
    destruct (IH _ _ Hrest) as [Hs2 H2].
    split; [congruence|]. intros g c Hg.
    destruct (H1 g c Hg) as (c1 & Hg1 & Hm1 & Hk1).
    destruct (H2 g c1 Hg1) as (c2 & Hg2 & Hm2 & Hk2).
    exists c2. split; [done|]. split; [congruence|].
    intros k Hall. apply Forall_cons in Hall as [Hev Hall].
    by rewrite Hk2, Hk1.
Qed.

Lemma apply_events_app (apply : Event -> WorldState -> result WorldState)
    (first second : list Event) (w : WorldState) :
  apply_events apply (first ++ second) w
  = (w1 ← apply_events apply first w; apply_events apply second w1).
Proof.
  revert w. induction first as [|ev rest IH]; intros w; cbn.
  - by destruct (apply_events apply second w).
  - destruct (apply ev w) as [w1|]; cbn; [apply IH|done].
Qed.

(** X7. Loads persist from step to step. After a step of netz_elog's
    stepper that did not abort, the charging stations and the set of
    connectors are as before, no connector's configured [max_power] has
    changed, and under every key that is not the name of a charging
    station and that no applied [ExternalLoad] or [EnergyFeedIn] event
    assigns, each connector holds the load it held before the step: an
    external load stays in force until an event replaces it. The loads
    under the names of charging stations are gone. *)
Theorem netz_step_keeps_unassigned_loads (self self' : Strategy)
    (event_list : list Event) :
  NetzElog.step self event_list = Ok self' ->
  let now := (current_time self + interval self)%Z in
  let queue :=
    sort_by_start_time (future_events (world_state self) ++ event_list) in
  charging_stations (world_state self') = charging_stations (world_state self)
  /\ forall g c,
       grid_connectors (world_state self) !! g = Some c ->
       exists c',
         grid_connectors (world_state self') !! g = Some c'
         /\ max_power c' = max_power c
         /\ forall k,
              match charging_stations (world_state self) !! k with
              | Some _ => current_loads c' !! k = None
              | None =>
                  Forall (fun ev => ~ writes_load g k ev) (due_events now queue) ->
                  current_loads c' !! k = current_loads c !! k
              end.
Proof.
  intros Hstep now queue.
  destruct (netz_step_inv _ _ _ Hstep) as (w & Hw & Hs & _ & Hg).
  destruct (netz_apply_events_loads _ _ _ _ Hw) as [Hsw Hl].
  split; [congruence|]. intros g c Hc.
  destruct (Hl g c Hc) as (c1 & Hc1 & Hm1 & Hk1).
  exists (NetzElog.reset_connector (charging_stations w) c1).
  split; [by rewrite Hg, Hc1|]. split; [done|].
  intros k. cbn. rewrite reset_loads_lookup, Hsw.
  destruct (charging_stations (world_state self) !! k); [done|].
  apply Hk1.
Qed.

(** X8. The last assignment wins. When a step of netz_elog's stepper
    did not abort and the last of the applied events that assign the key
    [k] of connector [g] is an [ExternalLoad] with value [v], the
    connector holds [v] under [k] after the step; when it is an
    [EnergyFeedIn] with value [v], it holds [- v]: a feed-in is stored
    as a negative load. *)
Theorem netz_step_last_assignment_wins (self self' : Strategy)
    (event_list : list Event) (before after : list Event) (ev : Event)
    (g k : string) (value : Q) :
  NetzElog.step self event_list = Ok self' ->
  due_events (current_time self + interval self)%Z
    (sort_by_start_time (future_events (world_state self) ++ event_list))
  = before ++ ev :: after ->
  writes_load g k ev ->
  written_load ev = Some value ->
  Forall (fun ev' => ~ writes_load g k ev') after ->
  exists c',
    grid_connectors (world_state self') !! g = Some c'
    /\ current_loads c' !! k = Some value.
Proof.
  intros Hstep Hdue Hwrites Hvalue Hafter.
  destruct (netz_step_inv _ _ _ Hstep) as (w & Hw & Hs & _ & Hg).
  rewrite Hdue, apply_events_app in Hw.
  destruct (apply_events _ before _) as [w0|] eqn:E0; cbn in Hw; [|done].
  destruct (NetzElog.apply_event (margin self) ev w0) as [w1|] eqn:E1;
    cbn in Hw; [|done].
  destruct (netz_apply_events_loads _ _ _ _ Hw) as [Hs1 Hl1].
  assert (Hnow : exists c1, grid_connectors w1 !! g = Some c1
                   /\ current_loads c1 !! k = Some value
                   /\ charging_stations w1 !! k = None).
  { destruct ev as [t g0 n q|t g0 n q|t g0 co m|t id ty u|t]; try done;
      cbn in Hwrites, Hvalue, E1; destruct Hwrites as [-> ->];
      injection Hvalue as <-; unfold getitem in E1.
    - destruct (grid_connectors w0 !! g) as [c0|]; cbn in E1; [|done].
      destruct (charging_stations w0 !! k) eqn:Ek; cbn in E1; [done|].
      injection E1 as <-. cbn. eexists. rewrite lookup_insert_eq.
      split; [done|]. cbn. by rewrite lookup_insert_eq.
    - destruct (charging_stations w0 !! k) eqn:Ek; cbn in E1; [done|].
      destruct (grid_connectors w0 !! g) as [c0|]; cbn in E1; [|done].
      injection E1 as <-. cbn. eexists. rewrite lookup_insert_eq.
      split; [done|]. cbn. by rewrite lookup_insert_eq. }
  destruct Hnow as (c1 & Hc1 & Hk1 & Hnone).
  destruct (Hl1 g c1 Hc1) as (c2 & Hc2 & _ & Hk2).
  exists (NetzElog.reset_connector (charging_stations w) c2).
  split; [by rewrite Hg, Hc2|].
  cbn. rewrite reset_loads_lookup, Hs1, Hnone. by rewrite Hk2.
Qed.

End StepLoads.

Lemma netz_step_last_assignment_wins_witness :
  exists self' c',
    NetzElog.step (NetzElog.init StepperExamples.world 0 StepperExamples.quarter)
      [World.ExternalLoad 0 "GC1" "building" (7 # 1);
       World.EnergyFeedIn 0 "GC1" "building" (3 # 1)]
    = Ok self'
    /\ World.grid_connectors (World.world_state self') !! "GC1" = Some c'
    /\ World.current_loads c' !! "building" = Some (- (3 # 1))%Q.
Proof.
  eexists.
  assert (H : NetzElog.step
                (NetzElog.init StepperExamples.world 0 StepperExamples.quarter)
                [World.ExternalLoad 0 "GC1" "building" (7 # 1);
                 World.EnergyFeedIn 0 "GC1" "building" (3 # 1)]
              = Ok _) by (vm_compute; reflexivity).
  destruct (netz_step_last_assignment_wins _ _ _
              [World.ExternalLoad 0 "GC1" "building" (7 # 1)] []
              (World.EnergyFeedIn 0 "GC1" "building" (3 # 1))
              "GC1" "building" (- (3 # 1))%Q H)
    as (c' & Hc & Hk).
  - vm_compute. reflexivity.
  - split; reflexivity.
  - reflexivity.
  - constructor.
  - exists c'. split; [exact H|]. split; [exact Hc|exact Hk].
Defined.

Lemma netz_step_keeps_unassigned_loads_witness :
  exists self',
    let self :=
      NetzElog.init (StepperExamples.with_connector StepperExamples.loaded_connector)
        0 StepperExamples.quarter in
    NetzElog.step self [StepperExamples.limit_signal] = Ok self'
    /\ let now := (World.current_time self + World.interval self)%Z in
       let queue :=
         World.sort_by_start_time
           (World.future_events (World.world_state self)
            ++ [StepperExamples.limit_signal]) in
       World.charging_stations (World.world_state self')
       = World.charging_stations (World.world_state self)
       /\ forall g c,
            World.grid_connectors (World.world_state self) !! g = Some c ->
            exists c',
              World.grid_connectors (World.world_state self') !! g = Some c'
              /\ World.max_power c' = World.max_power c
              /\ forall k,
                   match World.charging_stations (World.world_state self) !! k with
                   | Some _ => World.current_loads c' !! k = None
                   | None =>
                       Forall (fun ev => ~ Calls.writes_load g k ev)
                         (World.due_events now queue) ->
                       World.current_loads c' !! k = World.current_loads c !! k
                   end.
Proof.
  eexists. cbv zeta. split; [vm_compute; reflexivity|].
  apply (netz_step_keeps_unassigned_loads
           (NetzElog.init
              (StepperExamples.with_connector StepperExamples.loaded_connector)
              0 StepperExamples.quarter)
           _ [StepperExamples.limit_signal]).
  vm_compute. reflexivity.
Defined.

Section SignalsAndArrivals.

Import World.

(** X9. A grid operator signal replaces the one before it. In netz_elog's
    stepper, after two signals on one connector, [cur_max_power] is what
    the second signal alone would have set, so a signal without
    [max_power] lifts an earlier restriction; the cost is that of the last
    signal that carried one; the configured limit and the loads are
    untouched; and on a connector with a configured non-zero limit,
    [cur_max_power] is set and never above that limit. *)
Theorem netz_signal_replaces_previous (first_cost second_cost : option Cost)
    (first_max_power second_max_power : option Q) (connector : GridConnector) :
  let once :=
    NetzElog.apply_grid_operator_signal second_cost second_max_power connector in
  let twice :=
    NetzElog.apply_grid_operator_signal second_cost second_max_power
      (NetzElog.apply_grid_operator_signal first_cost first_max_power connector) in
  cur_max_power twice = cur_max_power once
  /\ cost twice
     = (if cost_truthy second_cost then second_cost
        else if cost_truthy first_cost then first_cost
        else cost connector)
  /\ max_power twice = max_power connector
  /\ current_loads twice = current_loads connector
  /\ forall p, max_power connector = Some p -> ~ p == 0 ->
       exists q, cur_max_power twice = Some q /\ (q <= p)%Q.
Proof.
  cbv zeta. split; [|split; [|split; [|split]]].
  - unfold NetzElog.apply_grid_operator_signal.
    destruct (cost_truthy first_cost), (cost_truthy second_cost); cbn;
      destruct (power_truthy (max_power connector)) eqn:E;
      destruct first_max_power, second_max_power; cbn; rewrite ?E; done.
  - unfold NetzElog.apply_grid_operator_signal.
    destruct (cost_truthy first_cost), (cost_truthy second_cost); cbn;
      destruct (power_truthy (max_power connector)) eqn:E;
      destruct first_max_power, second_max_power; cbn; rewrite ?E; done.
  - destruct (netz_signal_keeps second_cost second_max_power
                (NetzElog.apply_grid_operator_signal first_cost first_max_power
                   connector)) as [-> _].
    apply netz_signal_keeps.
  - destruct (netz_signal_keeps second_cost second_max_power
                (NetzElog.apply_grid_operator_signal first_cost first_max_power
                   connector)) as [_ ->].
    apply netz_signal_keeps.
  - intros p Hp Hnz.
    destruct (netz_signal_keeps first_cost first_max_power connector) as [Hm _].
    rewrite <- Hm in Hp.
    destruct (netz_signal_limited second_cost second_max_power _ p Hp Hnz)
      as (_ & -> & _).
    destruct second_max_power as [q|]; eexists; (split; [reflexivity|]).
    + apply Q.le_min_l.
    + apply Qle_refl.
Qed.

Lemma apply_update_keeps_soc_delta (update : list FieldUpdate) (v : Vehicle) :
  (forall d, SetSocDelta d ∉ update) ->
  soc_delta (apply_update update v) = soc_delta v.
Proof.
  unfold apply_update. revert v.
  induction update as [|u rest IH]; intros v Hno; cbn; [done|].
  rewrite IH.
  - destruct u; try done. exfalso. apply (Hno q). apply elem_of_cons. by left.
  - intros d Hd. apply (Hno d). apply elem_of_cons. by right.
Qed.

(** X10. An arrival uses up [soc_delta]. In both steppers, after an
    arrival event that did not abort, the vehicle is connected and holds
    no [soc_delta] any more; so a following arrival event whose update
    brings no [soc_delta] always aborts, on one of the two assertions of
    the arrival branch. *)
Theorem arrival_uses_up_soc_delta (margin : Q) (update next : list FieldUpdate)
    (v v' : Vehicle) :
  NetzElog.apply_vehicle_event margin "arrival" update v = Ok v'
  \/ Legacy.apply_vehicle_event "arrival" update v = Ok v' ->
  (forall d, SetSocDelta d ∉ next) ->
  soc_delta v' = None
  /\ is_Some (connected_charging_station v')
  /\ (exists e, NetzElog.apply_vehicle_event margin "arrival" next v' = Raise e
                /\ (e = NotConnectedOnArrival \/ e = NoSocDelta))
  /\ (exists e, Legacy.apply_vehicle_event "arrival" next v' = Raise e
                /\ (e = NotConnectedOnArrival \/ e = NoSocDelta)).
Proof.
  intros Harr Hnext.
  assert (Hv' : soc_delta v' = None /\ is_Some (connected_charging_station v')).
  { destruct Harr as [H|H].
    - unfold NetzElog.apply_vehicle_event in H.
      destruct (decide ("arrival" = "departure")); [done|].
      destruct (decide ("arrival" = "arrival")); [|done].
      destruct (connected_charging_station (apply_update update v)) eqn:Ec;
        cbn in H; [|done].
      destruct (soc_delta (apply_update update v)); [|done].
      destruct (Qle_bool _ _); cbn in H; [|done].
      injection H as <-. cbn. rewrite Ec. eauto.
    - unfold Legacy.apply_vehicle_event in H.
      destruct (decide ("arrival" = "departure")); [done|].
      destruct (decide ("arrival" = "arrival")); [|done].
      destruct (connected_charging_station (apply_update update v)) eqn:Ec;
        cbn in H; [|done].
      destruct (soc_delta (apply_update update v)); [|done].
      injection H as <-. cbn. rewrite Ec. eauto. }
  destruct Hv' as [Hd Hc]. split; [done|]. split; [done|].
  pose proof (apply_update_keeps_soc_delta next v' Hnext) as Hkeep.
  rewrite Hd in Hkeep. split.
  - unfold NetzElog.apply_vehicle_event.
    destruct (decide ("arrival" = "departure")); [done|].
    destruct (decide ("arrival" = "arrival")); [|done].
    destruct (connected_charging_station (apply_update next v')); cbn.
    + rewrite Hkeep. eauto.
    + eauto.
  - unfold Legacy.apply_vehicle_event.
    destruct (decide ("arrival" = "departure")); [done|].
    destruct (decide ("arrival" = "arrival")); [|done].
    destruct (connected_charging_station (apply_update next v')); cbn.
    + rewrite Hkeep. eauto.
    + eauto.
Qed.

End SignalsAndArrivals.

Lemma arrival_uses_up_soc_delta_witness :
  exists v',
    NetzElog.apply_vehicle_event (5 # 100) "arrival"
      [World.SetConnectedChargingStation (Some "CS1"); World.SetSocDelta (- (1 # 2))]
      StepperExamples.away = Ok v'
    /\ World.soc_delta v' = None
    /\ is_Some (World.connected_charging_station v')
    /\ (exists e, NetzElog.apply_vehicle_event (5 # 100) "arrival"
                    [World.SetEstimatedTimeOfDeparture None] v' = Raise e
                  /\ (e = NotConnectedOnArrival \/ e = NoSocDelta))
    /\ (exists e, Legacy.apply_vehicle_event "arrival"
                    [World.SetEstimatedTimeOfDeparture None] v' = Raise e
                  /\ (e = NotConnectedOnArrival \/ e = NoSocDelta)).
Proof.
  eexists. split; [vm_compute; reflexivity|].
  apply (arrival_uses_up_soc_delta (5 # 100)
           [World.SetConnectedChargingStation (Some "CS1");
            World.SetSocDelta (- (1 # 2))]
           [World.SetEstimatedTimeOfDeparture None] StepperExamples.away).
  - left. vm_compute. reflexivity.
  - intros d Hd. apply list_elem_of_singleton in Hd. discriminate Hd.
Defined.

(* ===================================================================== *)
(** * The Greedy strategy *)
(* ===================================================================== *)

Section GreedyAllocation.

Import Greedy.
Open Scope Q_scope.

Variable vehicle_type : string -> VehicleType.
Variable interval : Z.
Variable stations : gmap string World.ChargingStation.

Lemma charged_refl (v : World.Vehicle) : charged v v.
Proof. repeat split. apply Q.le_max_l. Qed.


Lemma hours_pos : (0 < interval)%Z -> 0 < hours interval.
Proof.
  intros Hi. unfold hours.
  assert (H : 0 < inject_Z interval).
  { change (inject_Z 0 < inject_Z interval). by rewrite <- Zlt_Qlt. }
  apply Qlt_shift_div_l; [reflexivity|].
  apply Qlt_shift_div_l; [reflexivity|]. lra.
Qed.

(** What one pass of the loop body does when it does not raise. *)
Lemma charge_inv (st st' : Allocation) (vehicle_id : string) :
  charge vehicle_type interval stations st vehicle_id = Done st' ->
  st' = st
  \/ exists vehicle id station connector limit power,
       vehicles st !! vehicle_id = Some vehicle
       /\ World.connected_charging_station vehicle = Some id
       /\ World.soc vehicle < World.desired_soc vehicle
       /\ stations !! id = Some station
       /\ grid_connectors st !! World.cs_parent station = Some connector
       /\ cur_max_power connector = Some limit
       /\ ~ hours interval == 0
       /\ ~ capacity (vehicle_type vehicle_id) == 0
       /\ power
          <= (World.desired_soc vehicle - World.soc vehicle) / 100
             * capacity (vehicle_type vehicle_id) / hours interval
       /\ power <= max_charging_power (vehicle_type vehicle_id)
       /\ power
          <= World.cs_max_power station - default 0 (charging_stations st !! id)
       /\ power <= limit - current_load connector
       /\ ~ power == 0
       /\ World.soc vehicle
          + 100 * (hours interval * power) / capacity (vehicle_type vehicle_id)
          <= 100
       /\ 0 <= World.soc vehicle
               + 100 * (hours interval * power) / capacity (vehicle_type vehicle_id)
       /\ st'
          = {| grid_connectors :=
                 <[World.cs_parent station :=
                     {| cur_max_power := cur_max_power connector;
                        current_load := current_load connector + power |}]>
                   (grid_connectors st);
               charging_stations :=
                 <[id := match charging_stations st !! id with
                         | Some commanded => commanded + power
                         | None => power
                         end]> (charging_stations st);
               vehicles :=
                 <[vehicle_id :=
                     World.set_soc
                       (World.soc vehicle
                        + 100 * (hours interval * power)
                          / capacity (vehicle_type vehicle_id))
                       (World.soc_delta vehicle) vehicle]> (vehicles st) |}.
Proof.
  unfold charge.
  destruct (vehicles st !! vehicle_id) as [vehicle|] eqn:Ev; [|done].
  destruct (Qlt_bool 0 _) eqn:Ed; cbn [andb]; [|intros [= <-]; by left].
  destruct (World.connected_charging_station vehicle) as [cs_id|] eqn:Ec;
    cbn [station_truthy]; [|intros [= <-]; by left].
  destruct (negb (String.eqb cs_id "")); [|intros [= <-]; by left].
  cbn [default from_option id].
  destruct (stations !! cs_id) as [station|] eqn:Es; [|done].
  destruct (Qeq_bool (hours interval) 0) eqn:Eh; [done|].
  destruct (grid_connectors st !! World.cs_parent station) as [connector|] eqn:Eg;
    [|done].
  destruct (cur_max_power connector) as [limit|] eqn:El; [|done].
  set (power := Qmin _ _).
  destruct (Qeq_bool power 0) eqn:Ep; [intros [= <-]; by left|].
  destruct (Qeq_bool (capacity (vehicle_type vehicle_id)) 0) eqn:Ecap; [done|].
  destruct (Qle_bool _ 100) eqn:E100; cbn [negb]; [|done].
  destruct (Qle_bool 0 _) eqn:E0; cbn [negb]; [|done].
  intros [= <-]. right.
  exists vehicle, cs_id, station, connector, limit, power.
  apply Qlt_bool_iff in Ed. apply Qle_bool_iff in E100, E0.
  apply Qeq_bool_neq in Eh, Ep, Ecap.
  repeat (split; [first [done | lra | subst power; minmax_lra]|]).
  by rewrite El.
Qed.

(** *** Commands and station limits *)

Lemma charge_station_limits (st st' : Allocation) (vehicle_id : string) :
  charge vehicle_type interval stations st vehicle_id = Done st' ->
  within_station_limits stations (charging_stations st) ->
  within_station_limits stations (charging_stations st').
Proof.
  intros H Hinv. apply charge_inv in H as [->|H]; [done|].
  destruct H as (vehicle & id & station & connector & limit & power & _ & _ & _
                 & Hs & _ & _ & _ & _ & _ & _ & Hcs & _ & _ & _ & _ & ->).
  cbn. intros id' commanded. destruct (decide (id' = id)) as [->|Hne].
  - rewrite lookup_insert_eq. intros [= <-]. exists station. split; [done|].
    destruct (charging_stations st !! id); cbn in Hcs; lra.
  - rewrite lookup_insert_ne by done. apply Hinv.
Qed.

Lemma charge_all_station_limits (vehicle_ids : list string) :
  forall st st' : Allocation,
    charge_all vehicle_type interval stations st vehicle_ids = Done st' ->
    within_station_limits stations (charging_stations st) ->
    within_station_limits stations (charging_stations st').
Proof.
  induction vehicle_ids as [|vehicle_id rest IH]; intros st st'; cbn.
  - by intros [= <-].
  - destruct (charge _ _ _ st vehicle_id) as [st1|] eqn:E; [|done].
    intros Hrest Hinv. eapply IH; [exact Hrest|].
    by eapply charge_station_limits.
Qed.

(** *** Vehicles *)

Lemma charge_vehicles (st st' : Allocation) (vehicle_id : string) :
  (0 < interval)%Z ->
  (forall id, 0 < capacity (vehicle_type id)) ->
  charge vehicle_type interval stations st vehicle_id = Done st' ->
  forall id v, vehicles st !! id = Some v ->
    exists v', vehicles st' !! id = Some v' /\ charged v v'
      /\ (World.desired_soc v <= World.soc v
          \/ station_truthy (World.connected_charging_station v) = false ->
          v' = v).
Proof.
  intros Hi Hcap H id0 v0 Hv0.
  pose proof H as Hguard. apply charge_inv in H as [->|H].
  { exists v0. split; [done|]. split; [apply charged_refl|done]. }
  destruct H as (vehicle & id & station & connector & limit & power & Hv & Hc
                 & Hlt & _ & _ & _ & Hh & Hcp & Hneed & _ & _ & _ & _ & _ & _ & ->).
  cbn. destruct (decide (id0 = vehicle_id)) as [->|Hne].
  - rewrite lookup_insert_eq. assert (v0 = vehicle) as -> by congruence.
    eexists. split; [done|]. split; [repeat split|].
    + cbn. pose proof (hours_pos Hi) as Hpos. pose proof (Hcap vehicle_id) as Hc0.
      set (h := hours interval) in *. set (c := capacity (vehicle_type vehicle_id)) in *.
      assert (He : 0 < 100 * h / c).
      { apply Qlt_shift_div_l; [done|]. lra. }
      assert (H1 : 100 * (h * power) / c == power * (100 * h / c)) by (field; lra).
      assert (H2 : (World.desired_soc vehicle - World.soc vehicle) / 100 * c / h
                   * (100 * h / c)
                   == World.desired_soc vehicle - World.soc vehicle)
        by (field; split; lra).
      assert (H3 : power * (100 * h / c)
                   <= (World.desired_soc vehicle - World.soc vehicle) / 100 * c / h
                      * (100 * h / c)).
      { apply Qmult_le_compat_r; [done|]. lra. }
      rewrite H1. rewrite H2 in H3.
      pose proof (Q.le_max_r (World.soc vehicle) (World.desired_soc vehicle)).
      lra.
    + intros [Hge|Hno]; [lra|].
      unfold charge in Hguard. rewrite Hv, Hno, andb_false_r in Hguard.
      injection Hguard as Hguard.
      apply (f_equal vehicles) in Hguard. cbn in Hguard.
      apply (f_equal (fun m => m !! vehicle_id)) in Hguard.
      rewrite lookup_insert_eq, Hv in Hguard. by injection Hguard as <-.
  - rewrite lookup_insert_ne by done. exists v0.
    split; [done|]. split; [apply charged_refl|done].
Qed.


End GreedyAllocation.

Section GreedyConnectors.

Import Greedy.
Open Scope Q_scope.

Variable vehicle_type : string -> VehicleType.
Variable interval : Z.
Variable stations : gmap string World.ChargingStation.

Lemma commanded_at_insert (g id : string) (power : Q) (commands : gmap string Q) :
  commands !! id = None ->
  commanded_at stations g (<[id := power]> commands)
  == commanded_at stations g commands + share stations g id power.
Proof.
  intros Hnone. unfold commanded_at, share.
  rewrite (map_fold_insert Qeq); [| | |exact Hnone].
  - destruct (stations !! id) as [s|]; [|ring].
    destruct (String.eqb _ _); ring.
  - intros k v a b Hab. destruct (stations !! k) as [s|]; [|exact Hab].
    destruct (String.eqb _ _); [by rewrite Hab|exact Hab].
  - intros j1 j2 z1 z2 y _ _ _.
    destruct (stations !! j1) as [s1|], (stations !! j2) as [s2|];
      try reflexivity;
      repeat match goal with |- context [String.eqb ?a ?b] =>
               destruct (String.eqb a b) end; ring.
Qed.

Lemma commanded_at_update (g id : string) (power : Q) (commands : gmap string Q) :
  commanded_at stations g
    (<[id := match commands !! id with
             | Some commanded => commanded + power
             | None => power
             end]> commands)
  == commanded_at stations g commands + share stations g id power.
Proof.
  destruct (commands !! id) as [old|] eqn:E.
  - rewrite <- (insert_delete_eq commands).
    rewrite commanded_at_insert by apply lookup_delete_eq.
    rewrite <- (insert_delete_id commands id old E) at 2.
    rewrite commanded_at_insert by apply lookup_delete_eq.
    unfold share. destruct (stations !! id) as [s|]; [|ring].
    destruct (String.eqb _ _); ring.
  - by apply commanded_at_insert.
Qed.

Lemma charge_connectors (st st' : Allocation) (vehicle_id : string) :
  charge vehicle_type interval stations st vehicle_id = Done st' ->
  forall g c, grid_connectors st !! g = Some c ->
    exists c', grid_connectors st' !! g = Some c'
      /\ loaded stations g (charging_stations st) (charging_stations st') c c'.
Proof.
  intros H g c Hc. apply charge_inv in H as [->|H].
  { exists c. split; [done|]. split; [done|]. split; [ring|].
    destruct (cur_max_power c); [apply Q.le_max_l|reflexivity]. }
  destruct H as (vehicle & id & station & connector & limit & power & _ & _ & _
                 & Hs & Hg & Hl & _ & _ & _ & _ & _ & Hgc & _ & _ & _ & ->).
  cbn. pose proof (commanded_at_update g id power (charging_stations st)) as Hsum.
  unfold share in Hsum. rewrite Hs in Hsum.
  destruct (decide (g = World.cs_parent station)) as [->|Hne].
  - rewrite lookup_insert_eq. assert (c = connector) as -> by congruence.
    eexists. split; [done|]. rewrite String.eqb_refl in Hsum.
    split; [done|]. cbn. split; [rewrite Hsum; ring|].
    rewrite Hl. pose proof (Q.le_max_r (current_load connector) limit). lra.
  - rewrite lookup_insert_ne by done. exists c. split; [done|].
    assert (Hneq : String.eqb (World.cs_parent station) g = false).
    { apply String.eqb_neq. congruence. }
    rewrite Hneq in Hsum. split; [done|]. split; [rewrite Hsum; ring|].
    destruct (cur_max_power c); [apply Q.le_max_l|reflexivity].
Qed.

Lemma charge_all_connectors (vehicle_ids : list string) :
  forall st st' : Allocation,
    charge_all vehicle_type interval stations st vehicle_ids = Done st' ->
    forall g c, grid_connectors st !! g = Some c ->
      exists c', grid_connectors st' !! g = Some c'
        /\ loaded stations g (charging_stations st) (charging_stations st') c c'.
Proof.
  induction vehicle_ids as [|vehicle_id rest IH]; intros st st'; cbn.
  - intros [= <-] g c Hc. exists c. split; [done|]. split; [done|].
    split; [ring|].
    destruct (cur_max_power c); [apply Q.le_max_l|reflexivity].
  - destruct (charge _ _ _ st vehicle_id) as [st1|] eqn:E; [|done].
    intros Hrest g c Hc.
    destruct (charge_connectors _ _ _ E g c Hc) as (c1 & Hc1 & Hm1 & Hd1 & Hb1).
    destruct (IH _ _ Hrest g c1 Hc1) as (c2 & Hc2 & Hm2 & Hd2 & Hb2).
    exists c2. split; [done|]. split; [congruence|]. split; [lra|].
    rewrite Hm1 in Hb2. destruct (cur_max_power c) as [limit|].
    + revert Hb1 Hb2. minmax_lra.
    + lra.
Qed.

End GreedyConnectors.

Section GreedyStep.

Import Greedy.
Open Scope Q_scope.

Variable vehicle_type : string -> VehicleType.

(** [Greedy.step] is [Strategy.step] followed by the loop over the
    vehicles, which leaves connectors and charging stations alone. *)
Lemma greedy_step_inv (self self' : World.Strategy)
    (event_list : list World.Event) (commands : gmap string Q) :
  step vehicle_type self event_list = Done (self', commands) ->
  exists self1 st,
    Legacy.step self event_list = Ok self1
    /\ charge_all vehicle_type (World.interval self1)
         (World.charging_stations (World.world_state self1))
         (start (World.world_state self1))
         (sorted (map fst (map_to_list (World.vehicles (World.world_state self1)))))
       = Done st
    /\ commands = charging_stations st
    /\ World.vehicles (World.world_state self') = vehicles st
    /\ World.charging_stations (World.world_state self')
       = World.charging_stations (World.world_state self1)
    /\ World.grid_connectors (World.world_state self')
       = World.grid_connectors (World.world_state self1)
    /\ World.future_events (World.world_state self')
       = World.future_events (World.world_state self1)
    /\ World.current_time self' = (World.current_time self + World.interval self)%Z
    /\ World.interval self1 = World.interval self.
Proof.
  unfold step. destruct (Legacy.step self event_list) as [self1|] eqn:E; [|done].
  destruct (charge_all _ _ _ _ _) as [st|] eqn:Ec; [|done].
  intros [= <- <-]. exists self1, st. cbn.
  destruct (step_future_events self self1 event_list (or_intror E)) as [Ht _].
  repeat split; try done.
  unfold Legacy.step in E. destruct (World.run_due_events _ _ _ _); cbn in E; [|done].
  destruct (Legacy.finish_step _); cbn in E; [|done]. by injection E as <-.
Qed.

(** X11. Greedy never commands more than a charging station can give.
    When [Greedy.step] returns, every entry of [commands] is for a
    charging station of the world state, and the power commanded there,
    summed over the vehicles connected to it, is at most the station's
    [max_power]. *)
Theorem greedy_commands_within_station_limits (self self' : World.Strategy)
    (event_list : list World.Event) (commands : gmap string Q) :
  step vehicle_type self event_list = Done (self', commands) ->
  within_station_limits (World.charging_stations (World.world_state self'))
    commands.
Proof.
  intros H. apply greedy_step_inv in H
    as (self1 & st & _ & Hall & -> & _ & -> & _).
  eapply charge_all_station_limits; [exact Hall|].
  intros id commanded Hid. cbn in Hid. by rewrite lookup_empty in Hid.
Qed.

(** X12. Greedy keeps within the connector's limit. When [Greedy.step]
    returns, then at every grid connector the load it carries plus the
    power commanded at its charging stations is at most the connector's
    [cur_max_power], or at most the load it carried already when that was
    above the limit; at a connector without [cur_max_power] nothing is
    commanded. *)
Theorem greedy_keeps_connector_limit (self self' : World.Strategy)
    (event_list : list World.Event) (commands : gmap string Q) :
  step vehicle_type self event_list = Done (self', commands) ->
  forall g connector,
    World.grid_connectors (World.world_state self') !! g = Some connector ->
    let load := Schedule.sum_loads (World.current_loads connector) in
    let commanded :=
      commanded_at (World.charging_stations (World.world_state self')) g commands in
    match World.cur_max_power connector with
    | Some limit => load + commanded <= Qmax load limit
    | None => commanded == 0
    end.
Proof.
  intros H g connector Hg. apply greedy_step_inv in H
    as (self1 & st & _ & Hall & -> & _ & Hs & Hc & _).
  rewrite Hs. rewrite Hc in Hg.
  destruct (charge_all_connectors _ _ _ _ _ _ Hall g
              {| cur_max_power := World.cur_max_power connector;
                 current_load := Schedule.sum_loads (World.current_loads connector) |})
    as (c' & _ & _ & Hd & Hb).
  { cbn. by rewrite lookup_fmap, Hg. }
  cbn in Hd, Hb. cbv zeta.
  change (commanded_at (World.charging_stations (World.world_state self1)) g ∅)
    with 0 in Hd.
  destruct (World.cur_max_power connector) as [limit|]; lra.
Qed.


End GreedyStep.

Lemma greedy_commands_within_station_limits_witness :
  exists self' commands,
    Greedy.step GreedyExamples.car_type GreedyExamples.strategy []
    = Greedy.Done (self', commands)
    /\ Greedy.within_station_limits
         (World.charging_stations (World.world_state self')) commands.
Proof.
  eexists _, _. split; [vm_compute; reflexivity|].
  eapply (greedy_commands_within_station_limits GreedyExamples.car_type
            GreedyExamples.strategy _ [] _).
  vm_compute. reflexivity.
Defined.

Lemma greedy_keeps_connector_limit_witness :
  exists self' commands,
    Greedy.step GreedyExamples.car_type GreedyExamples.strategy []
    = Greedy.Done (self', commands)
    /\ forall g connector,
         World.grid_connectors (World.world_state self') !! g = Some connector ->
         let load := Schedule.sum_loads (World.current_loads connector) in
         let commanded :=
           Greedy.commanded_at (World.charging_stations (World.world_state self'))
             g commands in
         match World.cur_max_power connector with
         | Some limit => (load + commanded <= Qmax load limit)%Q
         | None => (commanded == 0)%Q
         end.
Proof.
  eexists _, _. split; [vm_compute; reflexivity|].
  eapply (greedy_keeps_connector_limit GreedyExamples.car_type
            GreedyExamples.strategy _ [] _).
  vm_compute. reflexivity.
Defined.


(* ===================================================================== *)
(** * schedule.py outside the core standing time *)
(* ===================================================================== *)

Section ChargeSurplus.

Import Schedule ScheduleCharging.
Open Scope Q_scope.

Variable X : Externals.
Hypothesis contract : BatteryContract X.
Hypothesis clamp : clamp_lowers X.

Lemma load_kept_below_refl (bound : GridConnector -> Q) (gc : GridConnector) :
  load_kept_below bound gc gc.
Proof. split; [done|]. split; [done|]. apply Q.le_max_l. Qed.

Lemma load_kept_below_zero_trans (gc1 gc2 gc3 : GridConnector) :
  load_kept_below (fun _ => 0) gc1 gc2 ->
  load_kept_below (fun _ => 0) gc2 gc3 ->
  load_kept_below (fun _ => 0) gc1 gc3.
Proof.
  intros (Hm1 & Ht1 & Hl1) (Hm2 & Ht2 & Hl2).
  split; [congruence|]. split; [congruence|].
  revert Hl1 Hl2. minmax_lra.
Qed.

Lemma recharged_refl (v : Vehicle) : recharged v v.
Proof. split; [by destruct v as [? ? ? ? []]|done]. Qed.

Lemma recharged_trans (v1 v2 v3 : Vehicle) :
  recharged v1 v2 -> recharged v2 v3 -> recharged v1 v3.
Proof.
  intros [He1 Hr1] [He2 Hr2]. split; [|tauto].
  rewrite <- He1 at 2. rewrite <- He2.
  by destruct v3 as [? ? ? ? []].
Qed.

(** A vehicle after [battery.load]. *)
Lemma loaded_recharged (v : Vehicle) (dt : Z) (mp : option Q) (ts : Q)
    (tp : option Q) :
  recharged v (set_battery (battery_load X (battery v) dt mp ts tp).1 v).
Proof.
  split.
  - unfold set_battery_soc. cbn.
    rewrite (load_changes_soc_only X contract). by destruct v.
  - cbn. apply (load_soc_range X contract).
Qed.

(** The connector after [add_load] of what a battery took when it was
    offered the clamped [power]. *)
Lemma offered_load_kept_below (bound : GridConnector -> Q) (gc : GridConnector)
    (key : string) (power : Q) (vehicle : Vehicle) (cs : ChargingStation)
    (b : Battery) (dt : Z) (ts : Q) :
  get_current_load gc + Qmax 0 power <= Qmax (get_current_load gc) (bound gc) ->
  load_kept_below bound gc
    (add_load key
       (avg_power
          (battery_load X b dt (Some (clamp_power X power vehicle cs)) ts None).2)
       gc).1.
Proof.
  intros Hroom.
  destruct (add_load_current_load key
              (avg_power
                 (battery_load X b dt (Some (clamp_power X power vehicle cs)) ts
                    None).2) gc) as (Hl & Hlimit & Ht).
  split; [done|]. split; [done|]. rewrite Hl.
  pose proof (load_power_bounds X contract b dt
                (clamp_power X power vehicle cs) ts) as [_ Havg].
  pose proof (clamp power vehicle cs) as Hclamp.
  revert Hroom Havg Hclamp. minmax_lra.
Qed.

Lemma charge_surplus_kept (self : ScheduleState) (gc_id : string)
    (st st' : WorldState * gmap string Q) (entry : string * string) :
  charge_surplus X self gc_id st entry = Returned st' ->
  (forall g gc, grid_connectors st.1 !! g = Some gc ->
     exists gc', grid_connectors st'.1 !! g = Some gc'
       /\ load_kept_below (fun _ => 0) gc gc')
  /\ (forall id v, vehicles st.1 !! id = Some v ->
        exists v', vehicles st'.1 !! id = Some v' /\ recharged v v').
Proof.
  destruct st as [w commands], entry as [vehicle_id cs_id].
  unfold charge_surplus.
  destruct (vehicles w !! vehicle_id) as [vehicle|] eqn:Ev; [|done].
  destruct (charging_stations w !! cs_id) as [cs|] eqn:Ec; [|done].
  destruct (grid_connectors w !! gc_id) as [gc0|] eqn:Eg; [|done].
  intros [= <-]. cbn. split.
  - intros g gc Hg. destruct (decide (g = gc_id)) as [->|Hne].
    + rewrite lookup_insert_eq. eexists. split; [done|].
      assert (gc = gc0) as -> by congruence.
      apply offered_load_kept_below.
      generalize (get_current_load gc0). intros load. minmax_lra.
    + rewrite lookup_insert_ne by done. exists gc. split; [done|].
      apply load_kept_below_refl.
  - intros id v Hv. destruct (decide (id = vehicle_id)) as [->|Hne].
    + rewrite lookup_insert_eq. eexists. split; [done|].
      assert (v = vehicle) as -> by congruence. apply loaded_recharged.
    + rewrite lookup_insert_ne by done. exists v. split; [done|].
      apply recharged_refl.
Qed.

Lemma charge_all_surplus_kept (self : ScheduleState) (gc_id : string)
    (entries : list (string * string)) :
  forall st st' : WorldState * gmap string Q,
    charge_all_surplus X self gc_id st entries = Returned st' ->
    (forall g gc, grid_connectors st.1 !! g = Some gc ->
       exists gc', grid_connectors st'.1 !! g = Some gc'
         /\ load_kept_below (fun _ => 0) gc gc')
    /\ (forall id v, vehicles st.1 !! id = Some v ->
          exists v', vehicles st'.1 !! id = Some v' /\ recharged v v').
Proof.
  induction entries as [|entry rest IH]; intros st st'; cbn.
  - intros [= <-]. split.
    + intros g gc Hg. exists gc. split; [done|]. apply load_kept_below_refl.
    + intros id v Hv. exists v. split; [done|]. apply recharged_refl.
  - destruct (charge_surplus X self gc_id st entry) as [st1|] eqn:E; [|done].
    intros Hrest. destruct (charge_surplus_kept _ _ _ _ _ E) as [Hg1 Hv1].
    destruct (IH _ _ Hrest) as [Hg2 Hv2]. split.
    + intros g gc Hg. destruct (Hg1 g gc Hg) as (gc1 & Hgc1 & Hk1).
      destruct (Hg2 g gc1 Hgc1) as (gc2 & Hgc2 & Hk2).
      exists gc2. split; [done|]. by eapply load_kept_below_zero_trans.
    + intros id v Hv. destruct (Hv1 id v Hv) as (v1 & Hv1' & Hr1).
      destruct (Hv2 id v1 Hv1') as (v2 & Hv2' & Hr2).
      exists v2. split; [done|]. by eapply recharged_trans.
Qed.

Lemma charge_at_connectors_kept (self : ScheduleState)
    (vehicles_at_gc : gmap string (list (string * string)))
    (gc_ids : list string) :
  forall st st' : WorldState * gmap string Q,
    charge_at_connectors X self vehicles_at_gc st gc_ids = Returned st' ->
    (forall g gc, grid_connectors st.1 !! g = Some gc ->
       exists gc', grid_connectors st'.1 !! g = Some gc'
         /\ load_kept_below (fun _ => 0) gc gc')
    /\ (forall id v, vehicles st.1 !! id = Some v ->
          exists v', vehicles st'.1 !! id = Some v' /\ recharged v v').
Proof.
  induction gc_ids as [|gc_id rest IH]; intros st st'; cbn.
  - intros [= <-]. split.
    + intros g gc Hg. exists gc. split; [done|]. apply load_kept_below_refl.
    + intros id v Hv. exists v. split; [done|]. apply recharged_refl.
  - destruct (charge_at_connector X self vehicles_at_gc st gc_id) as [st1|] eqn:E;
      [|done].
    intros Hrest.
    assert (H1 : (forall g gc, grid_connectors st.1 !! g = Some gc ->
                    exists gc', grid_connectors st1.1 !! g = Some gc'
                      /\ load_kept_below (fun _ => 0) gc gc')
                 /\ (forall id v, vehicles st.1 !! id = Some v ->
                       exists v', vehicles st1.1 !! id = Some v' /\ recharged v v')).
    { unfold charge_at_connector in E. destruct st as [w commands].
      destruct (vehicles_at_gc !! gc_id) as [found|]; [|done].
      destruct (grid_connectors w !! gc_id) as [gc0|]; [|done].
      destruct (target gc0) as [tg|]; [|done].
      destruct (_ || _).
      - injection E as <-. split.
        + intros g gc Hg. exists gc. split; [done|]. apply load_kept_below_refl.
        + intros id v Hv. exists v. split; [done|]. apply recharged_refl.
      - by apply charge_all_surplus_kept in E. }
    destruct H1 as [Hg1 Hv1]. destruct (IH _ _ Hrest) as [Hg2 Hv2]. split.
    + intros g gc Hg. destruct (Hg1 g gc Hg) as (gc1 & Hgc1 & Hk1).
      destruct (Hg2 g gc1 Hgc1) as (gc2 & Hgc2 & Hk2).
      exists gc2. split; [done|]. by eapply load_kept_below_zero_trans.
    + intros id v Hv. destruct (Hv1 id v Hv) as (v1 & Hv1' & Hr1).
      destruct (Hv2 id v1 Hv1') as (v2 & Hv2' & Hr2).
      exists v2. split; [done|]. by eapply recharged_trans.
Qed.

(** X14. [charge_vehicles] hands out surplus power only. For a battery
    that keeps its contract and a [clamp_power] that does not raise the
    power it is given, when [charge_vehicles] returns, every grid
    connector has the limit and the target it had and a load that is at
    most the larger of the load it had and zero: the vehicles take no more
    than what is fed in, so the function never makes a connector draw
    from the grid. Every vehicle is as it was but for the SOC of its
    battery, which is within [0, 1] if it was. *)
Theorem charge_vehicles_uses_surplus_only (self : ScheduleState)
    (gc_ids vehicle_ids : list string) (w' : WorldState)
    (commands : gmap string Q) :
  charge_vehicles X self gc_ids vehicle_ids = Returned (w', commands) ->
  (forall g gc,
     grid_connectors (world_state self) !! g = Some gc ->
     exists gc', grid_connectors w' !! g = Some gc'
       /\ load_kept_below (fun _ => 0) gc gc')
  /\ (forall id v,
        vehicles (world_state self) !! id = Some v ->
        exists v', vehicles w' !! id = Some v' /\ recharged v v').
Proof.
  unfold charge_vehicles.
  destruct (find_vehicles _ _ _) as [vehicles_at_gc|]; [|done].
  intros H. by apply charge_at_connectors_kept in H.
Qed.

End ChargeSurplus.

Section ChargeBalanced.

Import Schedule ScheduleCharging.
Open Scope Q_scope.

Variable X : Externals.
Hypothesis contract : BatteryContract X.
Hypothesis clamp : clamp_lowers X.
Hypothesis eps_pos : 0 < EPS X.

Lemma load_kept_below_limit_trans (gc1 gc2 gc3 : GridConnector) :
  load_kept_below limit_or_load gc1 gc2 ->
  load_kept_below limit_or_load gc2 gc3 ->
  load_kept_below limit_or_load gc1 gc3.
Proof.
  unfold load_kept_below, limit_or_load.
  intros (Hc1 & Ht1 & Hl1) (Hc2 & Ht2 & Hl2).
  split; [congruence|]. split; [congruence|].
  rewrite Hc1 in Hl2. destruct (cur_max_power gc1) as [limit|]; cbn in *.
  - revert Hl1 Hl2. minmax_lra.
  - revert Hl1 Hl2. minmax_lra.
Qed.

(** The power that the search holds never exceeds the ceiling it started
    from. *)
Lemma search_loop_power_le (iterations : nat) (dt : Z) (delta_soc old_soc B : Q)
    (fuel : nat) :
  forall st st' : Search,
    search_loop X iterations dt delta_soc old_soc fuel st = Some st' ->
    s_power st <= Qmax 0 B -> s_max_power st <= B ->
    s_power st' <= Qmax 0 B.
Proof.
  induction fuel as [|fuel IH]; intros st st'; cbn [search_loop];
    destruct (search_continues X iterations st) eqn:Hc; try done;
    try (by intros [= <-]).
  intros Hloop Hp Hmax. apply (IH _ _ Hloop).
  - apply andb_true_iff in Hc as [_ Hwide]. apply Qlt_bool_iff in Hwide.
    pose proof (Q.le_max_r 0 B) as HB.
    unfold search_step. destruct (Qlt_bool _ _); cbn [s_power];
      rewrite Qhalf; lra.
  - apply andb_true_iff in Hc as [_ Hwide]. apply Qlt_bool_iff in Hwide.
    unfold search_step. destruct (Qlt_bool _ _); cbn [s_max_power];
      rewrite ?Qhalf; lra.
Qed.

(** What [sim_balanced_charging] returns is at most the power it was
    allowed, and the vehicle is as it was. *)
Lemma sim_balanced_charging_power_le (self : ScheduleState) (fuel : nat)
    (vehicle vehicle' : Vehicle) (dt : Z) (max_power : Q)
    (delta_soc : option Q) (balanced : Balanced) :
  sim_balanced_charging X self fuel vehicle dt max_power delta_soc
  = Some (Ok (Some balanced, vehicle')) ->
  opt_power balanced <= Qmax 0 max_power /\ vehicle' = vehicle.
Proof.
  unfold sim_balanced_charging.
  destruct (connected_charging_station vehicle) as [cs_id|]; [|done].
  destruct (charging_stations (world_state self) !! cs_id) as [cs|]; [|done].
  destruct (Qlt_bool _ _).
  - destruct (search_loop _ _ _ _ _ _ _) as [st|] eqn:Hloop; [|done].
    intros [= <- <-]. cbn [opt_power]. split.
    + pose proof (search_loop_power_le _ _ _ _
                    (s_max_power (search_start X vehicle cs max_power))
                    _ _ _ Hloop) as Hle.
      cbn [search_start s_power s_max_power] in Hle.
      pose proof (clamp (Qmin max_power
                           (charging_curve_max_power (vehicle_type vehicle)))
                    vehicle cs) as Hclamp.
      set (B := clamp_power X _ vehicle cs) in *.
      specialize (Hle (Q.le_max_l 0 B) (Qle_refl B)).
      revert Hle Hclamp. minmax_lra.
    + eapply (search_loop_vehicle X (load_changes_soc_only X contract));
        [|exact Hloop]. done.
  - intros [= <- <-]. cbn. split; [apply Q.le_max_l|done].
Qed.

(** With enough fuel [sim_balanced_charging] returns. *)
Lemma sim_balanced_charging_returns (self : ScheduleState) (vehicle : Vehicle)
    (dt : Z) (max_power : Q) (delta_soc : option Q) :
  exists fuel0 r,
    forall fuel, (fuel0 <= fuel)%nat ->
      sim_balanced_charging X self fuel vehicle dt max_power delta_soc = Some r.
Proof.
  unfold sim_balanced_charging.
  destruct (connected_charging_station vehicle) as [cs_id|];
    [|by exists 0%nat; eexists].
  destruct (charging_stations (world_state self) !! cs_id) as [cs|];
    [|by exists 0%nat; eexists].
  destruct (Qlt_bool _ _); [|by exists 0%nat; eexists].
  destruct (search_from_start X (load_changes_soc_only X contract) eps_pos
              (ITERATIONS self) dt (default (get_delta_soc vehicle) delta_soc)
              vehicle _ _ (search_start X vehicle cs max_power)
              eq_refl eq_refl eq_refl eq_refl eq_refl)
    as (st & fuel0 & Hloop & _).
  exists fuel0. eexists. intros fuel Hfuel. by rewrite (Hloop fuel Hfuel).
Qed.

Lemma charge_balanced_returns (self : ScheduleState) (gc_id : string)
    (st : WorldState * gmap string Q) (vehicle_id : string) :
  exists fuel0 r,
    forall fuel, (fuel0 <= fuel)%nat ->
      charge_balanced X self fuel gc_id st vehicle_id = Some r.
Proof.
  destruct st as [w commands]. unfold charge_balanced.
  destruct (vehicles w !! vehicle_id) as [vehicle|]; [|by exists 0%nat; eexists].
  destruct (connected_charging_station vehicle) as [cs_id|];
    [|by exists 0%nat; eexists].
  destruct (charging_stations w !! cs_id) as [cs|]; [|by exists 0%nat; eexists].
  destruct (estimated_time_of_departure vehicle) as [departure|];
    [|by exists 0%nat; eexists].
  destruct (grid_connectors w !! gc_id) as [gc|]; [|by exists 0%nat; eexists].
  destruct (cur_max_power gc) as [limit|]; [|by exists 0%nat; eexists].
  destruct (sim_balanced_charging_returns (set_world_state w self) vehicle
              (departure - current_time self) (limit - get_current_load gc) None)
    as (fuel0 & r & Hr).
  exists fuel0.
  destruct r as [[[balanced|] vehicle1]|e]; eexists; intros fuel Hfuel;
    by rewrite (Hr fuel Hfuel).
Qed.

Lemma charge_all_balanced_returns (self : ScheduleState) (gc_id : string)
    (vehicle_ids : list string) :
  forall st : WorldState * gmap string Q,
    exists fuel0 r,
      forall fuel, (fuel0 <= fuel)%nat ->
        charge_all_balanced X self fuel gc_id st vehicle_ids = Some r.
Proof.
  induction vehicle_ids as [|vehicle_id rest IH]; intros st; cbn.
  - by exists 0%nat; eexists.
  - destruct (charge_balanced_returns self gc_id st vehicle_id)
      as (fuel1 & [st1|e] & H1).
    + destruct (IH st1) as (fuel2 & r & H2).
      exists (fuel1 `max` fuel2)%nat, r. intros fuel Hfuel.
      rewrite (H1 fuel) by lia. apply H2. lia.
    + exists fuel1, (Failed e). intros fuel Hfuel. by rewrite (H1 fuel).
Qed.

Lemma charge_balanced_kept (self : ScheduleState) (fuel : nat) (gc_id : string)
    (st st' : WorldState * gmap string Q) (vehicle_id : string) :
  charge_balanced X self fuel gc_id st vehicle_id = Some (Returned st') ->
  (forall g gc, grid_connectors st.1 !! g = Some gc ->
     exists gc', grid_connectors st'.1 !! g = Some gc'
       /\ load_kept_below limit_or_load gc gc')
  /\ (forall id v, vehicles st.1 !! id = Some v ->
        exists v', vehicles st'.1 !! id = Some v' /\ recharged v v').
Proof.
  destruct st as [w commands]. unfold charge_balanced.
  destruct (vehicles w !! vehicle_id) as [vehicle|] eqn:Ev; [|done].
  destruct (connected_charging_station vehicle) as [cs_id|].
  2:{ intros [= <-]. split.
      - intros g gc Hg. exists gc. split; [done|]. apply load_kept_below_refl.
      - intros id v Hv. exists v. split; [done|]. apply recharged_refl. }
  destruct (charging_stations w !! cs_id) as [cs|]; [|done].
  destruct (estimated_time_of_departure vehicle) as [departure|]; [|done].
  destruct (grid_connectors w !! gc_id) as [gc0|] eqn:Eg; [|done].
  destruct (cur_max_power gc0) as [limit|] eqn:El; [|done].
  destruct (sim_balanced_charging _ _ _ _ _ _ _) as [[[[balanced|] vehicle1]|]|]
    eqn:Hsim; try done.
  apply sim_balanced_charging_power_le in Hsim as [Hopt ->].
  intros [= <-]. cbn. split.
  - intros g gc Hg. destruct (decide (g = gc_id)) as [->|Hne].
    + rewrite lookup_insert_eq. eexists. split; [done|].
      assert (gc = gc0) as -> by congruence.
      apply (offered_load_kept_below X contract clamp).
      unfold limit_or_load. rewrite El. cbn.
      revert Hopt. generalize (get_current_load gc0) (opt_power balanced).
      intros load opt. minmax_lra.
    + rewrite lookup_insert_ne by done. exists gc. split; [done|].
      apply load_kept_below_refl.
  - intros id v Hv. destruct (decide (id = vehicle_id)) as [->|Hne].
    + rewrite lookup_insert_eq. eexists. split; [done|].
      assert (v = vehicle) as -> by congruence.
      apply (loaded_recharged X contract).
    + rewrite lookup_insert_ne by done. exists v. split; [done|].
      apply recharged_refl.
Qed.

Lemma charge_all_balanced_kept (self : ScheduleState) (fuel : nat)
    (gc_id : string) (vehicle_ids : list string) :
  forall st st' : WorldState * gmap string Q,
    charge_all_balanced X self fuel gc_id st vehicle_ids = Some (Returned st') ->
    (forall g gc, grid_connectors st.1 !! g = Some gc ->
       exists gc', grid_connectors st'.1 !! g = Some gc'
         /\ load_kept_below limit_or_load gc gc')
    /\ (forall id v, vehicles st.1 !! id = Some v ->
          exists v', vehicles st'.1 !! id = Some v' /\ recharged v v').
Proof.
  induction vehicle_ids as [|vehicle_id rest IH]; intros st st'; cbn.
  - intros [= <-]. split.
    + intros g gc Hg. exists gc. split; [done|]. apply load_kept_below_refl.
    + intros id v Hv. exists v. split; [done|]. apply recharged_refl.
  - destruct (charge_balanced X self fuel gc_id st vehicle_id) as [[st1|]|] eqn:E;
      try done.
    intros Hrest. destruct (charge_balanced_kept _ _ _ _ _ _ E) as [Hg1 Hv1].
    destruct (IH _ _ Hrest) as [Hg2 Hv2]. split.
    + intros g gc Hg. destruct (Hg1 g gc Hg) as (gc1 & Hgc1 & Hk1).
      destruct (Hg2 g gc1 Hgc1) as (gc2 & Hgc2 & Hk2).
      exists gc2. split; [done|]. by eapply load_kept_below_limit_trans.
    + intros id v Hv. destruct (Hv1 id v Hv) as (v1 & Hv1' & Hr1).
      destruct (Hv2 id v1 Hv1') as (v2 & Hv2' & Hr2).
      exists v2. split; [done|]. by eapply (recharged_trans).
Qed.

(** X15. Charging after the core standing time keeps within the
    connector's limit. For a positive [EPS], a battery that keeps its
    contract and a [clamp_power] that does not raise the power it is
    given, [charge_vehicles_after_core_standing_time] returns or raises
    (every balanced search ends), and when it returns, every grid
    connector has the limit and the target it had and a load that is at
    most the larger of the load it had and [cur_max_power]; every vehicle
    is as it was but for the SOC of its battery, which is within [0, 1]
    if it was; and [overcharge_necessary] is as it was, or has been
    cleared because the connected vehicles need less than [EPS] in all. *)
Theorem charge_after_core_keeps_limit (self : ScheduleState)
    (vehicle_ids : list string) (commands : gmap string Q)
    (overcharge_necessary : bool) :
  exists fuel0 r,
    (forall fuel, (fuel0 <= fuel)%nat ->
       charge_vehicles_after_core_standing_time X self fuel vehicle_ids commands
         overcharge_necessary = Some r)
    /\ forall w' commands' overcharge_necessary',
         r = Returned (w', commands', overcharge_necessary') ->
         (forall g gc,
            grid_connectors (world_state self) !! g = Some gc ->
            exists gc', grid_connectors w' !! g = Some gc'
              /\ load_kept_below limit_or_load gc gc')
         /\ (forall id v,
               vehicles (world_state self) !! id = Some v ->
               exists v', vehicles w' !! id = Some v' /\ recharged v v')
         /\ (overcharge_necessary' = overcharge_necessary
             \/ overcharge_necessary' = false
                /\ sum (power_needed (world_state self) vehicle_ids) < EPS X).
Proof.
  assert (Hsame : forall w : WorldState,
             (forall g gc, grid_connectors w !! g = Some gc ->
                exists gc', grid_connectors w !! g = Some gc'
                  /\ load_kept_below limit_or_load gc gc')
             /\ (forall id v, vehicles w !! id = Some v ->
                   exists v', vehicles w !! id = Some v' /\ recharged v v')).
  { intros w. split.
    - intros g gc Hg. exists gc. split; [done|]. apply load_kept_below_refl.
    - intros id v Hv. exists v. split; [done|]. apply recharged_refl. }
  unfold charge_vehicles_after_core_standing_time.
  destruct (map_to_list (grid_connectors (world_state self))) as [|[gc_id gc] rest].
  { exists 0%nat. eexists. split; [done|]. intros ? ? ? [=]. }
  destruct (Qlt_bool (sum _) (EPS X)) eqn:Esum.
  { exists 0%nat. eexists. split; [done|]. intros ? ? ? [= <- <- <-].
    destruct (Hsame (world_state self)) as [Hg Hv].
    split; [done|]. split; [done|]. right. split; [done|].
    by apply Qlt_bool_iff. }
  destruct (cur_max_power gc) as [limit|].
  2:{ exists 0%nat. eexists. split; [done|]. intros ? ? ? [=]. }
  destruct (Qlt_bool (limit - _) (EPS X)).
  { exists 0%nat. eexists. split; [done|]. intros ? ? ? [= <- <- <-].
    destruct (Hsame (world_state self)) as [Hg Hv].
    split; [done|]. split; [done|]. by left. }
  destruct (charge_all_balanced_returns self gc_id vehicle_ids
              (world_state self, commands)) as (fuel0 & r & Hr).
  exists fuel0.
  exists (match r with
          | Failed e => Failed e
          | Returned (w', commands') =>
              Returned (w', commands', overcharge_necessary)
          end).
  split.
  - intros fuel Hfuel. rewrite (Hr fuel Hfuel). by destruct r as [[??]|].
  - intros w' commands' flag' Heq.
    destruct r as [[w1 commands1]|e]; [|done]. injection Heq as <- <- <-.
    specialize (Hr fuel0 (le_n _)).
    apply charge_all_balanced_kept in Hr as [Hg Hv].
    split; [done|]. split; [done|]. by left.
Qed.

End ChargeBalanced.

(** The clamp of the examples cuts the power or drops it. *)
Lemma station_clamp_lowers : ScheduleCharging.clamp_lowers ScheduleExamples.externals.
Proof.
  intros power vehicle cs. cbn. unfold ScheduleExamples.station_clamp.
  destruct (Qlt_bool _ _); [apply Q.le_max_l|].
  destruct (Qlt_bool _ _); [apply Q.le_max_l|].
  minmax_lra.
Qed.

Lemma charge_vehicles_uses_surplus_only_witness :
  exists w' commands,
    ScheduleCharging.charge_vehicles ScheduleExamples.externals
      ChargingExamples.sunny ["GC1"] ["V1"]
    = ScheduleCharging.Returned (w', commands)
    /\ (forall g gc,
          Schedule.grid_connectors (Schedule.world_state ChargingExamples.sunny) !! g
          = Some gc ->
          exists gc', Schedule.grid_connectors w' !! g = Some gc'
            /\ ScheduleCharging.load_kept_below (fun _ => 0%Q) gc gc')
    /\ (forall id v,
          Schedule.vehicles (Schedule.world_state ChargingExamples.sunny) !! id
          = Some v ->
          exists v', Schedule.vehicles w' !! id = Some v'
            /\ ScheduleCharging.recharged v v').
Proof.
  eexists _, _. split; [vm_compute; reflexivity|].
  eapply (charge_vehicles_uses_surplus_only ScheduleExamples.externals
            linear_battery_contract station_clamp_lowers
            ChargingExamples.sunny ["GC1"] ["V1"] _ _).
  vm_compute. reflexivity.
Defined.

(** The run of the example: the car takes the 7 kW that are fed in and
    the connector ends at zero. *)
Example charge_vehicles_takes_the_surplus :
  exists w' gc',
    ScheduleCharging.charge_vehicles ScheduleExamples.externals
      ChargingExamples.sunny ["GC1"] ["V1"]
    = ScheduleCharging.Returned (w', {[ "CS1" := (7 # 1)%Q ]})
    /\ Schedule.grid_connectors w' !! "GC1" = Some gc'
    /\ (Schedule.get_current_load gc' == 0)%Q.
Proof.
  eexists _, _. split; [vm_compute; reflexivity|].
  split; [vm_compute; reflexivity|]. vm_compute. reflexivity.
Qed.

Lemma charge_after_core_keeps_limit_witness :
  exists fuel0 r,
    (forall fuel, (fuel0 <= fuel)%nat ->
       ScheduleCharging.charge_vehicles_after_core_standing_time
         ScheduleExamples.externals ChargingExamples.sunny fuel ["V1"] ∅ true
       = Some r)
    /\ forall w' commands' overcharge_necessary',
         r = ScheduleCharging.Returned (w', commands', overcharge_necessary') ->
         (forall g gc,
            Schedule.grid_connectors (Schedule.world_state ChargingExamples.sunny) !! g
            = Some gc ->
            exists gc', Schedule.grid_connectors w' !! g = Some gc'
              /\ ScheduleCharging.load_kept_below ScheduleCharging.limit_or_load
                   gc gc')
         /\ (forall id v,
               Schedule.vehicles (Schedule.world_state ChargingExamples.sunny) !! id
               = Some v ->
               exists v', Schedule.vehicles w' !! id = Some v'
                 /\ ScheduleCharging.recharged v v')
         /\ (overcharge_necessary' = true
             \/ overcharge_necessary' = false
                /\ (ScheduleCharging.sum
                      (ScheduleCharging.power_needed
                         (Schedule.world_state ChargingExamples.sunny) ["V1"])
                    < Schedule.EPS ScheduleExamples.externals)%Q).
Proof.
  apply (charge_after_core_keeps_limit ScheduleExamples.externals
           linear_battery_contract station_clamp_lowers eq_refl
           ChargingExamples.sunny ["V1"] ∅ true).
Defined.

(** The run of the example: the balanced search settles on 1.5 kW, the
    power that brings the car from 0.5 to 0.8 in the eight hours until it
    leaves, up to the tolerance of the search. *)
Example charge_after_core_balances :
  exists w' power,
    ScheduleCharging.charge_vehicles_after_core_standing_time
      ScheduleExamples.externals ChargingExamples.sunny 40 ["V1"] ∅ true
    = Some (ScheduleCharging.Returned (w', {[ "CS1" := power ]}, true))
    /\ (149 # 100 < power < 151 # 100)%Q.
Proof.
  eexists _, _. split; [vm_compute; reflexivity|].
  split; vm_compute; reflexivity.
Qed.

(* ===================================================================== *)
(** * Stationary batteries and the target *)
(* ===================================================================== *)

Section SteeringBatteries.

Import Schedule ScheduleCharging.
Open Scope Q_scope.

Variable X : Externals.
Hypothesis contract : BatteryContract X.
Hypothesis eps_nonneg : 0 <= EPS X.

Lemma steered_refl (gc : GridConnector) : steered gc gc.
Proof.
  split; [done|]. split; [done|].
  destruct (target gc); [|done]. split; [apply Q.le_min_l|apply Q.le_max_l].
Qed.

Lemma steered_trans (gc1 gc2 gc3 : GridConnector) :
  steered gc1 gc2 -> steered gc2 gc3 -> steered gc1 gc3.
Proof.
  intros (Hc1 & Ht1 & Hl1) (Hc2 & Ht2 & Hl2).
  split; [congruence|]. split; [congruence|].
  rewrite Ht1 in Hl2. destruct (target gc1) as [T|]; [|congruence].
  revert Hl1 Hl2.
  generalize (get_current_load gc1) (get_current_load gc2) (get_current_load gc3).
  intros L1 L2 L3 Hl1 Hl2. split; minmax_lra.
Qed.

Lemma battery_kept_refl (b : Battery) : battery_kept b b.
Proof. split; [by destruct b|done]. Qed.

(** One round of the loop. *)
Lemma utilize_battery_steers (self : ScheduleState) (bid : string)
    (b b' : Battery) (gc gc' : GridConnector) (p : option Q) :
  utilize_battery X self bid b gc = Ok (b', gc', p) ->
  steered gc gc' /\ battery_kept b b'.
Proof.
  intros H. split.
  - destruct (target gc) as [T|] eqn:HT.
    + destruct (cur_max_power gc) as [M|] eqn:HM.
      * destruct (utilize_battery_spec X (load_power_bounds X contract)
                    (unload_power_bounds X contract) eps_nonneg
                    self bid b gc T M HT HM)
          as (b1 & bat_power & Hrun & Hup & Hdown & Hnone & _).
        rewrite Hrun in H. injection H as <- <- <-.
        destruct (add_load_current_load bid bat_power gc) as (Hl & Hlimit & Ht).
        split; [done|]. split; [done|]. rewrite HT, Hl.
        set (L := get_current_load gc) in *. clearbody L.
        destruct (Qlt_le_dec (EPS X) (T - L)) as [Hlow|Hnl].
        { destruct (Hup Hlow) as [? _]. split; minmax_lra. }
        destruct (Qlt_le_dec (T - L) (- EPS X)) as [Hhigh|Hnh].
        { specialize (Hdown Hhigh). split; minmax_lra. }
        rewrite (Hnone (conj Hnh Hnl)). split; minmax_lra.
      * unfold utilize_battery in H. by rewrite HT, HM in H.
    + unfold utilize_battery in H. rewrite HT in H. injection H as <- <- <-.
      split; [done|]. split; [done|]. by rewrite HT.
  - unfold utilize_battery in H.
    destruct (target gc) as [T|]; [|injection H as <- <- <-; apply battery_kept_refl].
    destruct (cur_max_power gc) as [M|]; [|done].
    destruct (Qlt_bool _ _).
    + injection H as <- <- <-. split.
      * apply (unload_changes_soc_only X contract).
      * apply (unload_soc_range X contract).
    + destruct (Qlt_bool _ _).
      * injection H as <- <- <-. split.
        -- apply (load_changes_soc_only X contract).
        -- apply (load_soc_range X contract).
      * injection H as <- <- <-. apply battery_kept_refl.
Qed.

(** The loop over the batteries. *)
Lemma utilize_loop_steers (self : ScheduleState) (items : list (string * Battery)) :
  forall w w' : WorldState,
    utilize_loop X self items w = Ok w' ->
    (forall name gc, grid_connectors w !! name = Some gc ->
       exists gc', grid_connectors w' !! name = Some gc' /\ steered gc gc')
    /\ vehicles w' = vehicles w
    /\ charging_stations w' = charging_stations w
    /\ (forall bid, bid ∉ items.*1 -> batteries w' !! bid = batteries w !! bid)
    /\ (NoDup items.*1 ->
        forall bid b, (bid, b) ∈ items ->
          exists b', batteries w' !! bid = Some b' /\ battery_kept b b').
Proof.
  induction items as [|[bid0 b0] rest IH]; intros w w'; cbn [utilize_loop].
  - intros [= <-]. split; [|split; [done|split; [done|split; [done|]]]].
    + intros name gc Hgc. exists gc. split; [done|apply steered_refl].
    + intros _ bid b Hin. by apply elem_of_nil in Hin.
  - unfold getitem.
    destruct (grid_connectors w !! parent b0) as [gc0|] eqn:Hgc0; cbn; [|done].
    destruct (utilize_battery X self bid0 b0 gc0) as [[[b1 gc1] p]|] eqn:E; cbn;
      [|done].
    intros Hrest.
    destruct (utilize_battery_steers _ _ _ _ _ _ _ E) as [Hsteer Hkept].
    destruct (IH _ _ Hrest) as (Hg & Hv & Hs & Hout & Hin).
    cbn in Hg, Hv, Hs, Hout.
    split; [|split; [done|split; [done|split]]].
    + intros name gc Hgc. destruct (decide (name = parent b0)) as [->|Hne].
      * assert (gc = gc0) as -> by congruence.
        destruct (Hg (parent b0) gc1) as (gc' & Hgc' & Hst).
        { by rewrite lookup_insert_eq. }
        exists gc'. split; [done|]. by eapply steered_trans.
      * apply Hg. by rewrite lookup_insert_ne.
    + intros bid Hnot. cbn in Hnot.
      apply not_elem_of_cons in Hnot as [Hne Hnot].
      rewrite (Hout bid Hnot). by rewrite lookup_insert_ne.
    + intros Hnd bid b Hb. cbn in Hnd. apply NoDup_cons in Hnd as [Hfresh Hnd].
      apply elem_of_cons in Hb as [[= -> ->]|Hb].
      * exists b1. split; [|done].
        rewrite (Hout bid0 Hfresh). by rewrite lookup_insert_eq.
      * by apply Hin.
Qed.

(** X16. The stationary batteries steer the load towards the target and
    not past it. For a battery that keeps its contract and [EPS >= 0],
    when every battery stands at a connector that has a limit or no
    target, [utilize_stationary_batteries] returns, and then every grid
    connector has its limit and target as before and, when it has a
    target, a load between the load it had and the target (a connector
    without target is untouched); every battery is as it was but for its
    SOC, which is within [0, 1] if it was; vehicles and charging stations
    are untouched. *)
Theorem utilize_stationary_batteries_steers (self : ScheduleState) :
  (forall bid b, batteries (world_state self) !! bid = Some b ->
     exists gc, grid_connectors (world_state self) !! parent b = Some gc
                /\ (target gc = None \/ is_Some (cur_max_power gc))) ->
  exists w',
    utilize_stationary_batteries X self = Ok w'
    /\ (forall name gc,
          grid_connectors (world_state self) !! name = Some gc ->
          exists gc', grid_connectors w' !! name = Some gc' /\ steered gc gc')
    /\ (forall bid b,
          batteries (world_state self) !! bid = Some b ->
          exists b', batteries w' !! bid = Some b' /\ battery_kept b b')
    /\ vehicles w' = vehicles (world_state self)
    /\ charging_stations w' = charging_stations (world_state self).
Proof.
  intros Hpre. unfold utilize_stationary_batteries.
  destruct (utilize_loop_spec X (load_power_bounds X contract)
              (unload_power_bounds X contract) eps_nonneg self
              (map_to_list (batteries (world_state self))) (world_state self))
    as (w' & Hrun & _).
  { intros bid b Hin. apply (Hpre bid). by apply elem_of_map_to_list. }
  exists w'. split; [done|].
  destruct (utilize_loop_steers _ _ _ _ Hrun) as (Hg & Hv & Hs & _ & Hin).
  split; [done|]. split; [|done].
  intros bid b Hb. apply Hin.
  - apply NoDup_fst_map_to_list.
  - by apply elem_of_map_to_list.
Qed.

End SteeringBatteries.

Lemma utilize_stationary_batteries_steers_witness :
  exists w',
    Schedule.utilize_stationary_batteries ScheduleExamples.externals
      ScheduleExamples.schedule = Ok w'
    /\ (forall name gc,
          Schedule.grid_connectors (Schedule.world_state ScheduleExamples.schedule)
            !! name = Some gc ->
          exists gc', Schedule.grid_connectors w' !! name = Some gc'
            /\ ScheduleCharging.steered gc gc')
    /\ (forall bid b,
          Schedule.batteries (Schedule.world_state ScheduleExamples.schedule) !! bid
          = Some b ->
          exists b', Schedule.batteries w' !! bid = Some b'
            /\ ScheduleCharging.battery_kept b b')
    /\ Schedule.vehicles w'
       = Schedule.vehicles (Schedule.world_state ScheduleExamples.schedule)
    /\ Schedule.charging_stations w'
       = Schedule.charging_stations (Schedule.world_state ScheduleExamples.schedule).
Proof.
  apply (utilize_stationary_batteries_steers ScheduleExamples.externals
           linear_battery_contract ltac:(discriminate) ScheduleExamples.schedule).
  intros bid b Hb.
  change (({[ "BAT1" := ScheduleExamples.storage ]} : gmap string Schedule.Battery)
            !! bid = Some b) in Hb.
  apply lookup_singleton_Some in Hb as [<- <-].
  exists ScheduleExamples.connector. split; [reflexivity|].
  right. eexists. reflexivity.
Defined.

(* ===================================================================== *)
(** * The forecast of the grid connector *)
(* ===================================================================== *)

Section ForecastReplay.

Import Schedule Forecast.
Open Scope Z_scope.

Variable get_avg_fixed_load : Z -> Z -> Q.

Lemma same_schedule_refl (a : Info) : same_schedule a a.
Proof. by repeat split. Qed.

Lemma same_schedule_trans (a b c : Info) :
  same_schedule a b -> same_schedule b c -> same_schedule a c.
Proof.
  intros (Ht1 & Hc1 & Hl1) (Ht2 & Hc2 & Hl2).
  split; [congruence|]. split; [congruence|].
  intros name Hn. by rewrite Hl1, Hl2.
Qed.

Lemma set_fixed_load_same (value : Q) (a : Info) :
  same_schedule (set_fixed_load value a) a.
Proof.
  split; [done|]. split; [done|]. intros name Hn. cbn.
  by rewrite lookup_insert_ne.
Qed.

Lemma update_same (a b : Info) (event : Events.Event) :
  same_schedule a b -> same_schedule (update a event) (update b event).
Proof.
  intros (Ht & Hc & Hl). destruct event as [e|e|g|v]; cbn; try done.
  - split; [done|]. split; [done|]. intros name Hn. cbn.
    destruct (decide (name = Events.ev_name e)) as [->|Hne].
    + by rewrite !lookup_insert_eq.
    + rewrite !lookup_insert_ne by done. by apply Hl.
  - split; [by rewrite Ht|]. split; [by rewrite Hc|done].
Qed.

Lemma foldl_update_same (events : list Events.Event) :
  forall a b : Info,
    same_schedule a b ->
    same_schedule (foldl update a events) (foldl update b events).
Proof.
  induction events as [|event rest IH]; intros a b Hab; cbn; [done|].
  by apply IH, update_same.
Qed.

(** On a sorted queue the inner loop takes exactly the events that start
    at or before [cur_time]. *)
Lemma peek_spec (cur_time : Z) (events : list Events.Event) :
  StronglySorted by_start_time events ->
  forall info : Info,
    exists consumed,
      events = consumed ++ (peek cur_time info events).2
      /\ Forall (fun ev => Events.start_time ev <= cur_time) consumed
      /\ Forall (fun ev => cur_time < Events.start_time ev)
           (peek cur_time info events).2
      /\ (peek cur_time info events).1 = foldl update info consumed.
Proof.
  induction 1 as [|event rest Hs IH Hall]; intros info; cbn [peek].
  - exists []. by repeat split.
  - destruct (decide (Events.start_time event > cur_time)) as [Hgt|Hle].
    + exists []. cbn. split; [done|]. split; [constructor|]. split; [|done].
      constructor; [lia|].
      eapply Forall_impl; [exact Hall|]. unfold by_start_time. cbn. lia.
    + destruct (IH (update info event)) as (consumed & Heq & Hc & Hr & Hf).
      exists (event :: consumed). cbn. split; [by f_equal|].
      split; [constructor; [lia|done]|]. done.
Qed.

Lemma filter_consumed (T cur_time : Z) (consumed rest : list Events.Event) :
  cur_time <= T ->
  Forall (fun ev => Events.start_time ev <= cur_time) consumed ->
  List.filter (fun ev => bool_decide (Events.start_time ev <= T)) (consumed ++ rest)
  = consumed
    ++ List.filter (fun ev => bool_decide (Events.start_time ev <= T)) rest.
Proof.
  intros Hle Hall. rewrite List.filter_app. f_equal.
  apply forallb_filter_id, forallb_forall. rewrite Forall_forall in Hall.
  intros x Hx. apply list_elem_of_In, Hall in Hx.
  apply bool_decide_eq_true_2. lia.
Qed.

Lemma filter_later_nil (cur_time : Z) (rest : list Events.Event) :
  Forall (fun ev => cur_time < Events.start_time ev) rest ->
  List.filter (fun ev => bool_decide (Events.start_time ev <= cur_time)) rest = [].
Proof.
  induction 1 as [|ev rest Hev _ IH]; cbn; [done|].
  by rewrite bool_decide_eq_false_2 by lia.
Qed.

(** Every round of the outer loop holds the schedule as the events up to
    its time leave it. *)
Lemma timesteps_from_replays (interval : Z) (n : nat) :
  0 <= interval ->
  forall (cur_time : Z) (last : Info) (events : list Events.Event)
         (i : nat) (info : Info),
    StronglySorted by_start_time events ->
    timesteps_from get_avg_fixed_load interval n cur_time last events !! i
    = Some info ->
    same_schedule info
      (foldl update last
         (List.filter
            (fun ev => bool_decide
                         (Events.start_time ev
                          <= cur_time + (Z.of_nat i + 1) * interval))
            events)).
Proof.
  intros Hi. induction n as [|n IH]; intros cur_time last events i info Hs;
    cbn [timesteps_from]; [done|].
  set (now := cur_time + interval).
  set (fixed := set_fixed_load (get_avg_fixed_load now interval) last).
  destruct (peek_spec now events Hs fixed) as (consumed & Heq & Hc & Hr & Hf).
  destruct (peek now fixed events) as [peeked rest]. cbn [fst snd] in *.
  subst events peeked.
  destruct i as [|i]; cbn [lookup list_lookup].
  - intros [= <-].
    replace (cur_time + (Z.of_nat 0 + 1) * interval) with now by (unfold now; lia).
    rewrite (filter_consumed now now) by (done || lia).
    rewrite (filter_later_nil now _ Hr), app_nil_r.
    apply foldl_update_same, set_fixed_load_same.
  - intros Hlook.
    assert (Hsorted : StronglySorted by_start_time rest).
    { clear -Hs. induction consumed as [|x consumed IHc]; [done|].
      apply IHc. by inversion Hs. }
    apply (IH _ _ _ _ _ Hsorted) in Hlook.
    eapply same_schedule_trans; [exact Hlook|].
    replace (cur_time + (Z.of_nat (S i) + 1) * interval)
      with (now + (Z.of_nat i + 1) * interval) by (unfold now; lia).
    rewrite (filter_consumed (now + (Z.of_nat i + 1) * interval) now)
      by (done || nia).
    rewrite foldl_app. apply foldl_update_same.
    apply foldl_update_same, set_fixed_load_same.
Qed.

Lemma timesteps_from_length (interval : Z) (n : nat) :
  forall cur_time last events,
    length (timesteps_from get_avg_fixed_load interval n cur_time last events) = n.
Proof.
  induction n as [|n IH]; intros cur_time last events; cbn; [done|].
  by rewrite IH.
Qed.

Lemma latest_snoc {A : Type} (f : Events.Event -> option A)
    (events : list Events.Event) (event : Events.Event) :
  latest f (events ++ [event])
  = match f event with Some a => Some a | None => latest f events end.
Proof.
  unfold latest. rewrite omap_app. cbn.
  destruct (f event); [apply last_snoc|by rewrite app_nil_r].
Qed.

Lemma latest_app_None {A : Type} (f : Events.Event -> option A)
    (first second : list Events.Event) :
  latest f (first ++ second) = None ->
  latest f first = None /\ latest f second = None.
Proof.
  unfold latest. rewrite omap_app, !last_None.
  intros H. by apply app_eq_nil in H.
Qed.

(** Events applied in order leave the target and the window of the last
    signal that carried one, and for every name the negative value of the
    last local generation of that name. *)
Lemma foldl_update_fields (events : list Events.Event) (a : Info) :
  target (foldl update a events)
  = match latest signalled_target events with
    | Some t => Some t
    | None => target a
    end
  /\ charge (foldl update a events)
     = default (charge a) (latest signalled_window events)
  /\ forall name,
       current_loads (foldl update a events) !! name
       = match latest (generated name) events with
         | Some value => Some value
         | None => current_loads a !! name
         end.
Proof.
  induction events as [|event events IH] using rev_ind; [done|].
  destruct IH as (Ht & Hc & Hl).
  rewrite foldl_app. cbn [foldl]. rewrite !latest_snoc.
  destruct event as [e|e|g|v]; cbn [update signalled_target signalled_window
                                      generated target charge current_loads].
  - split; [done|]. split; [done|]. intros name. rewrite latest_snoc. apply Hl.
  - split; [done|]. split; [done|]. intros name. rewrite latest_snoc. cbn.
    destruct (decide (Events.ev_name e = name)) as [->|Hne].
    + by rewrite lookup_insert_eq.
    + rewrite lookup_insert_ne by done. apply Hl.
  - split; [|split].
    + by destruct (Events.gos_target g).
    + by destruct (Events.gos_window g).
    + intros name. rewrite latest_snoc. apply Hl.
  - split; [done|]. split; [done|]. intros name. rewrite latest_snoc. apply Hl.
Qed.

(** The inner loop takes a beginning of the queue. *)
Lemma peek_consumes (cur_time : Z) (events : list Events.Event) :
  forall info : Info,
    exists consumed,
      events = consumed ++ (peek cur_time info events).2
      /\ (peek cur_time info events).1 = foldl update info consumed.
Proof.
  induction events as [|event rest IH]; intros info; cbn [peek].
  - by exists [].
  - destruct (decide (Events.start_time event > cur_time)).
    + by exists [].
    + destruct (IH (update info event)) as (consumed & Heq & Hf).
      exists (event :: consumed). cbn. split; [by f_equal|done].
Qed.

(** Every round of the outer loop holds the average fixed load of its
    own time, unless a local generation of that name has started. *)
Lemma timesteps_from_fixed_load (interval : Z) (n : nat) :
  0 <= interval ->
  forall (cur_time : Z) (last : Info) (events : list Events.Event)
         (i : nat) (info : Info),
    StronglySorted by_start_time events ->
    timesteps_from get_avg_fixed_load interval n cur_time last events !! i
    = Some info ->
    latest (generated "fixed_load")
      (started (cur_time + (Z.of_nat i + 1) * interval) events) = None ->
    current_loads info !! "fixed_load"
    = Some (get_avg_fixed_load (cur_time + (Z.of_nat i + 1) * interval) interval).
Proof.
  intros Hi. induction n as [|n IH]; intros cur_time last events i info Hs;
    cbn [timesteps_from]; [done|].
  set (now := cur_time + interval).
  set (fixed := set_fixed_load (get_avg_fixed_load now interval) last).
  destruct (peek_spec now events Hs fixed) as (consumed & Heq & Hc & Hr & Hf).
  destruct (peek now fixed events) as [peeked rest]. cbn [fst snd] in *.
  subst events peeked. unfold started.
  destruct i as [|i]; cbn [lookup list_lookup].
  - intros [= <-].
    replace (cur_time + (Z.of_nat 0 + 1) * interval) with now by (unfold now; lia).
    rewrite (filter_consumed now now) by (done || lia).
    rewrite (filter_later_nil now _ Hr), app_nil_r.
    intros Hnone.
    destruct (foldl_update_fields consumed fixed) as (_ & _ & Hl).
    rewrite Hl, Hnone. cbn. by rewrite lookup_insert_eq.
  - intros Hlook.
    assert (Hsorted : StronglySorted by_start_time rest).
    { clear -Hs. induction consumed as [|x consumed IHc]; [done|].
      apply IHc. by inversion Hs. }
    replace (cur_time + (Z.of_nat (S i) + 1) * interval)
      with (now + (Z.of_nat i + 1) * interval) by (unfold now; lia).
    rewrite (filter_consumed (now + (Z.of_nat i + 1) * interval) now)
      by (done || nia).
    intros Hnone. apply latest_app_None in Hnone as [_ Hnone].
    by apply (IH _ _ _ _ _ Hsorted Hlook).
Qed.

(** X17. The forecast replays the schedule. For the one grid connector
    of the world state, a positive interval and a queue sorted by start
    time, [collect_future_gc_info(dt)] returns [max(1, dt // interval)]
    entries; only the initial entry (no loads, the connector's target, no
    charging window) when [dt // interval < 1]. Otherwise, of the events
    that start at or before [current_time + i * interval], entry [i]
    holds: as target the target of the last grid operator signal that
    carried one, and the connector's target when there is none; as window
    the window of the last grid operator signal that carried one, and no
    window when there is none; for every name but [fixed_load], as load
    the negative value of the last local generation of that name, and no
    load when there is none; and as load [fixed_load] the average fixed
    load of its own time, when no local generation has that name. *)
Theorem collect_future_gc_info_replays_schedule (self : ScheduleState)
    (future_events : list Events.Event) (dt : Z) (gc_id : string)
    (gc : GridConnector) :
  grid_connectors (world_state self) = {[ gc_id := gc ]} ->
  0 < Schedule.interval self ->
  StronglySorted by_start_time future_events ->
  exists infos,
    collect_future_gc_info get_avg_fixed_load self future_events dt
    = ScheduleCharging.Returned infos
    /\ length infos = Z.to_nat (Z.max 1 (dt / Schedule.interval self))
    /\ (dt / Schedule.interval self < 1 ->
        infos = [{| current_loads := ∅; target := Schedule.target gc;
                    charge := false |}])
    /\ forall (i : nat) (info : Info),
         infos !! i = Some info ->
         Z.of_nat i < dt / Schedule.interval self ->
         let time :=
           Schedule.current_time self + Z.of_nat i * Schedule.interval self in
         let due := started time future_events in
         target info
         = match latest signalled_target due with
           | Some t => Some t
           | None => Schedule.target gc
           end
         /\ charge info = default false (latest signalled_window due)
         /\ (forall name, name <> "fixed_load" ->
               current_loads info !! name = latest (generated name) due)
         /\ (latest (generated "fixed_load") due = None ->
             current_loads info !! "fixed_load"
             = Some (get_avg_fixed_load time (Schedule.interval self))).
Proof.
  intros Hgc Hi Hs. unfold collect_future_gc_info.
  rewrite Hgc, map_to_list_singleton.
  destruct (decide (Schedule.interval self = 0)) as [|_]; [lia|].
  set (first := {| current_loads := ∅; target := Schedule.target gc;
                   charge := false |}).
  destruct (Z.to_nat (dt / Schedule.interval self)) as [|n] eqn:En.
  - exists [first]. split; [done|]. split; [cbn; lia|]. split; [done|].
    intros i info _ Hlt. lia.
  - eexists. split; [done|]. split; [rewrite timesteps_from_length; lia|].
    split; [lia|]. intros i info Hlook _.
    set (time := Schedule.current_time self + Z.of_nat i * Schedule.interval self).
    set (due := started time future_events).
    assert (Htime : time
                    = Schedule.current_time self - Schedule.interval self
                      + (Z.of_nat i + 1) * Schedule.interval self)
      by (unfold time; lia).
    pose proof Hlook as Hfixed.
    apply timesteps_from_replays in Hlook; [|lia|done].
    rewrite <- Htime in Hlook. fold (started time future_events) in Hlook.
    fold due in Hlook.
    destruct Hlook as (Ht & Hc & Hl).
    destruct (foldl_update_fields due first) as (Ht' & Hc' & Hl').
    split; [by rewrite Ht, Ht'|]. split; [by rewrite Hc, Hc'|]. split.
    + intros name Hn. rewrite (Hl name Hn), Hl'. cbn.
      by destruct (latest (generated name) due).
    + intros Hnone. rewrite Htime.
      assert (Hnn : 0 <= Schedule.interval self) by lia.
      apply (timesteps_from_fixed_load _ _ Hnn _ _ _ _ _ Hs Hfixed).
      by rewrite <- Htime.
Qed.

End ForecastReplay.

Lemma collect_future_gc_info_replays_schedule_witness :
  exists infos,
    Forecast.collect_future_gc_info (fun _ _ => (5 # 1)%Q) ChargingExamples.sunny
      ForecastExamples.future_events (2 * ScheduleExamples.hour)
    = ScheduleCharging.Returned infos
    /\ length infos
       = Z.to_nat (Z.max 1 (2 * ScheduleExamples.hour
                            / Schedule.interval ChargingExamples.sunny))
    /\ ((2 * ScheduleExamples.hour / Schedule.interval ChargingExamples.sunny < 1)%Z ->
        infos
        = [{| Forecast.current_loads := ∅;
              Forecast.target := Schedule.target ChargingExamples.sunny_connector;
              Forecast.charge := false |}])
    /\ forall (i : nat) (info : Forecast.Info),
         infos !! i = Some info ->
         (Z.of_nat i
          < 2 * ScheduleExamples.hour / Schedule.interval ChargingExamples.sunny)%Z ->
         let time :=
           (Schedule.current_time ChargingExamples.sunny
            + Z.of_nat i * Schedule.interval ChargingExamples.sunny)%Z in
         let due := Forecast.started time ForecastExamples.future_events in
         Forecast.target info
         = match Forecast.latest Forecast.signalled_target due with
           | Some t => Some t
           | None => Schedule.target ChargingExamples.sunny_connector
           end
         /\ Forecast.charge info
            = default false (Forecast.latest Forecast.signalled_window due)
         /\ (forall name, name <> "fixed_load" ->
               Forecast.current_loads info !! name
               = Forecast.latest (Forecast.generated name) due)
         /\ (Forecast.latest (Forecast.generated "fixed_load") due = None ->
             Forecast.current_loads info !! "fixed_load"
             = Some (5 # 1)%Q).
Proof.
  apply (collect_future_gc_info_replays_schedule (fun _ _ => (5 # 1)%Q)
           ChargingExamples.sunny ForecastExamples.future_events
           (2 * ScheduleExamples.hour) "GC1" ChargingExamples.sunny_connector).
  - reflexivity.
  - reflexivity.
  - repeat constructor; unfold Forecast.by_start_time; cbn; vm_compute; congruence.
Defined.

(** The forecast of the example over two hours: eight quarters of an
    hour; the window is open and the target is 20 kW from the first entry
    on, the roof appears in the third, the target is 35 kW from the fifth
    on. *)
Example collect_future_gc_info_run :
  exists infos,
    Forecast.collect_future_gc_info (fun _ _ => (5 # 1)%Q) ChargingExamples.sunny
      ForecastExamples.future_events (2 * ScheduleExamples.hour)
    = ScheduleCharging.Returned infos
    /\ Forecast.target <$> infos
       = [Some (20 # 1); Some (20 # 1); Some (20 # 1); Some (20 # 1);
          Some (35 # 1); Some (35 # 1); Some (35 # 1); Some (35 # 1)]%Q
    /\ Forecast.charge <$> infos = replicate 8 true
    /\ (fun info => Forecast.current_loads info !! "roof") <$> infos
       = [None; None; Some (- (6 # 1)); Some (- (6 # 1)); Some (- (6 # 1));
          Some (- (6 # 1)); Some (- (6 # 1)); Some (- (6 # 1))]%Q.
Proof.
  eexists. split; [vm_compute; reflexivity|].
  split; [|split]; vm_compute; reflexivity.
Qed.

(* ===================================================================== *)
(** * The schedule file *)
(* ===================================================================== *)

Section ScheduleFile.

Import ScheduleCsv.

Variable p : Params.

(** What the loop knows of its own list: the target and the window it
    remembers are those of the last signal, the times it holds are those
    of the last signal, and the list is well stamped. *)
Local Abbreviation consistent st :=
  (last st = last_signal (schedule st)
   /\ times st = times_after None (schedule st)
   /\ stamped None (schedule st)).

Lemma stamped_app (current : option (Datetime * Datetime))
    (first second : list Emitted) :
  stamped current (first ++ second)
  <-> stamped current first /\ stamped (times_after current first) second.
Proof.
  revert current. induction first as [|event rest IH]; intros current; cbn.
  - tauto.
  - destruct event as [s g c t w|s g v q]; cbn; rewrite IH;
      unfold times_after; cbn; tauto.
Qed.

Lemma find_signal_time_sent (start_ start_time signal_time : Datetime) :
  find_signal_time start_ start_time = Returned signal_time ->
  later signal_time start_time = Some false.
Proof.
  unfold find_signal_time. destruct (later _ start_) as [is_later|]; [|done].
  destruct (later _ start_time) as [[|]|] eqn:E; try done.
  by intros [= <-].
Qed.

(** The vehicle columns add vehicle events only, each with the times the
    loop holds. *)
Lemma vehicle_events_appends (times_ : option (Datetime * Datetime)) (row : Row)
    (names : list string) :
  forall (i : nat) (schedules schedules' : list (option Q))
         (emitted emitted' : list Emitted),
    vehicle_events times_ row i names schedules emitted
    = Returned (schedules', emitted') ->
    exists added,
      emitted' = emitted ++ added
      /\ last_signal (emitted ++ added) = last_signal emitted
      /\ (forall current, times_after current added = current)
      /\ stamped times_ added.
Proof.
  induction names as [|vid rest IH]; intros i schedules schedules' emitted emitted';
    cbn [vehicle_events].
  - intros [= <- <-]. exists []. rewrite app_nil_r. by repeat split.
  - destruct (row_vehicles row !! i) as [v|]; [|done].
    destruct (schedules !! i) as [known|]; [|done].
    destruct (match known with Some old => _ | None => true end).
    + destruct times_ as [[start_time signal_time]|]; [|done].
      intros H. apply IH in H as (added & -> & Hl & Ht & Hs).
      exists (VehicleSchedule start_time signal_time vid v :: added).
      rewrite <- app_assoc. cbn. split; [done|].
      split; [|split; [|done]].
      * rewrite <- app_assoc in Hl. cbn in Hl. rewrite Hl.
        unfold last_signal. by rewrite foldl_app.
      * intros current. unfold times_after. cbn. apply Ht.
    + apply IH.
Qed.

(** One row: the list grows at its end, stays consistent, and then ends
    on the target and the window of the row. *)
Lemma read_row_consistent (idx : nat) (row : Row) (st st' : State) :
  read_row p idx row st = Returned st' ->
  consistent st ->
  schedule st `prefix_of` schedule st'
  /\ consistent st'
  /\ exists target,
       last st' = Some (target, row_window row)
       /\ (target == row_target row)%Q.
Proof.
  unfold read_row, read_signal. intros H (Hlast & Htimes & Hstamped).
  assert (Hmid : exists mid,
             match (if changed (row_target row) (row_window row) (last st)
                    then
                      match find_start_time (interval p) idx row (st_start st) with
                      | Failed e => Failed e
                      | Returned (start_, start_time) =>
                          match find_signal_time start_ start_time with
                          | Failed e => Failed e
                          | Returned signal_time =>
                              Returned
                                {| st_start := Some start_;
                                   last := Some (row_target row, row_window row);
                                   times := Some (start_time, signal_time);
                                   vehicle_schedules := vehicle_schedules st;
                                   schedule :=
                                     schedule st
                                     ++ [Signal start_time signal_time
                                           (grid_connector_id p)
                                           (row_target row) (row_window row)] |}
                          end
                      end
                    else Returned st) with
             | Returned mid' => mid' = mid
             | Failed _ => False
             end
             /\ schedule st `prefix_of` schedule mid
             /\ consistent mid
             /\ exists target,
                  last mid = Some (target, row_window row)
                  /\ (target == row_target row)%Q).
  { destruct (changed _ _ _) eqn:Ec.
    - destruct (find_start_time _ _ _ _) as [[start_ start_time]|]; [|done].
      destruct (find_signal_time start_ start_time) as [signal_time|] eqn:Es;
        [|done].
      eexists. split; [reflexivity|]. cbn.
      split; [by apply prefix_app_r|]. split.
      + split; [unfold last_signal; by rewrite foldl_app|].
        split; [unfold times_after; by rewrite foldl_app|].
        apply stamped_app. split; [done|]. cbn.
        split; [by eapply find_signal_time_sent|done].
      + exists (row_target row). split; [done|reflexivity].
    - exists st. split; [done|]. split; [done|]. split; [done|].
      unfold changed in Ec. destruct (last st) as [[last_target last_window]|];
        [|done].
      apply orb_false_iff in Ec as [Et Ew].
      apply negb_false_iff in Et, Ew. apply Qeq_bool_iff in Et.
      apply bool_decide_eq_true in Ew. subst last_window.
      exists last_target. split; [done|]. by symmetry. }
  destruct Hmid as (mid & Hrun & Hprefix & (Hl & Ht & Hs) & Hrow).
  destruct (if changed _ _ _ then _ else _) as [mid'|]; [|done]. subst mid'.
  destruct (vehicle_events _ _ _ _ _ _) as [[schedules emitted]|] eqn:Ev; [|done].
  injection H as <-. cbn [last times schedule].
  apply vehicle_events_appends in Ev as (added & -> & Hadd & Hkeep & Hstamp).
  split; [|split; [split; [|split]|]].
  - etrans; [exact Hprefix|]. by apply prefix_app_r.
  - by rewrite Hadd.
  - unfold times_after. rewrite foldl_app. fold (times_after None (schedule mid)).
    rewrite <- Ht. symmetry. apply Hkeep.
  - apply stamped_app. split; [done|]. by rewrite <- Ht.
  - done.
Qed.

Lemma read_rows_consistent (rows : list Row) :
  forall (idx : nat) (st st' : State),
    read_rows p idx rows st = Returned st' ->
    consistent st ->
    schedule st `prefix_of` schedule st' /\ consistent st'.
Proof.
  induction rows as [|row rest IH]; intros idx st st'; cbn [read_rows].
  - by intros [= <-] H.
  - destruct (read_row p idx row st) as [st1|] eqn:E; [|done].
    intros Hrest Hc.
    destruct (read_row_consistent _ _ _ _ E Hc) as (Hp1 & Hc1 & _).
    destruct (IH _ _ _ Hrest Hc1) as (Hp2 & Hc2).
    split; [by etrans|done].
Qed.

Lemma read_rows_app (first second : list Row) :
  forall (idx : nat) (st : State),
    read_rows p idx (first ++ second) st
    = match read_rows p idx first st with
      | Failed e => Failed e
      | Returned st1 => read_rows p (idx + length first) second st1
      end.
Proof.
  induction first as [|row rest IH]; intros idx st; cbn [read_rows app length].
  - by rewrite Nat.add_0_r.
  - destruct (read_row p idx row st) as [st1|]; [|done].
    rewrite IH. by replace (S idx + length rest)%nat with (idx + S (length rest))%nat
      by lia.
Qed.

(** What the loop remembers of the row before: its window and a target
    equal to its target; nothing before the first row. *)
Local Abbreviation remembers previous st :=
  (match previous with
   | None => last st = None
   | Some before =>
       exists target,
         last st = Some (target, row_window before)
         /\ Qeq target (row_target before)
   end).

Lemma changed_differs (previous : option Row) (row : Row) (st : State) :
  remembers previous st ->
  changed (row_target row) (row_window row) (last st)
  = match previous with
    | Some previous => differs previous row
    | None => true
    end.
Proof.
  destruct previous as [previous|]; [|by intros ->].
  intros (target & -> & Ht). unfold changed, differs. f_equal. f_equal.
  destruct (Qeq_bool (row_target row) (row_target previous)) eqn:E.
  - apply Qeq_bool_iff. apply Qeq_bool_iff in E. by rewrite Ht.
  - destruct (Qeq_bool (row_target row) target) eqn:E'; [|done].
    apply Qeq_bool_iff in E'. rewrite Ht in E'.
    apply Qeq_bool_iff in E'. congruence.
Qed.

Lemma signals_app (first second : list Emitted) :
  signals (first ++ second) = signals first ++ signals second.
Proof. apply omap_app. Qed.

(** The vehicle columns add no signal. *)
Lemma vehicle_events_signals (times_ : option (Datetime * Datetime)) (row : Row)
    (names : list string) :
  forall (i : nat) (schedules schedules' : list (option Q))
         (emitted emitted' : list Emitted),
    vehicle_events times_ row i names schedules emitted
    = Returned (schedules', emitted') ->
    signals emitted' = signals emitted.
Proof.
  induction names as [|vid rest IH]; intros i schedules schedules' emitted emitted';
    cbn [vehicle_events].
  - by intros [= <- <-].
  - destruct (row_vehicles row !! i) as [v|]; [|done].
    destruct (schedules !! i) as [known|]; [|done].
    destruct (match known with Some old => _ | None => true end).
    + destruct times_ as [[start_time signal_time]|]; [|done].
      intros H. apply IH in H. rewrite H, signals_app. cbn. apply app_nil_r.
    + apply IH.
Qed.

(** One row adds a signal exactly when it changes the schedule, with its
    own target and window. *)
Lemma read_row_signals (previous : option Row) (idx : nat) (row : Row)
    (st st' : State) :
  read_row p idx row st = Returned st' ->
  remembers previous st ->
  signals (schedule st')
  = signals (schedule st)
    ++ map (fun row => (row_target row, row_window row))
         (changes previous [row])
  /\ remembers (Some row) st'.
Proof.
  unfold read_row, read_signal. intros H Hprev.
  rewrite (changed_differs previous row st Hprev) in H.
  cbn [changes]. rewrite app_nil_r.
  destruct (match previous with Some _ => _ | None => true end) eqn:Ec.
  - destruct (find_start_time _ _ _ _) as [[start_ start_time]|]; [|done].
    destruct (find_signal_time start_ start_time) as [signal_time|]; [|done].
    cbn [times vehicle_schedules schedule] in H.
    destruct (vehicle_events _ _ _ _ _ _) as [[schedules emitted]|] eqn:Ev;
      [|done].
    injection H as <-. cbn [last schedule].
    apply vehicle_events_signals in Ev. rewrite Ev, signals_app. cbn.
    split; [done|]. exists (row_target row). split; [done|reflexivity].
  - destruct (vehicle_events _ _ _ _ _ _) as [[schedules emitted]|] eqn:Ev;
      [|done].
    injection H as <-. cbn [last schedule].
    apply vehicle_events_signals in Ev. rewrite Ev. cbn. rewrite app_nil_r.
    split; [done|].
    destruct previous as [previous|]; [|done].
    destruct Hprev as (target & Hl & Ht).
    unfold differs in Ec. apply orb_false_iff in Ec as [Et Ew].
    apply negb_false_iff in Et, Ew. apply Qeq_bool_iff in Et.
    apply bool_decide_eq_true in Ew.
    exists target. rewrite Hl, Ew. split; [done|]. by rewrite Ht, Et.
Qed.

Lemma read_rows_signals (rows : list Row) :
  forall (previous : option Row) (idx : nat) (st st' : State),
    read_rows p idx rows st = Returned st' ->
    remembers previous st ->
    signals (schedule st')
    = signals (schedule st)
      ++ map (fun row => (row_target row, row_window row))
           (changes previous rows).
Proof.
  induction rows as [|row rest IH]; intros previous idx st st'; cbn [read_rows].
  - intros [= <-] _. cbn. by rewrite app_nil_r.
  - destruct (read_row p idx row st) as [st1|] eqn:E; [|done].
    intros Hrest Hprev.
    destruct (read_row_signals previous _ _ _ _ E Hprev) as (Hs1 & Hprev1).
    rewrite (IH (Some row) _ _ _ Hrest Hprev1), Hs1.
    cbn [changes]. rewrite app_nil_r, map_app, app_assoc. done.
Qed.

(** X18. Only changes of the schedule make a signal, and every change
    makes one. When [get_schedule_from_csv] returns, the grid operator
    signals of the list are, in their order, the target and the window of
    the first row and of every row whose target or window is not that of
    the row before it: a row that repeats both makes no signal. And for
    every row of the file the events made of the rows up to and including
    that row are the beginning of the returned list, and the last grid
    operator signal among them carries the target and the window of that
    row. *)
Theorem get_schedule_from_csv_replays (rows : list Row) (events : list Emitted) :
  get_schedule_from_csv (Some p) rows = Returned events ->
  signals events
  = map (fun row => (row_target row, row_window row)) (changes None rows)
  /\ forall (i : nat) (row : Row),
       rows !! i = Some row ->
       exists events_i target,
         get_schedule_from_csv (Some p) (take (S i) rows) = Returned events_i
         /\ events_i `prefix_of` events
         /\ last_signal events_i = Some (target, row_window row)
         /\ (target == row_target row)%Q.
Proof.
  unfold get_schedule_from_csv. intros H.
  set (st0 := {| st_start := start p; last := None; times := None;
                 vehicle_schedules := replicate (length (vehicle_names p)) None;
                 schedule := [] |}) in *.
  split.
  { destruct (read_rows p 0 rows st0) as [st|] eqn:E; [|done].
    injection H as <-.
    by rewrite (read_rows_signals rows None _ _ _ E eq_refl). }
  intros i row Hi.
  assert (Hc0 : consistent st0) by done.
  rewrite <- (take_drop (S i) rows) in H.
  rewrite (take_S_r rows i row Hi) in *.
  rewrite !read_rows_app in *. cbn [read_rows] in *.
  destruct (read_rows p 0 (take i rows) st0) as [st1|] eqn:E1; [|done].
  destruct (read_rows_consistent _ _ _ _ E1 Hc0) as (_ & Hc1).
  destruct (read_row p (0 + length (take i rows)) row st1) as [st2|] eqn:E2;
    [|done].
  destruct (read_row_consistent _ _ _ _ E2 Hc1)
    as (_ & Hc2 & target & Hlast & Htarget).
  destruct (read_rows p _ (drop (S i) rows) st2) as [st3|] eqn:E3; [|done].
  injection H as <-.
  destruct (read_rows_consistent _ _ _ _ E3 Hc2) as (Hprefix & _).
  exists (schedule st2), target. split; [done|]. split; [done|].
  destruct Hc2 as (Hl & _). by rewrite <- Hl.
Qed.

End ScheduleFile.

(** X19. The times of the events of a schedule file. When
    [get_schedule_from_csv] returns, every grid operator signal of the
    list is sent no later than it starts, and every vehicle event carries
    the start time and the signal time of the grid operator signal that
    precedes it in the list, whatever row its own schedule changed in. *)
Theorem get_schedule_from_csv_stamps (obj : option ScheduleCsv.Params)
    (rows : list ScheduleCsv.Row) (events : list ScheduleCsv.Emitted) :
  ScheduleCsv.get_schedule_from_csv obj rows = ScheduleCsv.Returned events ->
  ScheduleCsv.stamped None events.
Proof.
  unfold ScheduleCsv.get_schedule_from_csv.
  destruct obj as [q|]; [|by intros [= <-]].
  destruct (ScheduleCsv.read_rows q 0 rows _) as [st|] eqn:E; [|done].
  intros [= <-].
  by destruct (read_rows_consistent q rows _ _ _ E) as (_ & _ & _ & ?).
Qed.


Lemma get_schedule_from_csv_replays_witness :
  exists events,
    ScheduleCsv.get_schedule_from_csv (Some ScheduleCsvExamples.params)
      ScheduleCsvExamples.rows = ScheduleCsv.Returned events
    /\ ScheduleCsv.signals events = [(10 # 1, Some true); (12 # 1, Some true)]%Q
    /\ forall (i : nat) (row : ScheduleCsv.Row),
         ScheduleCsvExamples.rows !! i = Some row ->
         exists events_i target,
           ScheduleCsv.get_schedule_from_csv (Some ScheduleCsvExamples.params)
             (take (S i) ScheduleCsvExamples.rows)
           = ScheduleCsv.Returned events_i
           /\ events_i `prefix_of` events
           /\ ScheduleCsv.last_signal events_i
              = Some (target, ScheduleCsv.row_window row)
           /\ (target == ScheduleCsv.row_target row)%Q.
Proof.
  eexists. split; [vm_compute; reflexivity|].
  apply (get_schedule_from_csv_replays ScheduleCsvExamples.params
           ScheduleCsvExamples.rows).
  vm_compute. reflexivity.
Defined.

Lemma get_schedule_from_csv_stamps_witness :
  exists events,
    ScheduleCsv.get_schedule_from_csv (Some ScheduleCsvExamples.params)
      ScheduleCsvExamples.rows = ScheduleCsv.Returned events
    /\ ScheduleCsv.stamped None events.
Proof.
  eexists. split; [vm_compute; reflexivity|].
  apply (get_schedule_from_csv_stamps (Some ScheduleCsvExamples.params)
           ScheduleCsvExamples.rows).
  vm_compute. reflexivity.
Defined.

(** The file of the example: a signal for the first and for the third
    row, sent at the start of the file, and a vehicle event for the first,
    the second and the fourth row; the one of the second row starts with
    the first row, the one of the fourth with the third. *)
Example get_schedule_from_csv_run :
  let at_quarter (n : Z) :=
    ScheduleCsv.plus ScheduleCsvExamples.noon (n * (900 * ScheduleCsv.second)) in
  ScheduleCsv.get_schedule_from_csv (Some ScheduleCsvExamples.params)
    ScheduleCsvExamples.rows
  = ScheduleCsv.Returned
      [ ScheduleCsv.Signal (at_quarter 0%Z) ScheduleCsvExamples.noon "GC1"
          (10 # 1) (Some true);
        ScheduleCsv.VehicleSchedule (at_quarter 0%Z) ScheduleCsvExamples.noon "V1"
          (3 # 1);
        ScheduleCsv.VehicleSchedule (at_quarter 0%Z) ScheduleCsvExamples.noon "V1"
          (4 # 1);
        ScheduleCsv.Signal (at_quarter 2%Z) ScheduleCsvExamples.noon "GC1"
          (12 # 1) (Some true);
        ScheduleCsv.VehicleSchedule (at_quarter 2%Z) ScheduleCsvExamples.noon "V1"
          (5 # 1) ]%Q.
Proof. vm_compute. reflexivity. Qed.
